(** * A shallow embedding of parts of the ceno zkVM

    - [Expr]: the expression algebra of [ceno_zkvm/src/expression/monomial.rs]
      (total order, canonical form, monomial form);
    - [Ltu]: the unsigned less-than witness assignment of
      [ceno_zkvm/src/instructions/riscv/config.rs];
    - [Mock]: the error aggregation of [MockProver::run_maybe_challenge]
      ([ceno_zkvm/src/scheme/mock_prover.rs]);
    - [Query]: the query index derivation of [query_phase]
      ([mpcs/src/multilinear/basefold.rs]);
    - [Foldable]: the foldable code of the same file (encoding of the
      coefficients, folding of the bit-reversed codeword);
    - [Lt]: the signed less-than assignment ([MsbInput], [LtInput]);
    - [Sumcheck], [BasefoldMisc], [RawBytes]: the sum-check prover, the
      hypercube interpolation, the query and commitment helpers and the
      byte reading of [basefold.rs];
    - [MockAssert]: [MockProver::assert_with_expected_errors]. *)

From Stdlib Require Import ZArith Lia Ring String List Bool Permutation.
From stdpp Require Import base gmap list.

Open Scope Z_scope.

(* ------------------------------------------------------------------ *)
(** ** The Goldilocks field and its quadratic extension *)
(* ------------------------------------------------------------------ *)

(** Modelled from the spec: the [goldilocks] crate ([fp.rs], the
    extension) is not part of the sources; the spec fixes
    [p = 2^64 - 2^32 + 1].  Base elements are kept as their canonical
    integer in [0, p); the extension [GoldilocksExt2] is [F[u]/(u^2 - 7)],
    an element [a + b u] being the pair [(a, b)]. *)
Module Goldilocks.

Definition p : Z := 2 ^ 64 - 2 ^ 32 + 1.

Definition F := Z.
Definition E := (Z * Z)%type.

Definition f_add (a b : F) : F := (a + b) mod p.
Definition f_sub (a b : F) : F := (a - b) mod p.
Definition f_mul (a b : F) : F := (a * b) mod p.
Definition f_from_i64 (v : Z) : F := v mod p.

(** Square and multiply, as the field's [pow]. *)
Fixpoint pow_pos_mod (x : Z) (e : positive) : Z :=
  match e with
  | xH => x mod p
  | xO e' => let y := pow_pos_mod x e' in (y * y) mod p
  | xI e' => let y := pow_pos_mod x e' in (y * y * x) mod p
  end.

Definition f_pow (x : F) (e : Z) : F :=
  match e with
  | Zpos e' => pow_pos_mod x e'
  | _ => 1
  end.

(** [invert] by Fermat: [x^(p-2)], none for zero (Rust's [CtOption]). *)
Definition f_invert (x : F) : option F :=
  if x mod p =? 0 then None else Some (f_pow x (p - 2)).

Definition W : Z := 7.

Definition e_zero : E := (0, 0).
Definition e_one : E := (1, 0).
Definition e_from_base (a : F) : E := (a mod p, 0).
Definition e_add (x y : E) : E := (f_add x.1 y.1, f_add x.2 y.2).
Definition e_sub (x y : E) : E := (f_sub x.1 y.1, f_sub x.2 y.2).
Definition e_mul (x y : E) : E :=
  ((x.1 * y.1 + W * x.2 * y.2) mod p, (x.1 * y.2 + x.2 * y.1) mod p).

(** [(a + b u)^-1 = (a - b u) / (a^2 - 7 b^2)]. *)
Definition e_invert (x : E) : option E :=
  match f_invert ((x.1 * x.1 - W * x.2 * x.2) mod p) with
  | None => None
  | Some n => Some ((x.1 * n) mod p, ((- x.2) * n) mod p)
  end.

(** [i64_to_ext]: a small integer as an extension element. *)
Definition i64_to_ext (v : Z) : E := e_from_base (f_from_i64 v).

(** [to_canonical_u64] and [as_bases] mapped to their canonical form. *)
Definition to_canonical_u64 (a : F) : Z := a mod p.
Definition as_bases_canonical (x : E) : list Z := [x.1 mod p; x.2 mod p].

End Goldilocks.

(* ------------------------------------------------------------------ *)
(** ** Expressions *)
(* ------------------------------------------------------------------ *)

Module Expr.

(** The interface of [E: ExtensionField] the expression code relies on:
    base-field constants and their canonical integer form
    ([to_canonical_u64]), the canonical integers of the base coordinates
    of an extension element ([as_bases]), and the extension arithmetic used
    to evaluate an expression. *)
Class ExtensionField (F E : Type) := {
  bf_zero : F;
  bf_one : F;
  bf_add : F -> F -> F;
  bf_mul : F -> F -> F;
  to_canonical_u64 : F -> Z;
  as_bases : E -> list Z;
  bf_eq_dec :: EqDecision F;
  ext_eq_dec :: EqDecision E;
  ext_zero : E;
  ext_one : E;
  ext_add : E -> E -> E;
  ext_mul : E -> E -> E;
  ext_sub : E -> E -> E;
  ext_opp : E -> E;
  ext_from_base : F -> E
}.

(** The field laws the evaluation arguments use: [E] is a commutative
    ring and [F -> E] respects the constants and operations. *)
Class ExtensionFieldLaws (F E : Type) `{ExtensionField F E} : Prop := {
  ext_ring : ring_theory ext_zero ext_one ext_add ext_mul ext_sub ext_opp eq;
  from_base_zero : ext_from_base bf_zero = ext_zero;
  from_base_one : ext_from_base bf_one = ext_one;
  from_base_add : forall a b, ext_from_base (bf_add a b) = ext_add (ext_from_base a) (ext_from_base b);
  from_base_mul : forall a b, ext_from_base (bf_mul a b) = ext_mul (ext_from_base a) (ext_from_base b)
}.

Section Expression.
Context {F E : Type} `{EF : ExtensionField F E}.

(** [enum Expression<E>]: [Fixed(Fixed)], [WitIn(WitnessId)],
    [Constant(E::BaseField)], [Challenge(ChallengeId, usize, E, E)],
    [Sum], [Product], [ScaledSum]. *)
Inductive Expression : Type :=
| Fixed (i : nat)
| WitIn (i : nat)
| Constant (c : F)
| Challenge (id : nat) (pow : nat) (scalar offset : E)
| Sum (a b : Expression)
| Product (a b : Expression)
| ScaledSum (x a b : Expression).

#[global] Instance Expression_eq_dec : EqDecision Expression.
Proof. intros x y. unfold Decision. decide equality; apply (decide (_ = _)). Defined.

(** [Iterator::cmp] on the canonical integers: lexicographic. *)
Fixpoint cmp_list (a b : list Z) : comparison :=
  match a, b with
  | [], [] => Eq
  | [], _ :: _ => Lt
  | _ :: _, [] => Gt
  | x :: a', y :: b' => match Z.compare x y with Eq => cmp_list a' b' | c => c end
  end.

Definition cmp_field (a b : F) : comparison :=
  Z.compare (to_canonical_u64 a) (to_canonical_u64 b).

Definition cmp_ext (a b : E) : comparison := cmp_list (as_bases a) (as_bases b).

(** [impl Ord for Expression]: [cmp], arm by arm. *)
Fixpoint cmp (x y : Expression) : comparison :=
  match x, y with
  | Fixed a, Fixed b => Nat.compare a b
  | WitIn a, WitIn b => Nat.compare a b
  | Constant a, Constant b => cmp_field a b
  | Challenge a b c d, Challenge e f g h =>
      match Nat.compare a e with
      | Eq =>
          match Nat.compare b f with
          | Eq => match cmp_ext c g with Eq => cmp_ext d h | r => r end
          | r => r
          end
      | r => r
      end
  | Sum a b, Sum c d => match cmp a c with Eq => cmp b d | r => r end
  | Product a b, Product c d => match cmp a c with Eq => cmp b d | r => r end
  | ScaledSum x a b, ScaledSum y c d =>
      match cmp x y with
      | Eq => match cmp a c with Eq => cmp b d | r => r end
      | r => r
      end
  | Fixed _, _ => Lt
  | WitIn _, _ => Lt
  | Constant _, _ => Lt
  | Challenge _ _ _ _, _ => Lt
  | Sum _ _, _ => Lt
  | Product _ _, _ => Lt
  | ScaledSum _ _ _, _ => Lt
  end.

(** [PartialOrd::le] derived from [cmp]: [a <= b] unless [Greater]. *)
Definition le (a b : Expression) : bool :=
  match cmp a b with Gt => false | _ => true end.

(** [is_less] of the slice sort. *)
Definition is_less (a b : Expression) : bool :=
  match cmp a b with Lt => true | _ => false end.

(** The variant rank of the order the spec states:
    [Fixed < WitIn < Constant < Challenge < Sum < Product < ScaledSum]. *)
Definition variant_rank (e : Expression) : nat :=
  match e with
  | Fixed _ => 0 | WitIn _ => 1 | Constant _ => 2 | Challenge _ _ _ _ => 3
  | Sum _ _ => 4 | Product _ _ => 5 | ScaledSum _ _ _ => 6
  end%nat.

(* ---------------- canonical form ---------------- *)

(** [canonical_pair], on children already canonicalised. *)
Definition canonical_pair (a b : Expression) : Expression * Expression :=
  if le a b then (a, b) else (b, a).

Fixpoint to_canonical_inner (e : Expression) : Expression :=
  match e with
  | Constant _ | Fixed _ | WitIn _ | Challenge _ _ _ _ => e
  | Sum a b =>
      let '(a', b') := canonical_pair (to_canonical_inner a) (to_canonical_inner b) in
      Sum a' b'
  | Product a b =>
      let '(a', b') := canonical_pair (to_canonical_inner a) (to_canonical_inner b) in
      Product a' b'
  | ScaledSum x a b =>
      (* Do not swap x and a. *)
      ScaledSum (to_canonical_inner x) (to_canonical_inner a) (to_canonical_inner b)
  end.

(* ---------------- monomial form ---------------- *)

(** [Expression::ONE] and [Expression::ZERO]. *)
Definition ONE : Expression := Constant bf_one.
Definition ZERO : Expression := Constant bf_zero.

(** Modelled from the spec: [impl Mul] and [impl Add] for [Expression] are
    in [expression.rs], which is not part of the sources.  The spec says the
    coefficients of two terms multiply and that merged terms add their
    coefficients: two constants fold into one constant, any other pair
    builds the node. *)
Definition expr_mul (a b : Expression) : Expression :=
  match a, b with
  | Constant x, Constant y => Constant (bf_mul x y)
  | _, _ => Product a b
  end.

Definition expr_add (a b : Expression) : Expression :=
  match a, b with
  | Constant x, Constant y => Constant (bf_add x y)
  | _, _ => Sum a b
  end.

(** [struct Term { coeff, vars }]. *)
Record Term : Type := mkTerm { coeff : Expression; vars : list Expression }.

(** The double loop of the [Product] and [ScaledSum] arms of [distribute]:
    for every [a] of the first list, for every [b] of the second. *)
Definition cartesian (xs ys : list Term) : list Term :=
  flat_map (fun x => map (fun y => mkTerm (expr_mul (coeff x) (coeff y)) (vars x ++ vars y)) ys) xs.

Fixpoint distribute (e : Expression) : list Term :=
  match e with
  | Constant _ => [mkTerm e []]
  | Fixed _ | WitIn _ | Challenge _ _ _ _ => [mkTerm ONE [e]]
  | Sum a b => distribute a ++ distribute b
  | Product a b => cartesian (distribute a) (distribute b)
  | ScaledSum x a b => distribute b ++ cartesian (distribute x) (distribute a)
  end.

(** [slice::sort] on a term's variables, on slices of at most 20
    elements: the standard library's stable sort runs
    [insertion_sort_shift_left] there, in every version: each new element
    moves left while it [is_less] than its left neighbour.  The sorted
    prefix is kept reversed, so its last element comes first. *)
Fixpoint insert_tail (x : Expression) (rev_sorted : list Expression) : list Expression :=
  match rev_sorted with
  | [] => [x]
  | y :: ys => if is_less x y then y :: insert_tail x ys else x :: y :: ys
  end.

Definition insertion_sort (l : list Expression) : list Expression :=
  rev (fold_left (fun acc x => insert_tail x acc) l []).

(** [slice::sort] on more than 20 elements: the algorithm is the standard
    library's, which the sources do not pin (driftsort from Rust 1.81 on).
    With an [Ord] that is not a total order, as this one ([cmp] answers
    [Less] both ways across variants), it may panic
    ([panic_on_ord_violation]) or return the elements in an unspecified
    order.  [long_sort] stands for that behaviour: [None] is a panic. *)
Variable long_sort : list Expression -> option (list Expression).

Definition sort (l : list Expression) : option (list Expression) :=
  if Nat.leb (length l) 20 then Some (insertion_sort l) else long_sort l.

(** The loop body of [combine]: the first term of [res] with the same
    variables absorbs the coefficient, otherwise the term is pushed. *)
Fixpoint combine_into (res : list Term) (t : Term) : list Term :=
  match res with
  | [] => [t]
  | r :: rs =>
      if decide (vars r = vars t) then mkTerm (expr_add (coeff r) (coeff t)) (vars r) :: rs
      else r :: combine_into rs t
  end.

(** One iteration of [for mut term in terms]: [term.vars.sort()], which may
    panic, then the merge. *)
Definition combine_step (res : option (list Term)) (t : Term) : option (list Term) :=
  match res with
  | None => None
  | Some res =>
      match sort (vars t) with
      | None => None
      | Some vs => Some (combine_into res (mkTerm (coeff t) vs))
      end
  end.

Definition combine (terms : list Term) : option (list Term) :=
  fold_left combine_step terms (Some []).

(** [Self::product] and [Self::sum]. *)
Definition mk_product (a b : Expression) : Expression := Product a b.
Definition mk_sum (a b : Expression) : Expression := Sum a b.

(** [term.vars.into_iter().fold(term.coeff, Self::product)]. *)
Definition term_expr (t : Term) : Expression := fold_left mk_product (vars t) (coeff t).

(** [.map(..).reduce(Self::sum).unwrap_or(Expression::ZERO)]. *)
Definition sum_terms (terms : list Term) : Expression :=
  match map term_expr terms with
  | [] => ZERO
  | x :: xs => fold_left mk_sum xs x
  end.

Definition to_monomial_form_inner (e : Expression) : option Expression :=
  option_map sum_terms (combine (distribute e)).

(* ---------------- evaluation ---------------- *)

(** Values of the fixed columns, the witness columns and the challenges at
    one row. *)
Record Assignment : Type := mkAssignment {
  fixed_values : nat -> E;
  witness_values : nat -> E;
  challenge_values : nat -> E
}.

Fixpoint ext_pow (x : E) (n : nat) : E :=
  match n with O => ext_one | S n' => ext_mul x (ext_pow x n') end.

(** Modelled from the spec: [eval_by_expr_with_fixed] is in
    [scheme/utils.rs], which is not part of the sources.  A leaf reads its
    column, [Challenge(id, pow, scalar, offset)] is
    [scalar * ch[id]^pow + offset] and [ScaledSum(x, a, b)] is [x * a + b]. *)
Fixpoint eval (asg : Assignment) (e : Expression) : E :=
  match e with
  | Fixed i => fixed_values asg i
  | WitIn i => witness_values asg i
  | Constant c => ext_from_base c
  | Challenge id pow scalar offset =>
      ext_add (ext_mul scalar (ext_pow (challenge_values asg id) pow)) offset
  | Sum a b => ext_add (eval asg a) (eval asg b)
  | Product a b => ext_mul (eval asg a) (eval asg b)
  | ScaledSum x a b => ext_add (ext_mul (eval asg x) (eval asg a)) (eval asg b)
  end.

(* ---------------- shapes ---------------- *)

(** A variable of a monomial: [Fixed], [WitIn] or [Challenge]. *)
Definition is_var (e : Expression) : bool :=
  match e with Fixed _ | WitIn _ | Challenge _ _ _ _ => true | _ => false end.

(** A left-nested [Product] chain: a [Constant] coefficient followed by
    variables. *)
Fixpoint is_product_chain (e : Expression) : bool :=
  match e with
  | Constant _ => true
  | Product a b => is_product_chain a && is_var b
  | _ => false
  end.

(** A left-nested [Sum] chain of product chains. *)
Fixpoint is_sum_of_products (e : Expression) : bool :=
  match e with
  | Sum a b => is_sum_of_products a && is_product_chain b
  | _ => is_product_chain e
  end.

(** The value of a list of distributed terms: the sum of
    [coeff * product of vars] over the terms. *)
Definition prod_eval (asg : Assignment) (vs : list Expression) : E :=
  fold_right (fun v acc => ext_mul (eval asg v) acc) ext_one vs.

Definition term_eval (asg : Assignment) (t : Term) : E :=
  ext_mul (eval asg (coeff t)) (prod_eval asg (vars t)).

Definition sum_eval (asg : Assignment) (ts : list Term) : E :=
  fold_right (fun t acc => ext_add (term_eval asg t) acc) ext_zero ts.

(** A distributed term: a constant coefficient and variables only. *)
Definition term_ok (t : Term) : Prop :=
  (exists c, coeff t = Constant c) /\ Forall (fun v => is_var v = true) (vars t).

(** Every [Sum] and [Product] node has its left child [le] its right
    child. *)
Fixpoint pairs_ordered (e : Expression) : bool :=
  match e with
  | Constant _ | Fixed _ | WitIn _ | Challenge _ _ _ _ => true
  | Sum a b | Product a b => le a b && pairs_ordered a && pairs_ordered b
  | ScaledSum x a b => pairs_ordered x && pairs_ordered a && pairs_ordered b
  end.

End Expression.

Arguments Expression F E : clear implicits.
Arguments Term F E : clear implicits.
Arguments Assignment E : clear implicits.

End Expr.

(** The Goldilocks instance of the expression interface
    ([GoldilocksExt2] over [Goldilocks]). *)
#[global] Instance goldilocks_ext2 : Expr.ExtensionField Goldilocks.F Goldilocks.E := {|
  Expr.bf_zero := 0;
  Expr.bf_one := 1;
  Expr.bf_add := Goldilocks.f_add;
  Expr.bf_mul := Goldilocks.f_mul;
  Expr.to_canonical_u64 := Goldilocks.to_canonical_u64;
  Expr.as_bases := Goldilocks.as_bases_canonical;
  Expr.bf_eq_dec := (_ : EqDecision Z);
  Expr.ext_eq_dec := (_ : EqDecision (Z * Z));
  Expr.ext_zero := Goldilocks.e_zero;
  Expr.ext_one := Goldilocks.e_one;
  Expr.ext_add := Goldilocks.e_add;
  Expr.ext_mul := Goldilocks.e_mul;
  Expr.ext_sub := Goldilocks.e_sub;
  Expr.ext_opp := Goldilocks.e_sub Goldilocks.e_zero;
  Expr.ext_from_base := Goldilocks.e_from_base
|}.

(** The integers as a (characteristic zero) instance of the interface,
    base field and extension alike. *)
Definition int_ext : Expr.ExtensionField Z Z := {|
  Expr.bf_zero := 0;
  Expr.bf_one := 1;
  Expr.bf_add := Z.add;
  Expr.bf_mul := Z.mul;
  Expr.to_canonical_u64 := fun z => z;
  Expr.as_bases := fun z => [z];
  Expr.bf_eq_dec := (_ : EqDecision Z);
  Expr.ext_eq_dec := (_ : EqDecision Z);
  Expr.ext_zero := 0;
  Expr.ext_one := 1;
  Expr.ext_add := Z.add;
  Expr.ext_mul := Z.mul;
  Expr.ext_sub := Z.sub;
  Expr.ext_opp := Z.opp;
  Expr.ext_from_base := fun z => z
|}.

(** The expression [(x + y + a) * b * (y + z) + c] of the scenario S5, with
    [a, b, c] fixed columns and [x, y, z] witness columns. *)
Definition s5_expr {F E : Type} : Expr.Expression F E :=
  Expr.Sum (Expr.Product (Expr.Product (Expr.Sum (Expr.Sum (Expr.WitIn 0) (Expr.WitIn 1)) (Expr.Fixed 0)) (Expr.Fixed 1))
               (Expr.Sum (Expr.WitIn 1) (Expr.WitIn 2)))
      (Expr.Fixed 2).

Definition s5_assignment : Expr.Assignment Z :=
  Expr.mkAssignment (fun i => 11 + Z.of_nat i) (fun i => 3 * Z.of_nat i - 4) (fun _ => 9).

(* ------------------------------------------------------------------ *)
(** ** [LtuInput::assign] *)
(* ------------------------------------------------------------------ *)

Module Ltu.
Import Goldilocks.

(** A witness row, [instance[wit.id]]; a cell never written is [None]
    ([MaybeUninit]).  [set_val!] overwrites one cell. *)
Definition Row := nat -> option E.

Definition set_val (inst : Row) (w : nat) (v : E) : Row :=
  fun k => if Nat.eqb k w then Some v else inst k.

(** [struct LtuConfig], each [WitIn] by its column id. *)
Record LtuConfig : Type := mkLtuConfig {
  indexes : list nat;
  acc_indexes : list nat;
  byte_diff_inv : nat;
  lhs_ne_byte : nat;
  rhs_ne_byte : nat;
  is_ltu : nat
}.

(** [.enumerate()] *)
Definition enumerate {A : Type} (l : list A) : list (nat * A) :=
  List.combine (seq 0 (length l)) l.

(** The first pair of the (reversed) enumeration whose limbs differ. *)
Fixpoint first_ne (xs : list (nat * (Z * Z))) : option nat :=
  match xs with
  | [] => None
  | (i, (l, r)) :: t => if Z.eqb l r then first_ne t else Some i
  end.

(** The loop of [assign]: [idx] and [flag], [(0, false)] when no limb
    differs. *)
Definition scan (lhs rhs : list Z) : nat * bool :=
  match first_ne (rev (enumerate (List.combine lhs rhs))) with
  | Some i => (i, true)
  | None => (0%nat, false)
  end.

(** [b as i64] for a [bool]. *)
Definition b2i (b : bool) : Z := if b then 1 else 0.

(** The closure of the [for_each] over [acc_indexes.iter().enumerate()]. *)
Definition acc_step (idx : nat) (flag : bool) (inst : Row) (iw : nat * nat) : Row :=
  let '(id, wit) := iw in
  if Nat.leb id idx then set_val inst wit (i64_to_ext (b2i flag))
  else set_val inst wit e_zero.

(** [LtuInput::assign]; [None] where the Rust code panics (an index out of
    bounds, or [invert().unwrap()] on zero). *)
Definition assign (inst : Row) (cfg : LtuConfig) (lhs rhs : list Z) : option (Row * bool) :=
  let '(idx, flag) := scan lhs rhs in
  match nth_error (indexes cfg) idx with
  | None => None
  | Some w_idx =>
      let inst := set_val inst w_idx (i64_to_ext (b2i flag)) in
      let inst := fold_left (acc_step idx flag) (enumerate (acc_indexes cfg)) inst in
      match nth_error lhs idx, nth_error rhs idx with
      | Some l, Some r =>
          let lne := i64_to_ext l in
          let rne := i64_to_ext r in
          let inst := set_val inst (lhs_ne_byte cfg) lne in
          let inst := set_val inst (rhs_ne_byte cfg) rne in
          match (if flag then e_invert (e_sub lne rne) else Some e_one) with
          | None => None
          | Some inv =>
              let inst := set_val inst (byte_diff_inv cfg) inv in
              let lt := Z.ltb l r in
              let inst := set_val inst (is_ltu cfg) (i64_to_ext (b2i lt)) in
              Some (inst, lt)
          end
      | _, _ => None
      end
  end.

(** The value of little-endian byte limbs (limb [n-1] is the most
    significant one). *)
Fixpoint limbs_value (l : list Z) : Z :=
  match l with
  | [] => 0
  | b :: t => b + 256 * limbs_value t
  end.

Definition is_byte (b : Z) : Prop := 0 <= b < 256.

(** All column ids of a configuration. *)
Definition config_ids (cfg : LtuConfig) : list nat :=
  indexes cfg ++ acc_indexes cfg ++
  [byte_diff_inv cfg; lhs_ne_byte cfg; rhs_ne_byte cfg; is_ltu cfg].

(** A check that every nonzero difference of two bytes, as an extension
    element, has an inverse: [e_invert] succeeds and the product is one. *)
Definition inv_check (d : Z) : bool :=
  match e_invert (e_sub (i64_to_ext d) (i64_to_ext 0)) with
  | Some inv =>
      let pr := e_mul (e_sub (i64_to_ext d) (i64_to_ext 0)) inv in
      (pr.1 =? 1) && (pr.2 =? 0)
  | None => false
  end.

(** [idx] is the most significant limb where the operands differ. *)
Definition top_diff (lhs rhs : list Z) (idx : nat) : Prop :=
  (idx < length lhs)%nat /\ nth idx lhs 0 <> nth idx rhs 0 /\
  forall j, (idx < j < length lhs)%nat -> nth j lhs 0 = nth j rhs 0.

(** A configuration with the column ids [0..11], and two operands of four
    limbs that first differ (from the top) at limb 1. *)
Definition example_cfg : LtuConfig :=
  mkLtuConfig [0; 1; 2; 3]%nat [4; 5; 6; 7]%nat 8%nat 9%nat 10%nat 11%nat.
Definition example_row : Row := fun _ => None.
Definition example_lhs : list Z := [1; 2; 3; 4].
Definition example_rhs : list Z := [1; 5; 3; 4].

End Ltu.

(* ------------------------------------------------------------------ *)
(** ** [MockProver::run_maybe_challenge] *)
(* ------------------------------------------------------------------ *)

Module Mock.
Import Expr.

(** [enum ROMType], in the order of [ROMType::iter()]. *)
Inductive ROMType : Type := U5 | U8 | U14 | U16 | And | Or | Xor | Ltu | Pow | Instruction.

#[global] Instance ROMType_eq_dec : EqDecision ROMType.
Proof. intros x y. unfold Decision. decide equality. Defined.

Definition rom_types : list ROMType := [U5; U8; U14; U16; And; Or; Xor; Ltu; Pow; Instruction].

(** [str::contains]. *)
Fixpoint contains (needle hay : string) : bool :=
  String.prefix needle hay ||
  match hay with
  | EmptyString => false
  | String _ t => contains needle t
  end.

Section MockProver.
Context {F E : Type} `{EF : ExtensionField F E}.

(** [enum MockProverError]. *)
Inductive MockProverError : Type :=
| AssertZeroError (expression : Expression F E) (evaluated : F) (name : string) (inst_id : nat)
| AssertEqualError (left_expression right_expression : Expression F E) (left right : F)
    (name : string) (inst_id : nat)
| LookupError (expression : Expression F E) (evaluated : E) (name : string) (inst_id : nat)
| LkMultiplicityError (rom_type : ROMType) (key : Z) (count : Z) (inst_id : nat).

Inductive MockResult : Type :=
| Ok
| Err (errors : list MockProverError).

(** Modelled from the spec: [Expression::unpack_sum] ([expression.rs], not
    in the sources) gives the two children of a [Sum] root. *)
Definition unpack_sum (e : Expression F E) : option (Expression F E * Expression F E) :=
  match e with Sum a b => Some (a, b) | _ => None end.

(** The collaborators of the check, not in the sources: [wit_infer_by_expr]
    read as base-field values ([get_base_field_vec]) and as extension values
    ([get_ext_field_vec]), one per row; [Neg] on expressions; membership in
    the loaded tables of a [to_canonical_u64_vec]. *)
Variable wit_infer : Expression F E -> list F.
Variable wit_infer_ext : Expression F E -> list E.
Variable neg : Expression F E -> Expression F E.
Variable table_contains : list Z -> bool.

(** One zero-checked expression with its name. *)
Definition check_zero (en : Expression F E * string) : list MockProverError :=
  let '(expr, name) := en in
  match (if contains "require_equal" name then unpack_sum expr else None) with
  | Some (lhs, rhs) =>
      let rhs := neg rhs in
      flat_map
        (fun ilr : nat * (F * F) =>
           let '(inst_id, (l, r)) := ilr in
           if decide (l = r) then [] else [AssertEqualError lhs rhs l r name inst_id])
        (Ltu.enumerate (List.combine (wit_infer lhs) (wit_infer rhs)))
  | None =>
      flat_map
        (fun iv : nat * F =>
           let '(inst_id, v) := iv in
           if decide (v = bf_zero) then [] else [AssertZeroError expr v name inst_id])
        (Ltu.enumerate (wit_infer expr))
  end.

(** One lookup expression with its name. *)
Definition check_lookup (en : Expression F E * string) : list MockProverError :=
  let '(expr, name) := en in
  flat_map
    (fun iv : nat * E =>
       let '(inst_id, v) := iv in
       if table_contains (as_bases v) then [] else [LookupError expr v name inst_id])
    (Ltu.enumerate (wit_infer_ext expr)).

(** [into_finalize_result]: one [HashMap<u64, usize>] per [ROMType]. *)
Definition Lkm := ROMType -> gmap Z nat.

(** The comparison of one [ROMType]'s maps. *)
Definition check_lkm (rom : ROMType) (cs_map ass_map : gmap Z nat) : list MockProverError :=
  if decide (cs_map = ass_map) then [] else
  let cs_keys : gset Z := dom cs_map in
  let ass_keys : gset Z := dom ass_map in
  map (fun k => LkMultiplicityError rom k (Z.of_nat (default 0%nat (ass_map !! k))) 0)
      (elements (ass_keys ∖ cs_keys)) ++
  map (fun k => LkMultiplicityError rom k (- Z.of_nat (default 0%nat (cs_map !! k))) 0)
      (elements (cs_keys ∖ ass_keys)) ++
  flat_map
    (fun k =>
       let count_cs := default 0%nat (cs_map !! k) in
       let count_ass := default 0%nat (ass_map !! k) in
       if decide (count_cs = count_ass) then []
       else [LkMultiplicityError rom k (Z.of_nat count_ass - Z.of_nat count_cs) 0])
    (elements (cs_keys ∩ ass_keys)).

(** All violations, in the order the Rust code pushes them. *)
Definition collect_errors (zero_exprs lk_exprs : list (Expression F E * string))
    (lkm_from_cs : Lkm) (lkm : option Lkm) : list MockProverError :=
  flat_map check_zero zero_exprs ++
  flat_map check_lookup lk_exprs ++
  match lkm with
  | Some lkm_from_assignment =>
      flat_map (fun rom => check_lkm rom (lkm_from_cs rom) (lkm_from_assignment rom)) rom_types
  | None => []
  end.

(** [run_maybe_challenge]: [zero_exprs] is [assert_zero_expressions]
    chained with [assert_zero_sumcheck_expressions], zipped with their
    names; [lkm_from_cs] the multiplicities derived from the constraint
    system. *)
Definition run_maybe_challenge (zero_exprs lk_exprs : list (Expression F E * string))
    (lkm_from_cs : Lkm) (lkm : option Lkm) : MockResult :=
  match collect_errors zero_exprs lk_exprs lkm_from_cs lkm with
  | [] => Ok
  | errors => Err errors
  end.

(** The violations as the spec lists them. *)
Inductive violation (zero_exprs lk_exprs : list (Expression F E * string))
    (lkm_from_cs : Lkm) (lkm : option Lkm) : MockProverError -> Prop :=
| v_assert_zero expr name i v :
    In (expr, name) zero_exprs ->
    ~ (contains "require_equal" name = true /\ unpack_sum expr <> None) ->
    nth_error (wit_infer expr) i = Some v -> v <> bf_zero ->
    violation zero_exprs lk_exprs lkm_from_cs lkm (AssertZeroError expr v name i)
| v_assert_equal lhs rhs name i lv rv :
    In (Sum lhs rhs, name) zero_exprs ->
    contains "require_equal" name = true ->
    nth_error (wit_infer lhs) i = Some lv ->
    nth_error (wit_infer (neg rhs)) i = Some rv -> lv <> rv ->
    violation zero_exprs lk_exprs lkm_from_cs lkm (AssertEqualError lhs (neg rhs) lv rv name i)
| v_lookup expr name i v :
    In (expr, name) lk_exprs ->
    nth_error (wit_infer_ext expr) i = Some v -> table_contains (as_bases v) = false ->
    violation zero_exprs lk_exprs lkm_from_cs lkm (LookupError expr v name i)
| v_lkm ass rom k :
    lkm = Some ass ->
    lkm_from_cs rom !! k <> ass rom !! k ->
    violation zero_exprs lk_exprs lkm_from_cs lkm
      (LkMultiplicityError rom k
         (Z.of_nat (default 0%nat (ass rom !! k)) - Z.of_nat (default 0%nat (lkm_from_cs rom !! k))) 0).

End MockProver.

(** A run over the integers with one zero-checked witness column that is
    nonzero at rows 1 and 3, no lookups, and no recorded multiplicities. *)
Definition example_zero_exprs : list (Expression Z Z * string) :=
  [(WitIn 0%nat, "c0"%string)].
Definition example_wit_infer (_ : Expression Z Z) : list Z := [0; 3; 0; 5].
Definition example_run : MockResult :=
  @run_maybe_challenge Z Z int_ext example_wit_infer (fun _ => []) (fun e => e)
    (fun _ => true) example_zero_exprs [] (fun _ => ∅) None.
Definition example_errors : list (@MockProverError Z Z) :=
  [AssertZeroError (WitIn 0%nat) 3 "c0" 1; AssertZeroError (WitIn 0%nat) 5 "c0" 3].

End Mock.

(* ------------------------------------------------------------------ *)
(** ** Query indices of [query_phase] *)
(* ------------------------------------------------------------------ *)

Module Query.

(** Modelled from the spec: [PrimeField::to_repr] (field crate, not in the
    sources) is the byte encoding of the canonical integer; both byte
    orders of an 8-byte encoding. *)
Definition repr_le (x : Z) : list Z :=
  map (fun i => (x / 256 ^ Z.of_nat i) mod 256) (seq 0 8).

Definition repr_be (x : Z) : list Z := rev (repr_le x).

(** [u32::from_be_bytes]. *)
Definition u32_from_be_bytes (b : list Z) : Z :=
  fold_left (fun acc byte => acc * 256 + byte) b 0.

(** The index computed in [query_phase] from a squeezed challenge:
    [x.to_repr()] split at [size_of::<u32>()], read big-endian, reduced
    modulo [comm.codeword_size()]. *)
Definition query_index (to_repr : Z -> list Z) (codeword_size : Z) (x : Z) : Z :=
  u32_from_be_bytes (firstn 4 (to_repr x)) mod codeword_size.

Definition query_indices (to_repr : Z -> list Z) (codeword_size : Z) (xs : list Z) : list Z :=
  map (query_index to_repr codeword_size) xs.

(** The byte swap of a 32-bit word. *)
Definition bswap32 (w : Z) : Z :=
  (w mod 256) * 2 ^ 24 + ((w / 2 ^ 8) mod 256) * 2 ^ 16 +
  ((w / 2 ^ 16) mod 256) * 2 ^ 8 + (w / 2 ^ 24) mod 256.

End Query.

(* ------------------------------------------------------------------ *)
(** ** The foldable code of the BaseFold commitment *)
(* ------------------------------------------------------------------ *)

(** The encoding and the codeword folding of
    [mpcs/src/multilinear/basefold.rs] and [mpcs/src/basefold/encoding.rs],
    over any field. *)
Module Foldable.
Local Open Scope nat_scope.

(** The field operations the code uses ([ff::PrimeField]); [finv] is the
    inverse that [BatchInverter] computes for each entry. *)
Class PrimeField (F : Type) := {
  fzero : F; fone : F;
  fadd : F -> F -> F; fmul : F -> F -> F; fsub : F -> F -> F;
  fneg : F -> F; finv : F -> F
}.

Section Code.
Context {F : Type} `{PrimeField F}.

(** Modelled from the spec: [log2_strict] (plonky2, not in the sources)
    returns the exponent of a power of two and panics ([None]) otherwise. *)
Definition log2_strict (n : nat) : option nat :=
  let r := Nat.log2 n in if Nat.eqb (2 ^ r) n then Some r else None.

(** Modelled from the spec: [reverse_bits] of [util::plonky2_util] (not in
    the sources), the [n]-bit reversal of an index, least significant bit
    first. *)
Fixpoint reverse_bits (n i : nat) : nat :=
  match n with
  | 0 => 0
  | S n' => (i mod 2) * 2 ^ n' + reverse_bits n' (i / 2)
  end.

(** Modelled from the spec: [reverse_index_bits_in_place] (not in the
    sources), the permutation [v'[i] = v[reverse_bits n i]] of a vector of
    length [2^n]. *)
Definition reverse_index_bits {A : Type} (d : A) (v : list A) : list A :=
  let n := Nat.log2 (length v) in
  map (fun i => nth (reverse_bits n i) v d) (seq 0 (length v)).

(** [par_chunks_mut(n)] / [chunks(n)]: consecutive slices of length [n],
    the last one possibly shorter. *)
Fixpoint chunks_fuel {A : Type} (fuel n : nat) (l : list A) : list (list A) :=
  match fuel with
  | 0 => []
  | S f => match l with [] => [] | _ :: _ => firstn n l :: chunks_fuel f n (skipn n l) end
  end.

Definition chunks {A : Type} (n : nat) (l : list A) : list (list A) :=
  chunks_fuel (length l) n l.

(** [par_chunks_exact(n)]: the slices of length exactly [n]. *)
Definition chunks_exact {A : Type} (n : nat) (l : list A) : list (list A) :=
  firstn (length l / n) (chunks n l).

(** [par_chunks_exact(2)] read as pairs. *)
Fixpoint pairs {A : Type} (l : list A) : list (A * A) :=
  match l with a :: b :: r => (a, b) :: pairs r | _ => [] end.

(** [zip] followed by [map]. *)
Fixpoint map2 {A B C : Type} (f : A -> B -> C) (l : list A) (l' : list B) : list C :=
  match l, l' with a :: r, b :: r' => f a b :: map2 f r r' | _, _ => [] end.

(** [map] and [collect] over a closure that may panic ([None]). *)
Fixpoint map_option {A B : Type} (f : A -> option B) (l : list A) : option (list B) :=
  match l with
  | [] => Some []
  | a :: r =>
      match f a with
      | Some b => match map_option f r with Some bs => Some (b :: bs) | None => None end
      | None => None
      end
  end.

(** Modelled from the spec: [util::arithmetic::steps] (not in the sources),
    [start, start + 1, start + 2, ...], taken [n] times. *)
Fixpoint steps (start : F) (n : nat) : list F :=
  match n with 0 => [] | S n' => start :: steps (fadd start fone) n' end.

(** Modelled from the spec: [util::arithmetic::horner] (not in the sources),
    [coeffs[0] + x * (coeffs[1] + x * (...))]. *)
Definition horner (coeffs : list F) (x : F) : F :=
  fold_right (fun c acc => fadd (fmul acc x) c) fzero coeffs.

(** [encode_rs_basecode]: each message block of [message_size] coefficients
    evaluated on the domain [1, 2, ..., message_size * rate]. *)
Definition encode_rs_basecode (poly : list F) (rate message_size : nat) : list (list F) :=
  let domain := steps fone (message_size * rate) in
  map (fun chunk => map (fun x => horner chunk x) domain) (chunks_exact message_size poly).

(** The inner loop over [j in half_chunk..chunk_size] on one chunk:
    [left = a + b * t], [right = a - b * t]. Each [j] writes [chunk[j]] and
    [chunk[j - half_chunk]] only, from their values before the loop. *)
Definition butterfly (level : list F) (half_chunk : nat) (chunk : list F) : list F :=
  let a := firstn half_chunk chunk in
  let rhs := map2 fmul (skipn half_chunk chunk) level in
  map2 fadd a rhs ++ map2 fsub a rhs.

(** One iteration of [for i in base_log_k..logk]; the state is the codeword
    and [chunk_size]. [table[i + log_rate]] out of range and the failed
    [assert_eq!] are the panics ([None]). *)
Definition fold_level (log_rate : nat) (table : list (list F))
    (st : option (list F * nat)) (i : nat) : option (list F * nat) :=
  match st with
  | None => None
  | Some (coeffs_with_bc, chunk_size) =>
      let level := nth (i + log_rate) table [] in
      let chunk_size := chunk_size * 2 in
      if Nat.eqb (length level) (chunk_size / 2) then
        Some (concat (map (butterfly level (chunk_size / 2)) (chunks chunk_size coeffs_with_bc)),
              chunk_size)
      else None
  end.

(** [evaluate_over_foldable_domain_generic_basecode]. *)
Definition evaluate_over_foldable_domain_generic_basecode
    (base_message_length num_coeffs log_rate : nat)
    (base_codewords : list (list F)) (table : list (list F)) : option (list F) :=
  match log2_strict num_coeffs, log2_strict base_message_length, base_codewords with
  | Some logk, Some base_log_k, bc0 :: _ =>
      option_map fst
        (fold_left (fold_level log_rate table) (seq base_log_k (logk - base_log_k))
           (Some (concat base_codewords, length bc0)))
  | _, _, _ => None
  end.

(** The codeword [Basefold::commit] computes from the coefficients, before its
    bit reversal: [encode_rs_basecode] with [1 << log_rate] and
    [1 << get_basecode()], then the foldable-domain evaluation. *)
Definition commit_codeword (log_rate basecode : nat) (table : list (list F)) (coeffs : list F)
    : option (list F) :=
  evaluate_over_foldable_domain_generic_basecode (2 ^ basecode) (length coeffs) log_rate
    (encode_rs_basecode coeffs (2 ^ log_rate) (2 ^ basecode)) table.

(** [interpolate2_weights]: [a1 + (x - a0) * (b1 - a1) * weight]. *)
Definition interpolate2_weights (points : (F * F) * (F * F)) (weight x : F) : F :=
  let '((a0, a1), (b0, b1)) := points in
  fadd a1 (fmul (fmul (fsub x a0) (fsub b1 a1)) weight).

(** [basefold_one_round_by_interpolation_weights]: the pair [(ys[0], ys[1])]
    at position [i] interpolated between [(x, ys[0])] and [(-x, ys[1])], with
    [(x, weight) = table[level_index][i]]. *)
Definition basefold_one_round_by_interpolation_weights (table : list (list (F * F)))
    (level_index : nat) (values : list F) (challenge : F) : option (list F) :=
  match nth_error table level_index with
  | None => None
  | Some level =>
      map_option
        (fun '(i, (y0, y1)) =>
           match nth_error level i with
           | Some (x, w) => Some (interpolate2_weights ((x, y0), (fneg x, y1)) w challenge)
           | None => None
           end)
        (Ltu.enumerate (pairs values))
  end.

(** [EncodingScheme::fold_bitreversed_message]. *)
Definition fold_bitreversed_message (message_need_bit_reversion : bool) (msg : list F)
    (challenge : F) : list F :=
  if message_need_bit_reversion then
    map (fun '(y0, y1) => fadd y0 (fmul y1 challenge)) (pairs msg)
  else
    map (fun i => fadd (fmul challenge (nth (length msg / 2 + i) msg fzero)) (nth i msg fzero))
      (seq 0 (length msg / 2)).

(** The slices of [get_table_aes]: [0..2] for level 0, [2^i..2^(i+1)]
    otherwise. *)
Definition table_slice {A : Type} (l : list A) (i : nat) : list A :=
  if Nat.eqb i 0 then firstn 2 l else firstn (2 ^ i) (skipn (2 ^ i) l).

(** The end of [get_table_aes], from the field elements read off the AES
    keystream: the weights [1 / (0 - x - x)], the levels of [table], and the
    bit-reversed levels of [table_w_weights]. *)
Definition unflatten_tables (lg_n : nat) (flat_table : list F)
    : list (list (F * F)) * list (list F) :=
  let weights := map (fun el => finv (fsub (fsub fzero el) el)) flat_table in
  let flat_table_w_weights := List.combine flat_table weights in
  (map (fun i => reverse_index_bits (fzero, fzero) (table_slice flat_table_w_weights i))
       (seq 0 lg_n),
   map (fun i => table_slice flat_table i) (seq 0 lg_n)).

(** The body of [for i in base_log_k..logk] as a function of the codeword,
    for a given [level] and [half_chunk]. *)
Definition level_step (level : list F) (half_chunk : nat) (v : list F) : list F :=
  concat (map (butterfly level half_chunk) (chunks (half_chunk * 2) v)).

(** The iterations [i = s .. s + n - 1] of that loop. *)
Definition levels (log_rate : nat) (table : list (list F)) (s n : nat) (v : list F) : list F :=
  fold_left (fun v i => level_step (nth (i + log_rate) table []) (2 ^ (i + log_rate)) v)
    (seq s n) v.

(** [z = x + alpha * y], position by position. *)
Definition lin_comb (alpha : F) (x y z : list F) : Prop :=
  length y = length x /\ length z = length x /\
  forall j, nth j z fzero = fadd (nth j x fzero) (fmul alpha (nth j y fzero)).

End Code.
End Foldable.

(** The prime field with five elements, a small [PrimeField]. *)
Module GF5.
Import Foldable.
Local Open Scope nat_scope.

Inductive gf5 := G0 | G1 | G2 | G3 | G4.

Definition to_nat (x : gf5) : nat :=
  match x with G0 => 0 | G1 => 1 | G2 => 2 | G3 => 3 | G4 => 4 end.

Definition of_nat (n : nat) : gf5 :=
  match n mod 5 with 0 => G0 | 1 => G1 | 2 => G2 | 3 => G3 | _ => G4 end.

#[global] Instance gf5_field : PrimeField gf5 := {|
  fzero := G0;
  fone := G1;
  fadd x y := of_nat (to_nat x + to_nat y);
  fmul x y := of_nat (to_nat x * to_nat y);
  fsub x y := of_nat (to_nat x + (5 - to_nat y));
  fneg x := of_nat (5 - to_nat x);
  finv x := of_nat (to_nat x ^ 3)
|}.

Definition example_flat_table : list gf5 := [G1; G2; G3; G4; G1; G2; G3; G4].
Definition example_msg : list gf5 := [G1; G2; G3; G4].

#[global] Instance gf5_eq_dec : EqDecision gf5.
Proof. solve_decision. Defined.

End GF5.

(* ------------------------------------------------------------------ *)
(** ** [MsbInput::assign] and [LtInput::assign] *)
(* ------------------------------------------------------------------ *)

Module Lt.
Import Goldilocks Ltu.

(** [struct MsbConfig], each [WitIn] by its column id. *)
Record MsbConfig : Type := mkMsbConfig { msb : nat; high_limb_no_msb : nat }.

(** [MsbInput::assign]: the top bit of the last limb and the last limb
    without it; [None] where [assert!(n_limbs > 0)] fails. *)
Definition msb_assign (inst : Row) (config : MsbConfig) (limbs : list Z)
    : option (Row * (Z * Z)) :=
  let n_limbs := length limbs in
  if Nat.eqb n_limbs 0 then None else
  let high_limb := nth (n_limbs - 1) limbs 0 in
  let msb_v := Z.land (Z.shiftr high_limb 7) 1 in
  let inst := set_val inst (msb config) (i64_to_ext msb_v) in
  let high_limb := Z.land high_limb 127 in
  let inst := set_val inst (high_limb_no_msb config) (i64_to_ext high_limb) in
  Some (inst, (msb_v, high_limb)).

(** [struct LtConfig]. *)
Record LtConfig : Type := mkLtConfig {
  lhs_msb : MsbConfig;
  rhs_msb : MsbConfig;
  msb_is_equal : nat;
  msb_diff_inv : nat;
  is_ltu : LtuConfig;
  is_lt : nat
}.

(** [v[i] = x] on a [Vec]: [None] (a panic) out of bounds. *)
Definition vec_set (l : list Z) (i : nat) (x : Z) : option (list Z) :=
  if Nat.ltb i (length l) then Some (<[i := x]> l) else None.

(** [LtInput::assign].  The [u8] arithmetic of [is_lt] works on bits, so
    it neither wraps nor overflows. *)
Definition lt_assign (inst : Row) (config : LtConfig) (lhs_limbs rhs_limbs : list Z)
    : option (Row * bool) :=
  let n_limbs := length lhs_limbs in
  match msb_assign inst (lhs_msb config) lhs_limbs with
  | None => None
  | Some (inst, (lhs_msb_v, lhs_high_limb_no_msb)) =>
  match msb_assign inst (rhs_msb config) rhs_limbs with
  | None => None
  | Some (inst, (rhs_msb_v, rhs_high_limb_no_msb)) =>
  match vec_set lhs_limbs (n_limbs - 1) lhs_high_limb_no_msb,
        vec_set rhs_limbs (n_limbs - 1) rhs_high_limb_no_msb with
  | Some lhs_limbs_no_msb, Some rhs_limbs_no_msb =>
      match assign inst (is_ltu config) lhs_limbs_no_msb rhs_limbs_no_msb with
      | None => None
      | Some (inst, is_ltu_v) =>
          let msb_is_equal_v := Z.eqb lhs_msb_v rhs_msb_v in
          let msb_diff_inv_v := if msb_is_equal_v then 0 else lhs_msb_v - rhs_msb_v in
          let inst := set_val inst (msb_is_equal config) (i64_to_ext (b2i msb_is_equal_v)) in
          let inst := set_val inst (msb_diff_inv config) (i64_to_ext msb_diff_inv_v) in
          let is_lt_v := lhs_msb_v * (1 - rhs_msb_v) + b2i msb_is_equal_v * b2i is_ltu_v in
          let inst := set_val inst (is_lt config) (i64_to_ext is_lt_v) in
          if (is_lt_v =? 0) || (is_lt_v =? 1) then Some (inst, 0 <? is_lt_v) else None
      end
  | _, _ => None
  end
  end
  end.

(** The two's complement value of little-endian byte limbs. *)
Definition signed_value (l : list Z) : Z :=
  let v := limbs_value l in
  if v <? 2 ^ (8 * Z.of_nat (length l) - 1) then v else v - 2 ^ (8 * Z.of_nat (length l)).

(** A configuration with distinct column ids, and two 4-limb operands,
    [-2] and [3]. *)
Definition example_lt_cfg : LtConfig :=
  mkLtConfig (mkMsbConfig 12 13) (mkMsbConfig 14 15) 16 17 example_cfg 18.
Definition example_lt_lhs : list Z := [254; 255; 255; 255].
Definition example_lt_rhs : list Z := [3; 0; 0; 0].

End Lt.

(* ------------------------------------------------------------------ *)
(** ** The sum-check helpers and the boolean hypercube of BaseFold *)
(* ------------------------------------------------------------------ *)

Module Sumcheck.
Import Foldable.
Local Open Scope nat_scope.

Section Code.
Context {F : Type} `{PrimeField F}.

(** [one_level_interp_hc]: [chunk[1] = chunk[1] - chunk[0]] on each
    chunk of two; a chunk of one element panics. *)
Definition one_level_interp_hc (evals : list F) : option (list F) :=
  if Nat.eqb (length evals) 1 then Some evals else
  option_map (fun cs => concat cs)
    (map_option (fun chunk => match chunk with [c0; c1] => Some [c0; fsub c1 c0] | _ => None end)
       (chunks 2 evals)).

(** [Vec::retain] with the index counter: the elements at odd positions. *)
Definition retain_odd (l : list F) : list F :=
  map snd (filter (fun p => Nat.odd (fst p)) (Ltu.enumerate l)).

(** [one_level_eval_hc]: [chunk[1] = chunk[0] + challenge * chunk[1]],
    then every other element is dropped. *)
Definition one_level_eval_hc (evals : list F) (challenge : F) : option (list F) :=
  option_map (fun cs => retain_odd (concat cs))
    (map_option (fun chunk => match chunk with
                              | [c0; c1] => Some [c0; fadd c0 (fmul challenge c1)]
                              | _ => None end)
       (chunks 2 evals)).

(** [Iterator::sum] of field elements. *)
Definition fsum (l : list F) : F := fold_right fadd fzero l.

(** [evals[i] * eq[j]], [None] out of bounds. *)
Definition mul_at (evals eq : list F) (i j : nat) : option F :=
  match nth_error evals i, nth_error eq j with
  | Some a, Some b => Some (fmul a b)
  | _, _ => None
  end.

(** [parallel_pi]: the three coefficients of the sum of the products of the
    linear pieces [(evals[i], evals[i+1])] and [(eq[i], eq[i+1])]. *)
Definition parallel_pi (evals eq : list F) : option (list F) :=
  match evals with
  | [e0] => Some [e0; e0; e0]
  | _ =>
      let idx := seq 0 (length evals) in
      let firsts := map_option (fun i => if Nat.even i then mul_at evals eq i i else Some fzero) idx in
      let seconds := map_option (fun i =>
          if Nat.even i then
            match mul_at evals eq (i + 1) i, mul_at evals eq i (i + 1) with
            | Some a, Some b => Some (fadd a b)
            | _, _ => None
            end
          else Some fzero) idx in
      let thirds := map_option (fun i =>
          if Nat.even i then mul_at evals eq (i + 1) (i + 1) else Some fzero) idx in
      match firsts, seconds, thirds with
      | Some f, Some s, Some t => Some [fsum f; fsum s; fsum t]
      | _, _, _ => None
      end
  end.

(** [sum_check_first_round]: the updated [eq] and [bh_values] (both
    mutated in place) and the message. *)
Definition sum_check_first_round (eq bh_values : list F) : option (list F * list F * list F) :=
  match one_level_interp_hc eq, one_level_interp_hc bh_values with
  | Some eq, Some bh_values =>
      match parallel_pi bh_values eq with
      | Some m => Some (eq, bh_values, m)
      | None => None
      end
  | _, _ => None
  end.

(** [sum_check_challenge_round]. *)
Definition sum_check_challenge_round (eq bh_values : list F) (challenge : F)
    : option (list F * list F * list F) :=
  match one_level_eval_hc bh_values challenge, one_level_eval_hc eq challenge with
  | Some bh_values, Some eq => sum_check_first_round eq bh_values
  | _, _ => None
  end.

(** [sum_check_last_round]. *)
Definition sum_check_last_round (eq bh_values : list F) (challenge : F)
    : option (list F * list F) :=
  match one_level_eval_hc bh_values challenge, one_level_eval_hc eq challenge with
  | Some bh_values, Some eq => Some (eq, bh_values)
  | _, _ => None
  end.

(** The sum-check part of the loop of [commit_phase], one challenge per
    round: a message after every round but the last, and the final
    [eq] and [running_evals]. *)
Fixpoint sumcheck_rounds (eq bh_values : list F) (challenges : list F)
    : option (list (list F) * list F * list F) :=
  match challenges with
  | [] => Some ([], eq, bh_values)
  | [r] =>
      match sum_check_last_round eq bh_values r with
      | Some (eq, bh_values) => Some ([], eq, bh_values)
      | None => None
      end
  | r :: rs =>
      match sum_check_challenge_round eq bh_values r with
      | Some (eq, bh_values, m) =>
          match sumcheck_rounds eq bh_values rs with
          | Some (ms, eq, bh_values) => Some (m :: ms, eq, bh_values)
          | None => None
          end
      | None => None
      end
  end.

(** The messages [commit_phase] writes: the first round's, then one per
    round but the last. *)
Definition sumcheck_prover (eq bh_values : list F) (challenges : list F)
    : option (list (list F) * list F * list F) :=
  match sum_check_first_round eq bh_values with
  | None => None
  | Some (eq, bh_values, m0) =>
      match sumcheck_rounds eq bh_values challenges with
      | Some (ms, eq, bh_values) => Some (m0 :: ms, eq, bh_values)
      | None => None
      end
  end.

(** [degree_2_zero_plus_one]: [p(0) + p(1)]; [None] on a short vector. *)
Definition degree_2_zero_plus_one (poly : list F) : option F :=
  match poly with
  | p0 :: p1 :: p2 :: _ => Some (fadd (fadd (fadd p0 p0) p1) p2)
  | _ => None
  end.

(** [degree_2_eval]. *)
Definition degree_2_eval (poly : list F) (point : F) : option F :=
  match poly with
  | p0 :: p1 :: p2 :: _ => Some (fadd (fadd p0 (fmul point p1)) (fmul (fmul point point) p2))
  | _ => None
  end.

(** The inner product [sum_i a[i] * b[i]]. *)
Definition dot (a b : list F) : F := fsum (map2 fmul a b).

(** The first loop of [interpolate_over_boolean_hypercube], on the pairs
    [(j, j + 1)]: [coeffs[j + 1] = evals[j + 1] - evals[j]],
    [coeffs[j] = evals[j]]; an unpaired last element panics. *)
Definition hc_first_pass (evals : list F) : option (list F) :=
  option_map (fun cs => concat cs)
    (map_option (fun chunk => match chunk with [e0; e1] => Some [e0; fsub e1 e0] | _ => None end)
       (chunks 2 evals)).

(** The inner loop [for j in half_chunk..chunk_size] on one chunk: each
    [chunk[j]] minus [chunk[j - half_chunk]], which the loop does not
    change; a short chunk panics. *)
Definition hc_chunk (half_chunk : nat) (chunk : list F) : option (list F) :=
  if Nat.eqb (length chunk) (half_chunk * 2) then
    Some (firstn half_chunk chunk ++ map2 fsub (skipn half_chunk chunk) (firstn half_chunk chunk))
  else None.

(** One iteration of [for i in 2..n + 1]. *)
Definition hc_level (coeffs : option (list F)) (i : nat) : option (list F) :=
  match coeffs with
  | None => None
  | Some coeffs =>
      let chunk_size := 2 ^ i in
      option_map (fun cs => concat cs) (map_option (hc_chunk (chunk_size / 2)) (chunks chunk_size coeffs))
  end.

(** [interpolate_over_boolean_hypercube]. *)
Definition interpolate_over_boolean_hypercube (evals : list F) : option (list F) :=
  match log2_strict (length evals) with
  | None => None
  | Some n => fold_left hc_level (seq 2 (n - 1)) (hc_first_pass evals)
  end.

(** The subsets of the bits of [x]: [s] with [s AND x = s]. *)
Definition subset_sum (n : nat) (coeffs : list F) (x : nat) : F :=
  fsum (map (fun s => if Nat.eqb (Nat.land s x) s then nth s coeffs fzero else fzero)
            (seq 0 (2 ^ n))).

(** A table with its first variable fixed to [r]: the pair [(a, b)] of
    each two neighbours becomes [a + r (b - a)]; the tables of the
    sum-check rounds are stated with it. *)
Definition fix_first (r : F) (l : list F) : list F :=
  map (fun p => fadd (fst p) (fmul r (fsub (snd p) (fst p)))) (pairs l).

End Code.
End Sumcheck.

(* ------------------------------------------------------------------ *)
(** ** Further pieces of [mpcs/src/multilinear/basefold.rs] *)
(* ------------------------------------------------------------------ *)

Module BasefoldMisc.
Import Foldable.
Local Open Scope nat_scope.

Section Code.
Context {F : Type} `{PrimeField F} `{EqDecision F}.

(** [interpolate2]: [None] where [assert_ne!(a0, b0)] fails; the inverse
    of the nonzero [b0 - a0] is [finv]. *)
Definition interpolate2 (points : (F * F) * (F * F)) (x : F) : option F :=
  let '((a0, a1), (b0, b1)) := points in
  if decide (a0 = b0) then None
  else Some (fadd a1 (fmul (fmul (fsub x a0) (fsub b1 a1)) (finv (fsub b0 a0)))).

(** [struct CodewordSingleQueryResult]. *)
Record CodewordSingleQueryResult : Type := mkCodewordSingleQueryResult {
  left : F; right : F; index : nat
}.

(** [struct SingleQueryResult]: [oracle_query.inner] and
    [commitment_query]. *)
Record SingleQueryResult : Type := mkSingleQueryResult {
  oracle_query : list CodewordSingleQueryResult;
  commitment_query : CodewordSingleQueryResult
}.

(** The pair around [index]: [p1 = index | 1], [p0 = p1 - 1]; an index
    out of bounds panics. *)
Definition query_pair (codeword : list F) (index : nat) : option CodewordSingleQueryResult :=
  let p1 := Nat.lor index 1 in
  let p0 := p1 - 1 in
  match nth_error codeword p0, nth_error codeword p1 with
  | Some l, Some r => Some (mkCodewordSingleQueryResult l r p0)
  | _, _ => None
  end.

(** The loop [for oracle in oracles] of [basefold_get_query], halving
    [index] after each oracle. *)
Fixpoint oracle_queries (oracles : list (list F)) (index : nat)
    : option (list CodewordSingleQueryResult) :=
  match oracles with
  | [] => Some []
  | oracle :: rest =>
      match query_pair oracle index with
      | Some q => option_map (cons q) (oracle_queries rest (Nat.shiftr index 1))
      | None => None
      end
  end.

(** [basefold_get_query]. *)
Definition basefold_get_query (poly_codeword : list F) (oracles : list (list F)) (x_index : nat)
    : option SingleQueryResult :=
  match query_pair poly_codeword x_index with
  | None => None
  | Some commitment_query =>
      match oracle_queries oracles (Nat.shiftr x_index 1) with
      | Some qs => Some (mkSingleQueryResult qs commitment_query)
      | None => None
      end
  end.

(** [encode_repetition_basecode]: each coefficient pushed [rate] times. *)
Definition encode_repetition_basecode (poly : list F) (rate : nat) : list (list F) :=
  map (fun c => fold_left (fun rep_code _ => rep_code ++ [c]) (seq 0 rate) []) poly.

(** [evaluate_over_foldable_domain]: the repetition code written into a
    zero vector of size [cl] ([coeffs_with_rep[i * rate + j] = coeffs[i]],
    always in bounds), then the loop [for i in 0..logk], whose body is the
    one of [evaluate_over_foldable_domain_generic_basecode]. *)
Definition evaluate_over_foldable_domain (log_rate : nat) (coeffs : list F)
    (table : list (list F)) : option (list F) :=
  let k := length coeffs in
  match log2_strict k with
  | None => None
  | Some logk =>
      let cl := 2 ^ (logk + log_rate) in
      let rate := 2 ^ log_rate in
      let coeffs_with_rep :=
        fold_left (fun acc i =>
          fold_left (fun acc j => <[i * rate + j := nth i coeffs fzero]> acc) (seq 0 rate) acc)
          (seq 0 k) (repeat fzero cl) in
      option_map fst
        (fold_left (fold_level log_rate table) (seq 0 logk) (Some (coeffs_with_rep, rate)))
  end.

(** Modelled from the spec: [MerkleTree] ([util/merkle_tree.rs], not in the
    sources) is kept as its leaves: [leaves()] is the vector, [size()] its
    length and [get_leaf(i)] its [i]-th entry. *)
Record BasefoldCommitmentWithData : Type := mkBasefoldCommitmentWithData {
  codeword_tree : list F;
  bh_evals : list F;
  num_vars : nat
}.

Definition get_codeword_entry (c : BasefoldCommitmentWithData) (i : nat) : option F :=
  nth_error (codeword_tree c) i.

Definition codeword_size (c : BasefoldCommitmentWithData) : nat := length (codeword_tree c).

Definition poly_size (c : BasefoldCommitmentWithData) : nat := length (bh_evals c).

(** The loop [for j in 0..bases.len()] of [sum_with_scalar] at position
    [i], reading with [get]: [c += scalars[j] * get(bases[j], i)]. *)
Definition weighted_entry (scalars : list F) (bases : list BasefoldCommitmentWithData)
    (get : BasefoldCommitmentWithData -> nat -> option F) (i : nat) : option F :=
  fold_left (fun acc j =>
    match acc, nth_error scalars j, nth_error bases j with
    | Some c, Some s, Some b =>
        match get b i with Some v => Some (fadd c (fmul s v)) | None => None end
    | _, _, _ => None
    end) (seq 0 (length bases)) (Some fzero).

(** [AdditiveCommitment::sum_with_scalar] for
    [BasefoldCommitmentWithData]. *)
Definition sum_with_scalar (scalars : list F) (bases : list BasefoldCommitmentWithData)
    : option BasefoldCommitmentWithData :=
  match bases with
  | [] => None
  | b0 :: _ =>
      let k := length (bh_evals b0) in
      match log2_strict k with
      | None => None
      | Some nv =>
          match map_option (weighted_entry scalars bases get_codeword_entry)
                  (seq 0 (codeword_size b0)),
                map_option (weighted_entry scalars bases (fun b i => nth_error (bh_evals b) i))
                  (seq 0 k) with
          | Some new_codeword, Some _ => Some (mkBasefoldCommitmentWithData new_codeword [] nv)
          | _, _ => None
          end
      end
  end.

End Code.
End BasefoldMisc.

(** [from_raw_bytes] and the flat table of [get_table_aes] over
    Goldilocks. *)
Module RawBytes.
Import Goldilocks.

(** [from_raw_bytes]: [res += F::from(u64::from(b))] for every byte. *)
Definition from_raw_bytes (bytes : list Z) : F :=
  fold_left (fun res b => f_add res (b mod p)) bytes 0.

(** The [flat_table] of [get_table_aes]: [dest] cut into chunks of
    [num_of_bytes::<F>(1)] bytes, each read by [from_raw_bytes]. *)
Definition flat_table_of (bytes_per_element : nat) (dest : list Z) : list F :=
  map from_raw_bytes (Foldable.chunks_exact bytes_per_element dest).

End RawBytes.

(* ------------------------------------------------------------------ *)
(** ** [MockProver::assert_with_expected_errors] *)
(* ------------------------------------------------------------------ *)

Module MockAssert.
Import Expr Mock.

(** How [assert_with_expected_errors] ends: it returns, or panics on an
    unexpected error, or on an expected name no error carries. *)
Inductive Outcome : Type := Passes | PanicUnexpected | PanicSatisfied.

Section Assert.
Context {F E : Type} `{EF : ExtensionField F E}.

(** [MockProverError::contains]: [format!("{:?}", self).contains(name)];
    the [Debug] text of an error is not modelled. *)
Variable error_contains : @MockProverError F E -> string -> bool.

(** The key of [into_group_map_by]: the first expected name the error
    contains. *)
Definition group_key (constraint_names : list string) (error : MockProverError) : option string :=
  find (fun name => error_contains error name) constraint_names.

(** [assert_with_expected_errors] on the result of the run: the errors of
    [.err().into_iter().flatten()], a panic if the group [None] exists,
    then a panic for the first name whose group is missing. *)
Definition assert_with_expected_errors (result : @MockResult F E) (constraint_names : list string)
    : Outcome :=
  let errors := match result with Ok => [] | Err es => es end in
  if existsb (fun e => match group_key constraint_names e with None => true | Some _ => false end)
       errors
  then PanicUnexpected
  else if existsb (fun name =>
                     negb (existsb (fun e => match group_key constraint_names e with
                                             | Some n => String.eqb n name
                                             | None => false end) errors))
            constraint_names
  then PanicSatisfied
  else Passes.

(** [assert_satisfied]: no expected error. *)
Definition assert_satisfied (result : @MockResult F E) : Outcome :=
  assert_with_expected_errors result [].

End Assert.
End MockAssert.

(** Small instances over [GF5] of the BaseFold data. *)
Module Examples.
Import BasefoldMisc.

Definition example_base0 : @BasefoldCommitmentWithData GF5.gf5 :=
  mkBasefoldCommitmentWithData [GF5.G1; GF5.G2; GF5.G3; GF5.G4] [GF5.G1; GF5.G2] 1.
Definition example_base1 : @BasefoldCommitmentWithData GF5.gf5 :=
  mkBasefoldCommitmentWithData [GF5.G2; GF5.G2; GF5.G0; GF5.G1] [GF5.G3; GF5.G4] 1.
Definition example_codeword : list GF5.gf5 :=
  [GF5.G0; GF5.G1; GF5.G2; GF5.G3; GF5.G4; GF5.G0; GF5.G1; GF5.G2].
Definition example_oracles : list (list GF5.gf5) :=
  [[GF5.G1; GF5.G2; GF5.G3; GF5.G4]; [GF5.G3; GF5.G1]].

End Examples.

(* ================================================================== *)
(** * Proofs *)
(* ================================================================== *)

Module ExprFacts.
Import Expr.

Section Order.
Context {F E : Type} `{EF : ExtensionField F E}.

Lemma cmp_list_antisym (a b : list Z) : cmp_list b a = CompOpp (cmp_list a b).
Proof.
  revert b; induction a as [|x a IH]; intros [|y b]; simpl; try reflexivity.
  rewrite (Z.compare_antisym x y). destruct (Z.compare x y); simpl; auto.
Qed.

Lemma cmp_ext_antisym (a b : E) : cmp_ext b a = CompOpp (cmp_ext a b).
Proof. apply cmp_list_antisym. Qed.

Lemma cmp_field_antisym (a b : F) : cmp_field b a = CompOpp (cmp_field a b).
Proof. apply Z.compare_antisym. Qed.

(** Across variants, [cmp] always answers [Less]. *)
Lemma cmp_cross_variant (x y : Expression F E) :
  variant_rank x <> variant_rank y -> cmp x y = Lt.
Proof. destruct x, y; simpl; congruence. Qed.

Ltac destruct_opp :=
  repeat match goal with |- context [CompOpp (?f ?a ?b)] => destruct (f a b) end;
  simpl; split; congruence.

(** [Greater] and [Equal] are answered consistently in both directions
    (unlike [Less]). *)
Lemma cmp_gt_eq_sym (x y : Expression F E) :
  (cmp x y = Gt -> cmp y x = Lt) /\ (cmp x y = Eq -> cmp y x = Eq).
Proof.
  revert y; induction x as [i|i|c|id pw sc off|a IHa b IHb|a IHa b IHb|x IHx a IHa b IHb];
    intros []; simpl; try (split; intros; discriminate).
  - rewrite (Nat.compare_antisym i). destruct_opp.
  - rewrite (Nat.compare_antisym i). destruct_opp.
  - rewrite cmp_field_antisym. destruct_opp.
  - match goal with |- context [Nat.compare id ?e] => rewrite (Nat.compare_antisym id e) end.
    match goal with |- context [Nat.compare pw ?e] => rewrite (Nat.compare_antisym pw e) end.
    match goal with |- context [cmp_ext sc ?e] => rewrite (cmp_ext_antisym sc e) end.
    match goal with |- context [cmp_ext off ?e] => rewrite (cmp_ext_antisym off e) end.
    destruct_opp.
  - split; intros H.
    + destruct (cmp a _) eqn:E1; try discriminate.
      * rewrite (proj2 (IHa _) E1). now apply IHb.
      * now rewrite (proj1 (IHa _) E1).
    + destruct (cmp a _) eqn:E1; try discriminate.
      rewrite (proj2 (IHa _) E1). now apply IHb.
  - split; intros H.
    + destruct (cmp a _) eqn:E1; try discriminate.
      * rewrite (proj2 (IHa _) E1). now apply IHb.
      * now rewrite (proj1 (IHa _) E1).
    + destruct (cmp a _) eqn:E1; try discriminate.
      rewrite (proj2 (IHa _) E1). now apply IHb.
  - split; intros H.
    + destruct (cmp x _) eqn:E1; try discriminate.
      * rewrite (proj2 (IHx _) E1).
        destruct (cmp a _) eqn:E2; try discriminate.
        -- rewrite (proj2 (IHa _) E2). now apply IHb.
        -- now rewrite (proj1 (IHa _) E2).
      * now rewrite (proj1 (IHx _) E1).
    + destruct (cmp x _) eqn:E1; try discriminate.
      rewrite (proj2 (IHx _) E1).
      destruct (cmp a _) eqn:E2; try discriminate.
      rewrite (proj2 (IHa _) E2). now apply IHb.
Qed.

Lemma le_flip (a b : Expression F E) : le a b = false -> le b a = true.
Proof.
  unfold le. destruct (cmp a b) eqn:H; try discriminate. intros _.
  now rewrite (proj1 (cmp_gt_eq_sym a b) H).
Qed.

Lemma canonical_pair_cases (a b : Expression F E) :
  (canonical_pair a b = (a, b) /\ le a b = true) \/
  (canonical_pair a b = (b, a) /\ le b a = true /\ le a b = false).
Proof.
  unfold canonical_pair. destruct (le a b) eqn:H; [left; auto | right].
  split; [reflexivity | split; [now apply le_flip | reflexivity]].
Qed.

Lemma canonical_pair_idem (a b : Expression F E) :
  canonical_pair (fst (canonical_pair a b)) (snd (canonical_pair a b)) = canonical_pair a b.
Proof.
  destruct (canonical_pair_cases a b) as [[-> H]|[-> [H H']]]; simpl;
    unfold canonical_pair; now rewrite H.
Qed.

Lemma canonical_sum (a b : Expression F E) :
  to_canonical_inner (Sum a b) =
  Sum (fst (canonical_pair (to_canonical_inner a) (to_canonical_inner b)))
      (snd (canonical_pair (to_canonical_inner a) (to_canonical_inner b))).
Proof. simpl. now destruct (canonical_pair _ _). Qed.

Lemma canonical_product (a b : Expression F E) :
  to_canonical_inner (Product a b) =
  Product (fst (canonical_pair (to_canonical_inner a) (to_canonical_inner b)))
          (snd (canonical_pair (to_canonical_inner a) (to_canonical_inner b))).
Proof. simpl. now destruct (canonical_pair _ _). Qed.

(** Both components of [canonical_pair] are canonical when its inputs are. *)
Lemma canonical_pair_fixed (a b : Expression F E) :
  to_canonical_inner a = a -> to_canonical_inner b = b ->
  to_canonical_inner (fst (canonical_pair a b)) = fst (canonical_pair a b) /\
  to_canonical_inner (snd (canonical_pair a b)) = snd (canonical_pair a b).
Proof. intros Ha Hb. destruct (canonical_pair_cases a b) as [[-> _]|[-> _]]; simpl; auto. Qed.

Lemma canonical_idempotent (e : Expression F E) :
  to_canonical_inner (to_canonical_inner e) = to_canonical_inner e.
Proof.
  induction e as [| | | |a IHa b IHb|a IHa b IHb|x IHx a IHa b IHb]; try reflexivity.
  - rewrite canonical_sum, canonical_sum.
    destruct (canonical_pair_fixed _ _ IHa IHb) as [-> ->].
    now rewrite canonical_pair_idem.
  - rewrite canonical_product, canonical_product.
    destruct (canonical_pair_fixed _ _ IHa IHb) as [-> ->].
    now rewrite canonical_pair_idem.
  - simpl. now rewrite IHx, IHa, IHb.
Qed.

Lemma canonical_pairs_ordered (e : Expression F E) :
  pairs_ordered (to_canonical_inner e) = true.
Proof.
  induction e as [| | | |a IHa b IHb|a IHa b IHb|x IHx a IHa b IHb]; try reflexivity.
  - rewrite canonical_sum. simpl.
    destruct (canonical_pair_cases (to_canonical_inner a) (to_canonical_inner b))
      as [[-> H]|[-> [H _]]]; simpl; now rewrite H, IHa, IHb.
  - rewrite canonical_product. simpl.
    destruct (canonical_pair_cases (to_canonical_inner a) (to_canonical_inner b))
      as [[-> H]|[-> [H _]]]; simpl; now rewrite H, IHa, IHb.
  - simpl. now rewrite IHx, IHa, IHb.
Qed.

(** [ScaledSum] keeps its three positions. *)
Lemma canonical_scaled_sum (x a b : Expression F E) :
  to_canonical_inner (ScaledSum x a b) =
  ScaledSum (to_canonical_inner x) (to_canonical_inner a) (to_canonical_inner b).
Proof. reflexivity. Qed.

End Order.

Section Evaluation.
Context {F E : Type} `{EF : ExtensionField F E} `{LAWS : !ExtensionFieldLaws F E}.

Add Ring ExtRing : ext_ring.

Variable asg : Assignment E.

Lemma canonical_pair_eval_add (a b : Expression F E) :
  ext_add (eval asg (fst (canonical_pair a b))) (eval asg (snd (canonical_pair a b))) =
  ext_add (eval asg a) (eval asg b).
Proof. destruct (canonical_pair_cases a b) as [[-> _]|[-> _]]; simpl; ring. Qed.

Lemma canonical_pair_eval_mul (a b : Expression F E) :
  ext_mul (eval asg (fst (canonical_pair a b))) (eval asg (snd (canonical_pair a b))) =
  ext_mul (eval asg a) (eval asg b).
Proof. destruct (canonical_pair_cases a b) as [[-> _]|[-> _]]; simpl; ring. Qed.

Lemma canonical_eval (e : Expression F E) : eval asg (to_canonical_inner e) = eval asg e.
Proof.
  induction e as [| | | |a IHa b IHb|a IHa b IHb|x IHx a IHa b IHb]; try reflexivity.
  - rewrite canonical_sum. simpl eval at 1. rewrite canonical_pair_eval_add.
    simpl. now rewrite IHa, IHb.
  - rewrite canonical_product. simpl eval at 1. rewrite canonical_pair_eval_mul.
    simpl. now rewrite IHa, IHb.
  - simpl. now rewrite IHx, IHa, IHb.
Qed.

(* ---------------- monomial form ---------------- *)

Local Notation prod_eval := (prod_eval asg).
Local Notation term_eval := (term_eval asg).
Local Notation sum_eval := (sum_eval asg).

Lemma eval_expr_mul (a b : Expression F E) :
  eval asg (expr_mul a b) = ext_mul (eval asg a) (eval asg b).
Proof. destruct a, b; simpl; try reflexivity. apply from_base_mul. Qed.

Lemma eval_expr_add (a b : Expression F E) :
  eval asg (expr_add a b) = ext_add (eval asg a) (eval asg b).
Proof. destruct a, b; simpl; try reflexivity. apply from_base_add. Qed.

Lemma prod_eval_app (l1 l2 : list (Expression F E)) :
  prod_eval (l1 ++ l2) = ext_mul (prod_eval l1) (prod_eval l2).
Proof. induction l1 as [|v l1 IH]; simpl; [ring | rewrite IH; ring]. Qed.

Lemma sum_eval_app (t1 t2 : list (Term F E)) :
  sum_eval (t1 ++ t2) = ext_add (sum_eval t1) (sum_eval t2).
Proof. induction t1 as [|t t1 IH]; simpl; [ring | rewrite IH; ring]. Qed.

Lemma sum_eval_row (x : Term F E) (ys : list (Term F E)) :
  sum_eval (map (fun y => mkTerm (expr_mul (coeff x) (coeff y)) (vars x ++ vars y)) ys)
  = ext_mul (term_eval x) (sum_eval ys).
Proof.
  induction ys as [|y ys IH]; unfold sum_eval in *; simpl; [ring|].
  rewrite IH. unfold term_eval; simpl. rewrite eval_expr_mul, prod_eval_app. ring.
Qed.

Lemma sum_eval_cartesian (xs ys : list (Term F E)) :
  sum_eval (cartesian xs ys) = ext_mul (sum_eval xs) (sum_eval ys).
Proof.
  induction xs as [|x xs IH]; [unfold cartesian, sum_eval; simpl; ring|].
  unfold cartesian in *. simpl flat_map. rewrite sum_eval_app, IH, sum_eval_row.
  unfold sum_eval; simpl. ring.
Qed.

Lemma distribute_eval (e : Expression F E) : sum_eval (distribute e) = eval asg e.
Proof.
  induction e as [| | | |a IHa b IHb|a IHa b IHb|x IHx a IHa b IHb].
  1,2,4: unfold sum_eval, term_eval, ONE; simpl; rewrite from_base_one; ring.
  - unfold sum_eval, term_eval; simpl. ring.
  - simpl. now rewrite sum_eval_app, IHa, IHb.
  - simpl. now rewrite sum_eval_cartesian, IHa, IHb.
  - simpl. rewrite sum_eval_app, sum_eval_cartesian, IHx, IHa, IHb. ring.
Qed.

Lemma prod_eval_perm (l1 l2 : list (Expression F E)) :
  Permutation l1 l2 -> prod_eval l1 = prod_eval l2.
Proof. induction 1; simpl; try ring; congruence. Qed.

Lemma combine_into_eval (res : list (Term F E)) (t : Term F E) :
  sum_eval (combine_into res t) = ext_add (sum_eval res) (term_eval t).
Proof.
  induction res as [|r rs IH]; simpl; [ring|].
  destruct (decide (vars r = vars t)) as [Hv|Hv]; simpl.
  - unfold term_eval; simpl. rewrite eval_expr_add, <- Hv. ring.
  - rewrite IH. ring.
Qed.

End Evaluation.

Section Sorting.
Context {F E : Type} `{EF : ExtensionField F E}.

Lemma insert_tail_perm (x : Expression F E) (l : list (Expression F E)) :
  Permutation (insert_tail x l) (x :: l).
Proof.
  induction l as [|y ys IH]; simpl; [reflexivity|].
  destruct (is_less x y); [|reflexivity].
  rewrite IH. apply perm_swap.
Qed.

Lemma insertion_sort_perm (l : list (Expression F E)) : Permutation (insertion_sort l) l.
Proof.
  unfold insertion_sort.
  assert (H : forall acc, Permutation (fold_left (fun acc x => insert_tail x acc) l acc) (rev l ++ acc)).
  { induction l as [|x l IH]; intros acc; simpl; [reflexivity|].
    rewrite IH, insert_tail_perm, <- app_assoc. reflexivity. }
  rewrite H, app_nil_r, rev_involutive. reflexivity.
Qed.

Variable long_sort : list (Expression F E) -> option (list (Expression F E)).

(** The guarantee of [slice::sort] when it returns: the slice holds its
    original elements. *)
Hypothesis long_sort_perm : forall l r, long_sort l = Some r -> Permutation r l.

Lemma sort_perm (l vs : list (Expression F E)) : sort long_sort l = Some vs -> Permutation vs l.
Proof.
  unfold sort. destruct (Nat.leb (length l) 20).
  - intros [= <-]. apply insertion_sort_perm.
  - apply long_sort_perm.
Qed.

Lemma sort_short (l : list (Expression F E)) :
  (length l <= 20)%nat -> sort long_sort l = Some (insertion_sort l).
Proof. intros H. unfold sort. apply Nat.leb_le in H. rewrite H. reflexivity. Qed.

Lemma combine_none (ts : list (Term F E)) : fold_left (combine_step long_sort) ts None = None.
Proof. induction ts as [|t ts IH]; [reflexivity|]. exact IH. Qed.

Lemma combine_step_some (res : list (Term F E)) (t : Term F E) :
  combine_step long_sort (Some res) t =
  match sort long_sort (vars t) with
  | None => None
  | Some vs => Some (combine_into res (mkTerm (coeff t) vs))
  end.
Proof. reflexivity. Qed.

Lemma combine_total (ts : list (Term F E)) (res : list (Term F E)) :
  (forall t, In t ts -> (length (vars t) <= 20)%nat) ->
  exists r, fold_left (combine_step long_sort) ts (Some res) = Some r.
Proof.
  revert res. induction ts as [|t ts IH]; intros res H; cbn [fold_left]; [eauto|].
  rewrite combine_step_some, sort_short by (apply H; left; reflexivity).
  apply IH. intros u Hu. apply H. right. exact Hu.
Qed.

Lemma monomial_form_total (e : Expression F E) :
  (forall t, In t (distribute e) -> (length (vars t) <= 20)%nat) ->
  exists m, to_monomial_form_inner long_sort e = Some m.
Proof.
  intros H. unfold to_monomial_form_inner, combine.
  destruct (combine_total (distribute e) [] H) as (r & Hr). rewrite Hr. eexists. reflexivity.
Qed.

End Sorting.

Section MonomialEval.
Context {F E : Type} `{EF : ExtensionField F E} `{LAWS : !ExtensionFieldLaws F E}.

Add Ring ExtRingM : ext_ring.

Variable asg : Assignment E.

Lemma sum_eval_nil : sum_eval asg [] = ext_zero.
Proof. reflexivity. Qed.

Lemma sum_eval_cons (t : Term F E) (ts : list (Term F E)) :
  sum_eval asg (t :: ts) = ext_add (term_eval asg t) (sum_eval asg ts).
Proof. reflexivity. Qed.

Variable long_sort : list (Expression F E) -> option (list (Expression F E)).
Hypothesis long_sort_perm : forall l r, long_sort l = Some r -> Permutation r l.

Lemma combine_eval (ts ts' : list (Term F E)) :
  combine long_sort ts = Some ts' -> sum_eval asg ts' = sum_eval asg ts.
Proof.
  unfold combine.
  assert (H : forall res res', fold_left (combine_step long_sort) ts (Some res) = Some res' ->
            sum_eval asg res' = ext_add (sum_eval asg res) (sum_eval asg ts)).
  { induction ts as [|t ts IH]; intros res res' Hf; cbn [fold_left] in Hf.
    - injection Hf as <-. rewrite sum_eval_nil. ring.
    - rewrite combine_step_some in Hf.
      destruct (sort long_sort (vars t)) as [vs|] eqn:Es.
      + rewrite (IH _ _ Hf), combine_into_eval, sum_eval_cons. unfold term_eval; cbn [coeff vars].
        rewrite (prod_eval_perm asg _ _ (sort_perm long_sort long_sort_perm _ _ Es)). ring.
      + rewrite combine_none in Hf. discriminate. }
  intros Hc. rewrite (H _ _ Hc), sum_eval_nil. ring.
Qed.

Lemma fold_product_eval (vs : list (Expression F E)) (c : Expression F E) :
  eval asg (fold_left mk_product vs c) = ext_mul (eval asg c) (prod_eval asg vs).
Proof.
  revert c; induction vs as [|v vs IH]; intros c; simpl; [ring|].
  rewrite IH. simpl. ring.
Qed.

Lemma term_expr_eval (t : Term F E) : eval asg (term_expr t) = term_eval asg t.
Proof. apply fold_product_eval. Qed.

Lemma fold_sum_eval (xs : list (Expression F E)) (x : Expression F E) :
  eval asg (fold_left mk_sum xs x) =
  ext_add (eval asg x) (fold_right (fun e acc => ext_add (eval asg e) acc) ext_zero xs).
Proof.
  revert x; induction xs as [|y xs IH]; intros x; simpl; [ring|].
  rewrite IH. simpl. ring.
Qed.

Lemma sum_terms_eval (ts : list (Term F E)) : eval asg (sum_terms ts) = sum_eval asg ts.
Proof.
  unfold sum_terms. destruct ts as [|t ts]; cbn [map].
  - unfold ZERO. cbn [eval]. rewrite sum_eval_nil. apply from_base_zero.
  - rewrite fold_sum_eval, term_expr_eval, sum_eval_cons. f_equal.
    induction ts as [|u ts IH]; cbn [map fold_right]; [reflexivity|].
    rewrite IH, term_expr_eval, sum_eval_cons. reflexivity.
Qed.

Lemma monomial_form_eval (e m : Expression F E) :
  to_monomial_form_inner long_sort e = Some m -> eval asg m = eval asg e.
Proof.
  unfold to_monomial_form_inner.
  destruct (combine long_sort (distribute e)) as [ts|] eqn:Ec; [|discriminate].
  intros [= <-]. now rewrite sum_terms_eval, (combine_eval _ _ Ec), distribute_eval.
Qed.

End MonomialEval.

Section Shape.
Context {F E : Type} `{EF : ExtensionField F E}.

Lemma cartesian_ok (xs ys : list (Term F E)) :
  Forall term_ok xs -> Forall term_ok ys -> Forall term_ok (cartesian xs ys).
Proof.
  intros Hx Hy. unfold cartesian. apply Forall_flat_map. apply List.Forall_forall.
  intros x Inx. apply List.Forall_forall. intros t Int. apply in_map_iff in Int as (y & <- & Iny).
  destruct (proj1 (List.Forall_forall _ _) Hx x Inx) as [[cx Ecx] Vx].
  destruct (proj1 (List.Forall_forall _ _) Hy y Iny) as [[cy Ecy] Vy].
  split; simpl.
  - rewrite Ecx, Ecy. eexists; reflexivity.
  - now apply Forall_app.
Qed.

Lemma distribute_ok (e : Expression F E) : Forall term_ok (distribute e).
Proof.
  induction e; simpl.
  1,2,4: repeat constructor; eexists; reflexivity.
  - repeat constructor. eexists; reflexivity.
  - now apply Forall_app.
  - now apply cartesian_ok.
  - apply Forall_app; split; [assumption|]. now apply cartesian_ok.
Qed.

Lemma combine_into_ok (res : list (Term F E)) (t : Term F E) :
  Forall term_ok res -> term_ok t -> Forall term_ok (combine_into res t).
Proof.
  intros Hres Ht. induction Hres as [|r rs Hr Hrs IH]; simpl; [now constructor|].
  destruct (decide (vars r = vars t)).
  - constructor; [|assumption]. destruct Hr as [[cr Ecr] Vr], Ht as [[ct Ect] _].
    split; simpl; [|assumption]. rewrite Ecr, Ect. eexists; reflexivity.
  - now constructor.
Qed.

Variable long_sort : list (Expression F E) -> option (list (Expression F E)).
Hypothesis long_sort_perm : forall l r, long_sort l = Some r -> Permutation r l.

Lemma combine_ok (ts ts' : list (Term F E)) :
  combine long_sort ts = Some ts' -> Forall term_ok ts -> Forall term_ok ts'.
Proof.
  unfold combine. intros Hc Hts. revert Hc.
  assert (H : forall res res', Forall term_ok res ->
    fold_left (combine_step long_sort) ts (Some res) = Some res' -> Forall term_ok res').
  { induction Hts as [|t ts Ht Hts IH]; intros res res' Hres Hf; cbn [fold_left] in Hf.
    - injection Hf as <-. exact Hres.
    - rewrite combine_step_some in Hf.
      destruct (sort long_sort (vars t)) as [vs|] eqn:Es; [|rewrite combine_none in Hf; discriminate].
      refine (IH _ _ (combine_into_ok _ _ Hres _) Hf).
      destruct Ht as [Hc Hv]. split; [assumption|]. simpl.
      apply List.Forall_forall. intros v Inv.
      apply (proj1 (List.Forall_forall _ _) Hv).
      eapply Permutation_in; [apply (sort_perm long_sort long_sort_perm _ _ Es)|exact Inv]. }
  apply H. constructor.
Qed.

Lemma fold_product_chain (vs : list (Expression F E)) (c : Expression F E) :
  is_product_chain c = true -> Forall (fun v => is_var v = true) vs ->
  is_product_chain (fold_left mk_product vs c) = true.
Proof.
  intros Hc Hvs. revert c Hc. induction Hvs as [|v vs Hv Hvs IH]; intros c Hc; simpl; [assumption|].
  apply IH. simpl. now rewrite Hc, Hv.
Qed.

Lemma term_expr_chain (t : Term F E) : term_ok t -> is_product_chain (term_expr t) = true.
Proof.
  intros [[c Ec] Hv]. unfold term_expr. apply fold_product_chain; [rewrite Ec; reflexivity|assumption].
Qed.

Lemma product_chain_sum_of_products (e : Expression F E) :
  is_product_chain e = true -> is_sum_of_products e = true.
Proof. destruct e; simpl; congruence. Qed.

Lemma fold_sum_shape (xs : list (Expression F E)) (x : Expression F E) :
  is_sum_of_products x = true -> Forall (fun y => is_product_chain y = true) xs ->
  is_sum_of_products (fold_left mk_sum xs x) = true.
Proof.
  intros Hx Hxs. revert x Hx. induction Hxs as [|y ys Hy Hys IH]; intros x Hx; simpl; [assumption|].
  apply IH. simpl. now rewrite Hx, Hy.
Qed.

Lemma sum_terms_shape (ts : list (Term F E)) :
  Forall term_ok ts -> is_sum_of_products (sum_terms ts) = true.
Proof.
  intros Hts. unfold sum_terms. destruct Hts as [|t ts Ht Hts]; simpl; [reflexivity|].
  apply fold_sum_shape.
  - apply product_chain_sum_of_products, term_expr_chain, Ht.
  - apply List.Forall_forall. intros y Iny. apply in_map_iff in Iny as (u & <- & Inu).
    apply term_expr_chain. exact (proj1 (List.Forall_forall _ _) Hts u Inu).
Qed.

End Shape.

End ExprFacts.

Module ExprClaims.
Import Expr ExprFacts.

(** The integers satisfy the field laws of the interface. *)
Lemma int_ext_laws : @ExtensionFieldLaws Z Z int_ext.
Proof. constructor; try reflexivity. exact Zth. Qed.

(** C3: for every expression and every assignment of its leaves, the
    monomial form, whenever [to_monomial_form_inner] returns it, evaluates
    like the expression; and it is returned on every expression whose
    distributed terms have at most 20 variables each.  Both hold whatever
    the standard library's sort does on longer slices, as long as it keeps
    the elements when it returns. *)
Theorem monomial_form_preserves_eval {F E : Type} `{EF : ExtensionField F E}
    `{LAWS : !ExtensionFieldLaws F E}
    (long_sort : list (Expression F E) -> option (list (Expression F E)))
    (long_sort_perm : forall l r, long_sort l = Some r -> Permutation r l)
    (asg : Assignment E) (e : Expression F E) :
  (forall m, to_monomial_form_inner long_sort e = Some m -> eval asg e = eval asg m) /\
  ((forall t, In t (distribute e) -> (length (vars t) <= 20)%nat) ->
   exists m, to_monomial_form_inner long_sort e = Some m).
Proof.
  split.
  - intros m Hm. symmetry. exact (monomial_form_eval asg long_sort long_sort_perm e m Hm).
  - apply monomial_form_total.
Qed.

Lemma monomial_form_preserves_eval_witness :
  @ExtensionFieldLaws Z Z int_ext /\
  (forall l r, (fun _ : list (Expression Z Z) => @None (list (Expression Z Z))) l = Some r ->
     Permutation r l) /\
  (forall t, In t (@distribute Z Z int_ext s5_expr) -> (length (vars t) <= 20)%nat) /\
  exists m, @to_monomial_form_inner Z Z int_ext (fun _ => None) s5_expr = Some m /\
    @eval Z Z int_ext s5_assignment s5_expr = @eval Z Z int_ext s5_assignment m.
Proof.
  assert (Hls : forall l r, (fun _ : list (Expression Z Z) => @None (list (Expression Z Z))) l = Some r ->
            Permutation r l) by discriminate.
  assert (Hb : forallb (fun t => Nat.leb (length (vars t)) 20) (@distribute Z Z int_ext s5_expr) = true)
    by (vm_compute; reflexivity).
  assert (Hl : forall t, In t (@distribute Z Z int_ext s5_expr) -> (length (vars t) <= 20)%nat).
  { intros t Ht. apply Nat.leb_le. rewrite forallb_forall in Hb. exact (Hb t Ht). }
  split; [exact int_ext_laws|]. split; [exact Hls|]. split; [exact Hl|].
  destruct (@monomial_form_preserves_eval Z Z int_ext int_ext_laws (fun _ => None) Hls s5_assignment s5_expr)
    as [Heval Htot].
  destruct (Htot Hl) as (m & Hm). exists m. split; [exact Hm|]. exact (Heval m Hm).
Defined.

(** C4 (code bug): [Fixed(0)] and [WitIn(0)] are each [Less] than the
    other: the comparison answers [Less] for every pair of different
    variants, so it is not antisymmetric. *)
Theorem cmp_fixed_witin_both_less {F E : Type} `{EF : ExtensionField F E} :
  cmp (@Fixed F E 0) (WitIn 0) = Lt /\ cmp (@WitIn F E 0) (Fixed 0) = Lt.
Proof. split; reflexivity. Qed.

(** C5 (code bug): [Sum(WitIn 0, Fixed 0)] and [Sum(Fixed 0, WitIn 0)] are
    both left unchanged by the canonical form, although [Fixed] precedes
    [WitIn] in the order the spec states. *)
Theorem canonical_keeps_both_orders {F E : Type} `{EF : ExtensionField F E} :
  to_canonical_inner (Sum (@WitIn F E 0) (Fixed 0)) = Sum (WitIn 0) (Fixed 0) /\
  to_canonical_inner (Sum (@Fixed F E 0) (WitIn 0)) = Sum (Fixed 0) (WitIn 0) /\
  (variant_rank (@Fixed F E 0) < variant_rank (@WitIn F E 0))%nat.
Proof. split; [reflexivity | split; [reflexivity | simpl; lia]]. Qed.

(** C6: the monomial form of the single variable [Fixed(0)] is the product
    [1 * Fixed(0)]: its root is not a [Sum].  A single variable is sorted by
    insertion, so the sort of longer slices (here one that panics) plays no
    part. *)
Lemma monomial_form_root_not_sum :
  to_monomial_form_inner (fun _ => None) (Fixed 0 : Expression Goldilocks.F Goldilocks.E) =
    Some (Product (Constant 1) (Fixed 0)) /\
  match to_monomial_form_inner (fun _ => None) (Fixed 0 : Expression Goldilocks.F Goldilocks.E) with
  | Some (Sum _ _) => False
  | _ => True
  end.
Proof. vm_compute. split; [reflexivity | exact I]. Qed.

(** C6 as amended: the monomial form, whenever it is returned, is a
    left-nested chain of [Sum]s (none for a single term, [Constant 0] for
    no term) of left-nested [Product] chains, each a [Constant]
    coefficient followed by [Fixed], [WitIn] or [Challenge] leaves. *)
Theorem monomial_form_shape {F E : Type} `{EF : ExtensionField F E}
    (long_sort : list (Expression F E) -> option (list (Expression F E)))
    (long_sort_perm : forall l r, long_sort l = Some r -> Permutation r l) (e : Expression F E) :
  forall m, to_monomial_form_inner long_sort e = Some m -> is_sum_of_products m = true.
Proof.
  intros m. unfold to_monomial_form_inner.
  destruct (combine long_sort (distribute e)) as [ts|] eqn:Ec; [|discriminate].
  intros [= <-]. apply sum_terms_shape.
  exact (combine_ok long_sort long_sort_perm _ _ Ec (distribute_ok e)).
Qed.

Lemma monomial_form_shape_witness :
  (forall l r, (fun _ : list (Expression Goldilocks.F Goldilocks.E) =>
                  @None (list (Expression Goldilocks.F Goldilocks.E))) l = Some r -> Permutation r l) /\
  exists m, to_monomial_form_inner (fun _ => None) (s5_expr : Expression Goldilocks.F Goldilocks.E) = Some m /\
    is_sum_of_products m = true.
Proof.
  assert (Hls : forall l r, (fun _ : list (Expression Goldilocks.F Goldilocks.E) =>
                  @None (list (Expression Goldilocks.F Goldilocks.E))) l = Some r -> Permutation r l)
    by discriminate.
  split; [exact Hls|].
  destruct (to_monomial_form_inner (fun _ => None) (s5_expr : Expression Goldilocks.F Goldilocks.E))
    as [m|] eqn:Hm; [|vm_compute in Hm; discriminate].
  exists m. split; [reflexivity|].
  exact (monomial_form_shape (fun _ => None) Hls s5_expr m Hm).
Defined.

(** With the comparison of C4, sorting [[Fixed 0; WitIn 0]] and
    [[WitIn 0; Fixed 0]] swaps both, so [Fixed 0 * WitIn 0 + WitIn 0 * Fixed 0]
    keeps two terms with the same variables. *)
Lemma monomial_form_unmerged_terms
    (long_sort : list (Expression Goldilocks.F Goldilocks.E) -> option (list (Expression Goldilocks.F Goldilocks.E))) :
  to_monomial_form_inner long_sort
    (Sum (Product (Fixed 0) (WitIn 0)) (Product (WitIn 0) (Fixed 0))
      : Expression Goldilocks.F Goldilocks.E) =
  Some (Sum (Product (Product (Constant 1) (WitIn 0)) (Fixed 0))
            (Product (Product (Constant 1) (Fixed 0)) (WitIn 0))).
Proof. vm_compute. reflexivity. Qed.

End ExprClaims.

(* ------------------------------------------------------------------ *)
(** ** Facts on [LtuInput::assign] *)
(* ------------------------------------------------------------------ *)

Module LtuFacts.
Import Goldilocks Ltu.

Lemma set_val_read inst w v k : set_val inst w v k = if Nat.eqb k w then Some v else inst k.
Proof. reflexivity. Qed.

Lemma combine_app_eq {A B : Type} (l1 l2 : list A) (m1 m2 : list B) :
  length l1 = length m1 ->
  List.combine (l1 ++ l2) (m1 ++ m2) = List.combine l1 m1 ++ List.combine l2 m2.
Proof.
  revert m1; induction l1 as [|a l1 IH]; intros [|b m1] H; simpl in *;
    try discriminate; try reflexivity.
  rewrite IH by lia. reflexivity.
Qed.

Lemma enumerate_snoc {A : Type} (l : list A) (x : A) :
  enumerate (l ++ [x]) = enumerate l ++ [(length l, x)].
Proof.
  unfold enumerate. rewrite length_app, Nat.add_1_r, seq_S.
  rewrite combine_app_eq by (rewrite length_seq; reflexivity). reflexivity.
Qed.

Lemma first_ne_snoc (ps : list (Z * Z)) (l r : Z) :
  first_ne (rev (enumerate (ps ++ [(l, r)]))) =
  if Z.eqb l r then first_ne (rev (enumerate ps)) else Some (length ps).
Proof. rewrite enumerate_snoc, rev_app_distr. reflexivity. Qed.

Lemma first_ne_top (ps : list (Z * Z)) (i : nat) :
  (i < length ps)%nat -> fst (nth i ps (0, 0)) <> snd (nth i ps (0, 0)) ->
  (forall j, (i < j < length ps)%nat -> fst (nth j ps (0, 0)) = snd (nth j ps (0, 0))) ->
  first_ne (rev (enumerate ps)) = Some i.
Proof.
  induction ps as [|[l r] ps IH] using rev_ind; intros Hi Hd Heq; [simpl in Hi; lia|].
  rewrite first_ne_snoc. rewrite length_app in Hi, Heq. simpl in Hi.
  destruct (Nat.eq_dec i (length ps)) as [->|Hne].
  - rewrite nth_middle in Hd. simpl in Hd.
    destruct (Z.eqb_spec l r); [contradiction|reflexivity].
  - assert (Hlr : l = r).
    { specialize (Heq (length ps) ltac:(simpl; lia)). rewrite nth_middle in Heq. exact Heq. }
    rewrite (proj2 (Z.eqb_eq l r) Hlr). apply IH; [lia| |].
    + rewrite app_nth1 in Hd by lia. exact Hd.
    + intros j Hj. specialize (Heq j ltac:(simpl; lia)). rewrite app_nth1 in Heq by lia. exact Heq.
Qed.

Lemma first_ne_none (ps : list (Z * Z)) :
  (forall j, (j < length ps)%nat -> fst (nth j ps (0, 0)) = snd (nth j ps (0, 0))) ->
  first_ne (rev (enumerate ps)) = None.
Proof.
  induction ps as [|[l r] ps IH] using rev_ind; intros Heq; [reflexivity|].
  rewrite first_ne_snoc. rewrite length_app in Heq.
  assert (Hlr : l = r).
  { specialize (Heq (length ps) ltac:(simpl; lia)). rewrite nth_middle in Heq. exact Heq. }
  rewrite (proj2 (Z.eqb_eq l r) Hlr). apply IH.
  intros j Hj. specialize (Heq j ltac:(simpl; lia)). rewrite app_nth1 in Heq by lia. exact Heq.
Qed.

Lemma scan_top (lhs rhs : list Z) (idx : nat) :
  length lhs = length rhs -> top_diff lhs rhs idx -> scan lhs rhs = (idx, true).
Proof.
  intros Hlen (Hi & Hd & Heq). unfold scan.
  rewrite (first_ne_top _ idx); [reflexivity| | |].
  - rewrite length_combine. lia.
  - rewrite combine_nth by exact Hlen. exact Hd.
  - intros j Hj. rewrite combine_nth by exact Hlen. apply Heq.
    rewrite length_combine in Hj. lia.
Qed.

Lemma scan_same (lhs : list Z) : scan lhs lhs = (0%nat, false).
Proof.
  unfold scan. rewrite first_ne_none; [reflexivity|].
  intros j _. rewrite combine_nth by reflexivity. reflexivity.
Qed.

Lemma top_diff_or_eq (lhs rhs : list Z) :
  length lhs = length rhs -> (exists idx, top_diff lhs rhs idx) \/ lhs = rhs.
Proof.
  revert rhs; induction lhs as [|a l IH]; intros [|b r] Hlen; simpl in Hlen;
    try discriminate; [right; reflexivity|].
  destruct (IH r ltac:(lia)) as [[i (Hi & Hd & Heq)]|<-].
  - left. exists (S i). split; [simpl; lia|]. split; [exact Hd|].
    intros [|j] Hj; [lia|]. apply Heq. simpl in Hj. lia.
  - destruct (Z.eq_dec a b) as [<-|Hab]; [right; reflexivity|].
    left. exists 0%nat. split; [simpl; lia|]. split; [exact Hab|].
    intros [|j] Hj; [lia|]. reflexivity.
Qed.

(** The most significant differing limb decides the comparison of the
    values. *)
Lemma limbs_compare (lhs rhs : list Z) (idx : nat) :
  length lhs = length rhs -> Forall is_byte lhs -> Forall is_byte rhs ->
  top_diff lhs rhs idx ->
  Z.compare (limbs_value lhs) (limbs_value rhs) = Z.compare (nth idx lhs 0) (nth idx rhs 0).
Proof.
  revert rhs idx. induction lhs as [|a l IH]; intros [|b r] idx Hlen Hl Hr (Hi & Hd & Heq);
    simpl in Hlen, Hi; try lia.
  pose proof (Forall_inv Hl) as Ha. pose proof (Forall_inv_tail Hl) as Hl'.
  pose proof (Forall_inv Hr) as Hb. pose proof (Forall_inv_tail Hr) as Hr'.
  unfold is_byte in Ha, Hb. simpl limbs_value.
  destruct idx as [|i].
  - assert (l = r) as <-.
    { apply nth_ext with (d := 0) (d' := 0); [lia|].
      intros n Hn. apply (Heq (S n)). simpl. lia. }
    simpl nth.
    destruct (Z.compare_spec (a + 256 * limbs_value l) (b + 256 * limbs_value l)),
      (Z.compare_spec a b); try reflexivity; lia.
  - assert (Ht : top_diff l r i).
    { split; [lia|]. split; [exact Hd|]. intros j Hj. apply (Heq (S j)). simpl. lia. }
    assert (H := IH r i ltac:(lia) Hl' Hr' Ht).
    simpl nth. rewrite <- H.
    assert (Hne : limbs_value l <> limbs_value r).
    { intros He. rewrite He, Z.compare_refl in H. symmetry in H.
      apply Z.compare_eq in H. contradiction. }
    destruct (Z.compare_spec (a + 256 * limbs_value l) (b + 256 * limbs_value r)),
      (Z.compare_spec (limbs_value l) (limbs_value r)); try reflexivity; lia.
Qed.

(** [inv_check] on every difference in [[-255, 255]] but zero. *)
Lemma all_inv_check_ok :
  forallb (fun n => (Z.of_nat n =? 255) || inv_check (Z.of_nat n - 255)) (seq 0 511) = true.
Proof. vm_compute. reflexivity. Qed.

Lemma e_sub_i64 (l r : Z) :
  e_sub (i64_to_ext l) (i64_to_ext r) = e_sub (i64_to_ext (l - r)) (i64_to_ext 0).
Proof.
  unfold e_sub, i64_to_ext, e_from_base, f_from_i64, f_sub. cbn [fst snd].
  rewrite !Zmod_mod, Zmod_0_l, Z.sub_0_r, Zmod_mod. f_equal.
  symmetry. apply Zminus_mod.
Qed.

Lemma inv_check_sound (d : Z) :
  inv_check d = true ->
  exists inv, e_invert (e_sub (i64_to_ext d) (i64_to_ext 0)) = Some inv /\
              e_mul (e_sub (i64_to_ext d) (i64_to_ext 0)) inv = e_one.
Proof.
  unfold inv_check. generalize (e_sub (i64_to_ext d) (i64_to_ext 0)) as x. intros x.
  destruct (e_invert x) as [inv|]; [|discriminate]. intros Hc.
  exists inv. split; [reflexivity|].
  destruct (e_mul x inv) as [a b]. cbn zeta in Hc.
  apply andb_prop in Hc as [Ha Hb]. apply Z.eqb_eq in Ha, Hb. cbn [fst snd] in Ha, Hb.
  subst. reflexivity.
Qed.

(** The difference of two distinct bytes is invertible in the extension. *)
Lemma byte_diff_invertible (l r : Z) :
  is_byte l -> is_byte r -> l <> r ->
  exists inv, e_invert (e_sub (i64_to_ext l) (i64_to_ext r)) = Some inv /\
              e_mul (e_sub (i64_to_ext l) (i64_to_ext r)) inv = e_one.
Proof.
  unfold is_byte. intros Hl Hr Hne. rewrite e_sub_i64.
  assert (Hc : inv_check (l - r) = true).
  { pose proof all_inv_check_ok as H.
    rewrite forallb_forall in H.
    specialize (H (Z.to_nat (l - r + 255))).
    rewrite Z2Nat.id in H by lia.
    assert (Hin : In (Z.to_nat (l - r + 255)) (seq 0 511)) by (apply in_seq; lia).
    specialize (H Hin). apply orb_prop in H. destruct H as [H|H].
    - apply Z.eqb_eq in H. lia.
    - replace (l - r + 255 - 255) with (l - r) in H by lia. exact H. }
  apply inv_check_sound. exact Hc.
Qed.

Lemma acc_step_set idx flag inst id wit :
  acc_step idx flag inst (id, wit) =
  set_val inst wit (if Nat.leb id idx then i64_to_ext (b2i flag) else e_zero).
Proof. unfold acc_step. destruct (Nat.leb id idx); reflexivity. Qed.

Lemma fold_acc_notin idx flag (ws : list nat) off inst k :
  ~ In k ws ->
  fold_left (acc_step idx flag) (List.combine (seq off (length ws)) ws) inst k = inst k.
Proof.
  revert off inst; induction ws as [|w ws IH]; intros off inst Hk; [reflexivity|].
  cbn [seq List.combine fold_left length]. rewrite IH by (simpl in Hk; tauto).
  rewrite acc_step_set, set_val_read.
  destruct (Nat.eqb_spec k w); [subst; simpl in Hk; tauto|reflexivity].
Qed.

Lemma fold_acc_in idx flag (ws : list nat) off inst j :
  NoDup ws -> (j < length ws)%nat ->
  fold_left (acc_step idx flag) (List.combine (seq off (length ws)) ws) inst (nth j ws 0%nat) =
  Some (if Nat.leb (off + j) idx then i64_to_ext (b2i flag) else e_zero).
Proof.
  revert off inst j; induction ws as [|w ws IH]; intros off inst j Hnd Hj; simpl in Hj; [lia|].
  apply NoDup_cons in Hnd as [Hw Hnd]. rewrite list_elem_of_In in Hw.
  cbn [seq List.combine fold_left nth length]. destruct j as [|j].
  - rewrite fold_acc_notin by exact Hw.
    rewrite acc_step_set, set_val_read, Nat.eqb_refl, Nat.add_0_r. reflexivity.
  - rewrite IH by (auto; lia). replace (S off + j)%nat with (off + S j)%nat by lia.
    reflexivity.
Qed.

(** What [NoDup (config_ids cfg)] gives: all column ids are distinct. *)
Lemma config_distinct cfg :
  NoDup (config_ids cfg) ->
  NoDup (indexes cfg) /\ NoDup (acc_indexes cfg) /\
  (forall x, In x (indexes cfg) -> ~ In x (acc_indexes cfg)) /\
  (forall x, In x (indexes cfg) \/ In x (acc_indexes cfg) ->
     x <> byte_diff_inv cfg /\ x <> lhs_ne_byte cfg /\ x <> rhs_ne_byte cfg /\ x <> is_ltu cfg) /\
  byte_diff_inv cfg <> lhs_ne_byte cfg /\ byte_diff_inv cfg <> rhs_ne_byte cfg /\
  byte_diff_inv cfg <> is_ltu cfg /\ lhs_ne_byte cfg <> rhs_ne_byte cfg /\
  lhs_ne_byte cfg <> is_ltu cfg /\ rhs_ne_byte cfg <> is_ltu cfg.
Proof.
  unfold config_ids. intros H.
  apply NoDup_app in H as (Hi & Hia & H).
  apply NoDup_app in H as (Ha & Har & Hr).
  assert (Hq : forall x, In x (indexes cfg) \/ In x (acc_indexes cfg) ->
            x ∉ [byte_diff_inv cfg; lhs_ne_byte cfg; rhs_ne_byte cfg; is_ltu cfg]).
  { intros x [Hx|Hx]; rewrite <- list_elem_of_In in Hx.
    - specialize (Hia x Hx). rewrite not_elem_of_app in Hia. tauto.
    - exact (Har x Hx). }
  apply NoDup_cons in Hr as [H1 Hr]. apply NoDup_cons in Hr as [H2 Hr].
  apply NoDup_cons in Hr as [H3 _].
  repeat rewrite not_elem_of_cons in H1. repeat rewrite not_elem_of_cons in H2.
  repeat rewrite not_elem_of_cons in H3.
  split; [exact Hi|]. split; [exact Ha|]. split.
  { intros x Hx Hx'. rewrite <- list_elem_of_In in Hx, Hx'. specialize (Hia x Hx).
    rewrite not_elem_of_app in Hia. tauto. }
  split.
  { intros x Hx. specialize (Hq x Hx). repeat rewrite not_elem_of_cons in Hq. tauto. }
  tauto.
Qed.

Lemma lookup_nth_lt (l : list nat) (i : nat) :
  (i < length l)%nat -> l !! i = Some (nth i l 0%nat).
Proof. intros H. destruct (nth_lookup_or_length l i 0%nat) as [?|?]; [assumption|lia]. Qed.

(** Reading one cell of a chain of [set_val]s, given the distinctness of
    the column ids. *)
Ltac peel :=
  repeat (rewrite set_val_read;
    match goal with |- context [Nat.eqb ?a ?b] =>
      let Heqb := fresh in
      destruct (Nat.eqb_spec a b) as [Heqb|Heqb];
        [first [reflexivity | exfalso; congruence]
        | first [exfalso; apply Heqb; reflexivity | clear Heqb]] end).

(** What [assign] writes, for the limb [idx] and flag [flag] of its scan. *)
Lemma assign_reads inst cfg lhs rhs idx flag :
  scan lhs rhs = (idx, flag) ->
  length lhs = length rhs -> (idx < length lhs)%nat -> (idx < length (indexes cfg))%nat ->
  NoDup (config_ids cfg) ->
  (flag = true -> is_byte (nth idx lhs 0) /\ is_byte (nth idx rhs 0) /\ nth idx lhs 0 <> nth idx rhs 0) ->
  exists inst', assign inst cfg lhs rhs = Some (inst', nth idx lhs 0 <? nth idx rhs 0) /\
   inst' (nth idx (indexes cfg) 0%nat) = Some (i64_to_ext (b2i flag)) /\
   (forall j, (j < length (indexes cfg))%nat -> j <> idx ->
      inst' (nth j (indexes cfg) 0%nat) = inst (nth j (indexes cfg) 0%nat)) /\
   (forall j, (j < length (acc_indexes cfg))%nat ->
      inst' (nth j (acc_indexes cfg) 0%nat) =
      Some (if Nat.leb j idx then i64_to_ext (b2i flag) else e_zero)) /\
   inst' (lhs_ne_byte cfg) = Some (i64_to_ext (nth idx lhs 0)) /\
   inst' (rhs_ne_byte cfg) = Some (i64_to_ext (nth idx rhs 0)) /\
   (exists inv, inst' (byte_diff_inv cfg) = Some inv /\
      if flag then e_mul (e_sub (i64_to_ext (nth idx lhs 0)) (i64_to_ext (nth idx rhs 0))) inv = e_one
      else inv = e_one) /\
   inst' (is_ltu cfg) = Some (i64_to_ext (b2i (nth idx lhs 0 <? nth idx rhs 0))).
Proof.
  intros Hs Hlen Hi Hix Hnd Hf.
  destruct (config_distinct cfg Hnd) as (Hni & Hna & Hia & Hq & D1 & D2 & D3 & D4 & D5 & D6).
  unfold assign. rewrite Hs.
  rewrite (nth_error_nth' (indexes cfg) 0%nat Hix).
  assert (Hir : (idx < length rhs)%nat) by lia.
  rewrite (nth_error_nth' lhs 0 Hi), (nth_error_nth' rhs 0 Hir).
  set (l := nth idx lhs 0). set (r := nth idx rhs 0).
  assert (Hinv : exists inv,
    (if flag then e_invert (e_sub (i64_to_ext l) (i64_to_ext r)) else Some e_one) = Some inv /\
    (if flag then e_mul (e_sub (i64_to_ext l) (i64_to_ext r)) inv = e_one else inv = e_one)).
  { destruct flag.
    - destruct (Hf eq_refl) as (Hl & Hr & Hne). apply byte_diff_invertible; assumption.
    - exists e_one. split; reflexivity. }
  destruct Hinv as [inv [Hinv Hinv']].
  cbv beta iota zeta. rewrite Hinv.
  eexists; split; [reflexivity|].
  set (base := set_val inst (nth idx (indexes cfg) 0%nat) (i64_to_ext (b2i flag))).
  unfold enumerate.
  pose proof (nth_In (indexes cfg) 0%nat Hix) as Hwin.
  pose proof (Hq _ (or_introl Hwin)) as (I1 & I2 & I3 & I4).
  split; [|split; [|split; [|split; [|split; [|split]]]]].
  - peel. rewrite fold_acc_notin by (apply Hia; exact Hwin).
    unfold base. rewrite set_val_read, Nat.eqb_refl. reflexivity.
  - intros j Hj Hne.
    pose proof (nth_In (indexes cfg) 0%nat Hj) as Hjin.
    pose proof (Hq _ (or_introl Hjin)) as (J1 & J2 & J3 & J4).
    peel. rewrite fold_acc_notin by (apply Hia; exact Hjin).
    unfold base. rewrite set_val_read.
    destruct (Nat.eqb_spec (nth j (indexes cfg) 0%nat) (nth idx (indexes cfg) 0%nat)) as [He|_];
      [|reflexivity].
    exfalso. apply Hne. apply (NoDup_lookup _ _ _ _ Hni (lookup_nth_lt _ _ Hj)).
    rewrite He. apply lookup_nth_lt. exact Hix.
  - intros j Hj.
    pose proof (nth_In (acc_indexes cfg) 0%nat Hj) as Hjin.
    pose proof (Hq _ (or_intror Hjin)) as (J1 & J2 & J3 & J4).
    peel. rewrite fold_acc_in by assumption. reflexivity.
  - peel.
  - peel.
  - exists inv. split; [peel|exact Hinv'].
  - peel.
Qed.

Lemma top_diff_unique (lhs rhs : list Z) (i j : nat) :
  top_diff lhs rhs i -> top_diff lhs rhs j -> i = j.
Proof.
  intros (Hi & Hdi & Hui) (Hj & Hdj & Huj).
  destruct (lt_eq_lt_dec i j) as [[Hlt|Heq]|Hgt]; [|exact Heq|].
  - exfalso. apply Hdj. apply Hui. lia.
  - exfalso. apply Hdi. apply Huj. lia.
Qed.

End LtuFacts.

Module LtuClaims.
Import Goldilocks Ltu LtuFacts.

(** C7: on two non-empty byte-limb operands of equal length (with at
    least as many [indexes] columns as limbs, and distinct column ids),
    [LtuInput::assign] succeeds and returns the unsigned less-than of the
    two values; at the most significant differing limb [idx] it writes
    [indexes[idx] = 1] (and no other [indexes] column),
    [acc_indexes[j] = 1] for [j <= idx] and [0] above, the two differing
    bytes, an inverse of their difference, and [is_ltu = lhs[idx] <
    rhs[idx]], the value it returns. *)
Theorem ltu_assign_spec (inst : Row) (cfg : LtuConfig) (lhs rhs : list Z) :
  length lhs = length rhs -> lhs <> [] ->
  Forall is_byte lhs -> Forall is_byte rhs ->
  (length lhs <= length (indexes cfg))%nat -> NoDup (config_ids cfg) ->
  exists inst' res, assign inst cfg lhs rhs = Some (inst', res) /\
    res = (limbs_value lhs <? limbs_value rhs) /\
    forall idx, top_diff lhs rhs idx ->
      res = (nth idx lhs 0 <? nth idx rhs 0) /\
      inst' (nth idx (indexes cfg) 0%nat) = Some (i64_to_ext 1) /\
      (forall j, (j < length (indexes cfg))%nat -> j <> idx ->
         inst' (nth j (indexes cfg) 0%nat) = inst (nth j (indexes cfg) 0%nat)) /\
      (forall j, (j < length (acc_indexes cfg))%nat ->
         inst' (nth j (acc_indexes cfg) 0%nat) =
         Some (if Nat.leb j idx then i64_to_ext 1 else e_zero)) /\
      inst' (lhs_ne_byte cfg) = Some (i64_to_ext (nth idx lhs 0)) /\
      inst' (rhs_ne_byte cfg) = Some (i64_to_ext (nth idx rhs 0)) /\
      (exists inv, inst' (byte_diff_inv cfg) = Some inv /\
         e_mul (e_sub (i64_to_ext (nth idx lhs 0)) (i64_to_ext (nth idx rhs 0))) inv = e_one) /\
      inst' (is_ltu cfg) = Some (i64_to_ext (b2i res)).
Proof.
  intros Hlen Hne Hl Hr Hix Hnd.
  destruct (top_diff_or_eq lhs rhs Hlen) as [[idx Htd]|<-].
  - pose proof (scan_top _ _ _ Hlen Htd) as Hs.
    pose proof Htd as (Hi & Hd & _).
    assert (Hbl : is_byte (nth idx lhs 0)) by (apply (proj1 (List.Forall_nth _ _) Hl); exact Hi).
    assert (Hbr : is_byte (nth idx rhs 0)) by (apply (proj1 (List.Forall_nth _ _) Hr); lia).
    assert (Hii : (idx < length (indexes cfg))%nat) by lia.
    destruct (assign_reads inst cfg lhs rhs idx true Hs Hlen Hi Hii Hnd
                (fun _ => conj Hbl (conj Hbr Hd)))
      as (inst' & Ha & R1 & R2 & R3 & R4 & R5 & R6 & R7).
    exists inst', (nth idx lhs 0 <? nth idx rhs 0). split; [exact Ha|]. split.
    + unfold Z.ltb. rewrite (limbs_compare lhs rhs idx Hlen Hl Hr Htd). reflexivity.
    + intros idx' Htd'. rewrite <- (top_diff_unique _ _ _ _ Htd Htd').
      split; [reflexivity|]. split; [exact R1|]. split; [exact R2|]. split; [exact R3|].
      split; [exact R4|]. split; [exact R5|]. split; [exact R6|]. exact R7.
  - assert (Hi : (0 < length lhs)%nat) by (destruct lhs; [contradiction|simpl; lia]).
    assert (Hii : (0 < length (indexes cfg))%nat) by lia.
    destruct (assign_reads inst cfg lhs lhs 0 false (scan_same lhs) eq_refl Hi Hii Hnd
                (fun H => ltac:(discriminate H)))
      as (inst' & Ha & _).
    exists inst', (nth 0 lhs 0 <? nth 0 lhs 0). split; [exact Ha|]. split.
    + rewrite !Z.ltb_irrefl. reflexivity.
    + intros idx (_ & Hd & _). contradiction.
Qed.

Lemma ltu_assign_spec_witness :
  (length example_lhs = length example_rhs /\ example_lhs <> [] /\
   Forall is_byte example_lhs /\ Forall is_byte example_rhs /\
   (length example_lhs <= length (indexes example_cfg))%nat /\
   NoDup (config_ids example_cfg)) /\
  exists inst' res, assign example_row example_cfg example_lhs example_rhs = Some (inst', res) /\
    res = (limbs_value example_lhs <? limbs_value example_rhs).
Proof.
  assert (H : length example_lhs = length example_rhs /\ example_lhs <> [] /\
   Forall is_byte example_lhs /\ Forall is_byte example_rhs /\
   (length example_lhs <= length (indexes example_cfg))%nat /\
   NoDup (config_ids example_cfg)).
  { split; [reflexivity|]. split; [discriminate|].
    split; [unfold example_lhs; repeat constructor; unfold is_byte; lia|].
    split; [unfold example_rhs; repeat constructor; unfold is_byte; lia|].
    split; [simpl; lia|].
    apply (bool_decide_unpack _). vm_compute. exact I. }
  split; [exact H|].
  destruct H as (H1 & H2 & H3 & H4 & H5 & H6).
  destruct (ltu_assign_spec example_row example_cfg example_lhs example_rhs H1 H2 H3 H4 H5 H6)
    as (inst' & res & Ha & Hres & _).
  exists inst', res. split; [exact Ha|exact Hres].
Defined.

(** C10: on equal operands (non-empty, with distinct column ids and at
    least one [indexes] column), [assign] writes zero to [indexes[0]] and
    to every [acc_indexes] column, limb 0 to both [lhs_ne_byte] and
    [rhs_ne_byte], one (not an inverse of zero) to [byte_diff_inv], zero
    to [is_ltu], and returns [false]. *)
Theorem ltu_assign_equal (inst : Row) (cfg : LtuConfig) (limbs : list Z) :
  limbs <> [] -> (0 < length (indexes cfg))%nat -> NoDup (config_ids cfg) ->
  exists inst', assign inst cfg limbs limbs = Some (inst', false) /\
    inst' (nth 0 (indexes cfg) 0%nat) = Some (i64_to_ext 0) /\
    (forall j, (j < length (acc_indexes cfg))%nat ->
       inst' (nth j (acc_indexes cfg) 0%nat) = Some e_zero) /\
    inst' (lhs_ne_byte cfg) = Some (i64_to_ext (nth 0 limbs 0)) /\
    inst' (rhs_ne_byte cfg) = Some (i64_to_ext (nth 0 limbs 0)) /\
    inst' (byte_diff_inv cfg) = Some e_one /\
    inst' (is_ltu cfg) = Some (i64_to_ext 0).
Proof.
  intros Hne Hii Hnd.
  assert (Hi : (0 < length limbs)%nat) by (destruct limbs; [contradiction|simpl; lia]).
  destruct (assign_reads inst cfg limbs limbs 0 false (scan_same limbs) eq_refl Hi Hii Hnd
              (fun H => ltac:(discriminate H)))
    as (inst' & Ha & R1 & _ & R3 & R4 & R5 & (inv & R6 & Hinv) & R7).
  rewrite Z.ltb_irrefl in Ha, R7.
  exists inst'. split; [exact Ha|]. split; [exact R1|]. split.
  { intros j Hj. rewrite (R3 j Hj). destruct (Nat.leb j 0); reflexivity. }
  split; [exact R4|]. split; [exact R5|]. split; [|exact R7].
  rewrite R6. f_equal. exact Hinv.
Qed.

Lemma ltu_assign_equal_witness :
  (example_lhs <> [] /\ (0 < length (indexes example_cfg))%nat /\
   NoDup (config_ids example_cfg)) /\
  exists inst', assign example_row example_cfg example_lhs example_lhs = Some (inst', false).
Proof.
  assert (H : example_lhs <> [] /\ (0 < length (indexes example_cfg))%nat /\
    NoDup (config_ids example_cfg)).
  { split; [discriminate|]. split; [simpl; lia|].
    apply (bool_decide_unpack _). vm_compute. exact I. }
  split; [exact H|].
  destruct H as (H1 & H2 & H3).
  destruct (ltu_assign_equal example_row example_cfg example_lhs H1 H2 H3) as (inst' & Ha & _).
  exists inst'. exact Ha.
Defined.

End LtuClaims.

(* ------------------------------------------------------------------ *)
(** ** Facts on [run_maybe_challenge] *)
(* ------------------------------------------------------------------ *)

Module MockFacts.
Import Expr Mock.

Lemma in_enumerate_off {A : Type} (l : list A) (off i : nat) (x : A) :
  In (i, x) (List.combine (seq off (length l)) l) <->
  (off <= i)%nat /\ nth_error l (i - off) = Some x.
Proof.
  revert off; induction l as [|a l IH]; intros off; simpl.
  - split; [tauto|]. intros [_ H]. destruct (i - off)%nat; discriminate.
  - rewrite IH. split.
    + intros [H|[H1 H2]].
      * inversion H; subst. rewrite Nat.sub_diag. split; [lia|reflexivity].
      * split; [lia|]. replace (i - off)%nat with (S (i - S off)) by lia. exact H2.
    + intros [H1 H2]. destruct (Nat.eq_dec i off) as [->|Hne].
      * left. rewrite Nat.sub_diag in H2. simpl in H2. congruence.
      * right. split; [lia|]. replace (i - off)%nat with (S (i - S off)) in H2 by lia. exact H2.
Qed.

Lemma in_enumerate {A : Type} (l : list A) (i : nat) (x : A) :
  In (i, x) (Ltu.enumerate l) <-> nth_error l i = Some x.
Proof.
  unfold Ltu.enumerate. rewrite in_enumerate_off. rewrite Nat.sub_0_r. split; [tauto|].
  intros H. split; [lia|exact H].
Qed.

Lemma nth_error_combine {A B : Type} (l1 : list A) (l2 : list B) (i : nat) a b :
  nth_error (List.combine l1 l2) i = Some (a, b) <->
  nth_error l1 i = Some a /\ nth_error l2 i = Some b.
Proof.
  revert l2 i; induction l1 as [|x l1 IH]; intros [|y l2] [|i]; simpl;
    try (split; [discriminate|intros [H1 H2]; discriminate]);
    try (split; [discriminate|intros [_ H]; destruct i; discriminate]).
  - split; [intros H; inversion H; subst; split; reflexivity|intros [H1 H2]; congruence].
  - apply IH.
Qed.

Lemma rom_types_complete (r : ROMType) : In r rom_types.
Proof. destruct r; simpl; tauto. Qed.

Section Aggregation.
Context {F E : Type} `{EF : ExtensionField F E}.
Variable wit_infer : Expression F E -> list F.
Variable wit_infer_ext : Expression F E -> list E.
Variable neg : Expression F E -> Expression F E.
Variable table_contains : list Z -> bool.

Lemma unpack_guard_some (c : bool) (e a b : Expression F E) :
  (if c then unpack_sum e else None) = Some (a, b) -> c = true /\ e = Sum a b.
Proof.
  destruct c; [|discriminate]. destruct e; simpl; try discriminate.
  intros H. inversion H. auto.
Qed.

Lemma unpack_guard_none (c : bool) (e : Expression F E) :
  (if c then unpack_sum e else None) = None -> ~ (c = true /\ unpack_sum e <> None).
Proof. destruct c; simpl; [|intros _ [H _]; discriminate]. intros H [_ H']. contradiction. Qed.

Lemma check_zero_in (expr : Expression F E) (name : string) (err : MockProverError) :
  In err (check_zero wit_infer neg (expr, name)) <->
  (exists i v, ~ (contains "require_equal" name = true /\ unpack_sum expr <> None) /\
     nth_error (wit_infer expr) i = Some v /\ v <> bf_zero /\
     err = AssertZeroError expr v name i) \/
  (exists lhs rhs i lv rv, expr = Sum lhs rhs /\ contains "require_equal" name = true /\
     nth_error (wit_infer lhs) i = Some lv /\ nth_error (wit_infer (neg rhs)) i = Some rv /\
     lv <> rv /\ err = AssertEqualError lhs (neg rhs) lv rv name i).
Proof.
  unfold check_zero.
  destruct (if contains "require_equal" name then unpack_sum expr else None) as [[a b]|] eqn:Hu.
  - apply unpack_guard_some in Hu as [Hc ->]. rewrite in_flat_map. split.
    + intros [[i [l r]] [Hin Hx]]. rewrite in_enumerate, nth_error_combine in Hin.
      destruct (decide (l = r)) as [|Hne]; [contradiction|].
      destruct Hx as [<-|[]]. right. exists a, b, i, l, r. tauto.
    + intros [(i & v & Hn & _)|(a' & b' & i & lv & rv & He & _ & H1 & H2 & Hne & ->)].
      * exfalso. apply Hn. split; [exact Hc|discriminate].
      * injection He as <- <-. exists (i, (lv, rv)). split.
        { rewrite in_enumerate, nth_error_combine. auto. }
        destruct (decide (lv = rv)); [contradiction|left; reflexivity].
  - apply unpack_guard_none in Hu. rewrite in_flat_map. split.
    + intros [[i v] [Hin Hx]]. rewrite in_enumerate in Hin.
      destruct (decide (v = bf_zero)) as [|Hne]; [contradiction|].
      destruct Hx as [<-|[]]. left. exists i, v. tauto.
    + intros [(i & v & _ & H1 & H2 & ->)|(a & b & i & lv & rv & -> & Hc & _)].
      * exists (i, v). split; [rewrite in_enumerate; exact H1|].
        destruct (decide (v = bf_zero)); [contradiction|left; reflexivity].
      * exfalso. apply Hu. split; [exact Hc|discriminate].
Qed.

Lemma check_lookup_in (expr : Expression F E) (name : string) (err : MockProverError) :
  In err (check_lookup wit_infer_ext table_contains (expr, name)) <->
  exists i v, nth_error (wit_infer_ext expr) i = Some v /\
    table_contains (as_bases v) = false /\ err = LookupError expr v name i.
Proof.
  unfold check_lookup. rewrite in_flat_map. split.
  - intros [[i v] [Hin Hx]]. rewrite in_enumerate in Hin.
    destruct (table_contains (as_bases v)) eqn:Ht; [destruct Hx|].
    destruct Hx as [<-|[]]. exists i, v. auto.
  - intros (i & v & H1 & H2 & ->). exists (i, v). rewrite in_enumerate, H2. simpl. auto.
Qed.

Lemma check_lkm_in (rom : ROMType) (cs ass : gmap Z nat) (err : @MockProverError F E) :
  In err (check_lkm rom cs ass) <->
  exists k, cs !! k <> ass !! k /\
    err = LkMultiplicityError rom k
            (Z.of_nat (default 0%nat (ass !! k)) - Z.of_nat (default 0%nat (cs !! k))) 0.
Proof.
  unfold check_lkm.
  destruct (decide (cs = ass)) as [->|Hne].
  - simpl. split; [tauto|]. intros (k & Hk & _). contradiction.
  - rewrite !in_app_iff, !in_map_iff, in_flat_map. split.
    + intros [(k & <- & Hk)|[(k & <- & Hk)|(k & Hk & Hx)]].
      * rewrite <- list_elem_of_In, elem_of_elements, elem_of_difference, !elem_of_dom in Hk.
        destruct Hk as [[c Hc] Hn]. exists k. rewrite Hc.
        destruct (cs !! k) eqn:Hcs; [exfalso; apply Hn; eexists; reflexivity|].
        split; [discriminate|]. simpl. f_equal; lia.
      * rewrite <- list_elem_of_In, elem_of_elements, elem_of_difference, !elem_of_dom in Hk.
        destruct Hk as [[c Hc] Hn]. exists k. rewrite Hc.
        destruct (ass !! k) eqn:Has; [exfalso; apply Hn; eexists; reflexivity|].
        split; [discriminate|]. simpl. f_equal; lia.
      * rewrite <- list_elem_of_In, elem_of_elements, elem_of_intersection, !elem_of_dom in Hk.
        destruct Hk as [[c1 H1] [c2 H2]]. rewrite H1, H2 in Hx. simpl in Hx.
        destruct (decide (c1 = c2)); [destruct Hx|]. destruct Hx as [<-|[]].
        exists k. rewrite H1, H2. split; [congruence|reflexivity].
    + intros (k & Hk & ->).
      destruct (cs !! k) as [c1|] eqn:H1, (ass !! k) as [c2|] eqn:H2.
      * right; right. exists k. split.
        { rewrite <- list_elem_of_In, elem_of_elements, elem_of_intersection, !elem_of_dom, H1, H2.
          split; eexists; reflexivity. }
        rewrite H1, H2. simpl. destruct (decide (c1 = c2)) as [->|]; [congruence|left; reflexivity].
      * right; left. exists k. split; [rewrite H1; simpl; f_equal; lia|].
        rewrite <- list_elem_of_In, elem_of_elements, elem_of_difference, !elem_of_dom, H1, H2.
        split; [eexists; reflexivity|intros [? ?]; discriminate].
      * left. exists k. split; [rewrite H2; simpl; f_equal; lia|].
        rewrite <- list_elem_of_In, elem_of_elements, elem_of_difference, !elem_of_dom, H1, H2.
        split; [eexists; reflexivity|intros [? ?]; discriminate].
      * congruence.
Qed.

Lemma collect_errors_in zero_exprs lk_exprs lkm_from_cs lkm (err : MockProverError) :
  In err (collect_errors wit_infer wit_infer_ext neg table_contains zero_exprs lk_exprs lkm_from_cs lkm) <->
  violation wit_infer wit_infer_ext neg table_contains zero_exprs lk_exprs lkm_from_cs lkm err.
Proof.
  unfold collect_errors. rewrite !in_app_iff, !in_flat_map. split.
  - intros [([expr name] & Hin & Hx)|[([expr name] & Hin & Hx)|Hx]].
    + apply check_zero_in in Hx as
        [(i & v & Hn & H1 & H2 & ->)|(a & b & i & lv & rv & -> & Hc & H1 & H2 & Hne & ->)].
      * eapply v_assert_zero; eassumption.
      * eapply v_assert_equal; eassumption.
    + apply check_lookup_in in Hx as (i & v & H1 & H2 & ->).
      eapply v_lookup; eassumption.
    + destruct lkm as [ass|]; [|destruct Hx].
      apply in_flat_map in Hx as (rom & _ & Hx).
      apply check_lkm_in in Hx as (k & Hk & ->).
      eapply v_lkm; [reflexivity|exact Hk].
  - intros Hv. destruct Hv as [expr name i v Hin Hn H1 H2|a b name i lv rv Hin Hc H1 H2 Hne
                             |expr name i v Hin H1 H2|ass rom k -> Hk].
    + left. exists (expr, name). split; [exact Hin|]. apply check_zero_in.
      left. exists i, v. repeat split; auto.
    + left. exists (Sum a b, name). split; [exact Hin|]. apply check_zero_in.
      right. exists a, b, i, lv, rv. repeat split; auto.
    + right; left. exists (expr, name). split; [exact Hin|]. apply check_lookup_in.
      exists i, v. repeat split; auto.
    + right; right. apply in_flat_map. exists rom. split; [apply rom_types_complete|].
      apply check_lkm_in. exists k. auto.
Qed.

End Aggregation.

End MockFacts.

Module MockClaims.
Import Expr Mock MockFacts.

(** C8: [run_maybe_challenge] returns [Ok] exactly when there is no
    violation, and otherwise a list holding every violation (and nothing
    else): an [AssertZeroError] per nonzero row of a zero-checked
    expression, an [AssertEqualError] per mismatching row of the left and
    negated right child of a [Sum] whose name contains [require_equal], a
    [LookupError] per row missing from the tables, and a
    [LkMultiplicityError] per key whose counts differ, in either
    direction, between the two multiplicity maps. *)
Theorem mock_prover_aggregates {F E : Type} `{EF : ExtensionField F E}
    (wit_infer : Expression F E -> list F) (wit_infer_ext : Expression F E -> list E)
    (neg : Expression F E -> Expression F E) (table_contains : list Z -> bool)
    (zero_exprs lk_exprs : list (Expression F E * string)) (lkm_from_cs : Lkm)
    (lkm : option Lkm) :
  (run_maybe_challenge wit_infer wit_infer_ext neg table_contains zero_exprs lk_exprs
     lkm_from_cs lkm = Ok <->
   forall err, ~ violation wit_infer wit_infer_ext neg table_contains zero_exprs lk_exprs
                   lkm_from_cs lkm err) /\
  (forall errs,
     run_maybe_challenge wit_infer wit_infer_ext neg table_contains zero_exprs lk_exprs
       lkm_from_cs lkm = Err errs ->
     forall err, In err errs <->
       violation wit_infer wit_infer_ext neg table_contains zero_exprs lk_exprs lkm_from_cs lkm err).
Proof.
  pose proof (collect_errors_in wit_infer wit_infer_ext neg table_contains
                zero_exprs lk_exprs lkm_from_cs lkm) as Hin.
  unfold run_maybe_challenge.
  destruct (collect_errors wit_infer wit_infer_ext neg table_contains zero_exprs lk_exprs
              lkm_from_cs lkm) as [|e0 es] eqn:Hc.
  - split.
    + split; [|reflexivity]. intros _ err Hv. apply Hin in Hv. destruct Hv.
    + intros errs H. discriminate.
  - split.
    + split; [discriminate|]. intros H. exfalso. apply (H e0). apply Hin. left. reflexivity.
    + intros errs H err. injection H as <-. apply Hin.
Qed.

Lemma mock_prover_aggregates_witness :
  example_run = Err example_errors /\
  forall err, In err example_errors <->
    @violation Z Z int_ext example_wit_infer (fun _ => []) (fun e => e) (fun _ => true)
      example_zero_exprs [] (fun _ => ∅) None err.
Proof.
  assert (Hr : example_run = Err example_errors) by (vm_compute; reflexivity).
  split; [exact Hr|].
  exact (proj2 (@mock_prover_aggregates Z Z int_ext example_wit_infer (fun _ => []) (fun e => e)
                  (fun _ => true) example_zero_exprs [] (fun _ => ∅) None) example_errors Hr).
Defined.

End MockClaims.

(* ------------------------------------------------------------------ *)
(** ** Query indices *)
(* ------------------------------------------------------------------ *)

Module QueryClaims.
Import Query.

(** A byte of [x] below bit 32 is a byte of [x mod 2^32]. *)
Lemma byte_of_low_word (x k : Z) :
  0 <= k <= 24 -> (x / 2 ^ k) mod 256 = ((x mod 2 ^ 32) / 2 ^ k) mod 256.
Proof.
  intros Hk.
  rewrite (Z.div_mod x (2 ^ 32)) at 1 by (apply Z.pow_nonzero; lia).
  replace (2 ^ 32 * (x / 2 ^ 32) + x mod 2 ^ 32)
    with (x mod 2 ^ 32 + (x / 2 ^ 32 * 2 ^ (24 - k) * 2 ^ 8) * 2 ^ k).
  2:{ rewrite <- !Z.mul_assoc, <- !Z.pow_add_r by lia.
      replace (24 - k + (8 + k)) with 32 by lia. ring. }
  rewrite Z.div_add by (apply Z.pow_nonzero; lia).
  change (2 ^ 8) with 256.
  rewrite Z.mod_add by lia. reflexivity.
Qed.

(** C9 (counterexample): the challenge [x = 1] with a codeword of size 8
    gives the query index 0, not [1 mod 8], whichever byte order
    [to_repr] uses. *)
Lemma query_index_not_mod :
  query_index repr_le 8 1 <> 1 mod 8 /\ query_index repr_be 8 1 <> 1 mod 8.
Proof. vm_compute. split; discriminate. Qed.

(** C9 (amended): the index [query_phase] derives from a challenge [x] is
    the big-endian [u32] of the first four bytes of [x.to_repr()], modulo
    the codeword size; with the little-endian encoding of the canonical
    integer this is the byte swap of its low 32 bits, modulo the codeword
    size. *)
Theorem query_index_le_bytes (size x : Z) :
  query_index repr_le size x = bswap32 (x mod 2 ^ 32) mod size.
Proof.
  unfold query_index, repr_le, u32_from_be_bytes, bswap32.
  cbn [seq map firstn fold_left Z.of_nat].
  f_equal.
  change (256 ^ Z.of_nat 0) with (2 ^ 0). change (256 ^ Z.of_nat 1) with (2 ^ 8).
  change (256 ^ Z.of_nat 2) with (2 ^ 16). change (256 ^ Z.of_nat 3) with (2 ^ 24).
  assert (H0 : (x mod 2 ^ 32) mod 256 = (x / 2 ^ 0) mod 256).
  { rewrite (byte_of_low_word x 0) by lia. rewrite Z.pow_0_r, Z.div_1_r. reflexivity. }
  rewrite H0, <- !(byte_of_low_word x) by lia.
  ring.
Qed.

End QueryClaims.

(* ------------------------------------------------------------------ *)
(** ** The foldable code *)
(* ------------------------------------------------------------------ *)

Module FoldFacts.
Import Foldable.
Local Open Scope nat_scope.

(** List lemmas *)

Lemma chunks_fuel_irrel {A : Type} (n : nat) (Hn : 0 < n) :
  forall f1 f2 (l : list A), length l <= f1 -> length l <= f2 ->
  chunks_fuel f1 n l = chunks_fuel f2 n l.
Proof.
  induction f1 as [|f1 IH]; intros [|f2] l H1 H2; destruct l as [|a l]; simpl in *;
    try reflexivity; try lia.
  f_equal. apply IH; rewrite length_skipn; simpl; lia.
Qed.

Lemma chunks_cons {A : Type} (n : nat) (l : list A) :
  0 < n -> l <> [] -> chunks n l = firstn n l :: chunks n (skipn n l).
Proof.
  intros Hn Hl. unfold chunks. destruct l as [|a l']; [congruence|].
  simpl length at 1. cbn [chunks_fuel]. f_equal.
  apply chunks_fuel_irrel; [lia| |lia]. rewrite length_skipn. simpl. lia.
Qed.

Lemma chunks_nil {A : Type} (n : nat) : chunks n (@nil A) = [].
Proof. reflexivity. Qed.

Lemma chunks_app {A : Type} (n q : nat) (x y : list A) :
  0 < n -> length x = q * n -> chunks n (x ++ y) = chunks n x ++ chunks n y.
Proof.
  intros Hn. revert x. induction q as [|q IH]; intros x Hx.
  - destruct x; [reflexivity|simpl in Hx; lia].
  - assert (Hx0 : x <> []) by (intros ->; simpl in Hx; lia).
    rewrite (chunks_cons n (x ++ y)) by (first [lia | destruct x; [congruence|discriminate]]).
    rewrite (chunks_cons n x) by assumption.
    rewrite firstn_app, skipn_app.
    assert (n - length x = 0) as -> by lia.
    rewrite firstn_O, app_nil_r, skipn_O.
    simpl. f_equal. apply IH. rewrite length_skipn. lia.
Qed.

Lemma chunks_length {A : Type} (n q : nat) (x : list A) :
  0 < n -> length x = q * n -> length (chunks n x) = q.
Proof.
  intros Hn. revert x. induction q as [|q IH]; intros x Hx.
  - destruct x; [reflexivity|simpl in Hx; lia].
  - rewrite chunks_cons by (try lia; intros ->; simpl in Hx; lia).
    simpl. f_equal. apply IH. rewrite length_skipn. lia.
Qed.

Lemma chunks_single {A : Type} (n : nat) (x : list A) :
  0 < n -> length x = n -> chunks n x = [x].
Proof.
  intros Hn Hx. rewrite chunks_cons by (try lia; intros ->; simpl in Hx; lia).
  rewrite firstn_all2 by lia. rewrite skipn_all2 by lia. reflexivity.
Qed.

Lemma chunks_exact_multiple {A : Type} (n q : nat) (x : list A) :
  0 < n -> length x = q * n -> chunks_exact n x = chunks n x.
Proof.
  intros Hn Hx. unfold chunks_exact. rewrite Hx, Nat.div_mul by lia.
  apply firstn_all2. rewrite (chunks_length n q) by assumption. lia.
Qed.

Lemma pairs_map_seq {A : Type} (f : nat -> A) (h : nat) :
  forall s, pairs (map f (seq s (2 * h))) =
            map (fun i => (f (s + 2 * i), f (s + 2 * i + 1))) (seq 0 h).
Proof.
  induction h as [|h IH]; intros s; [reflexivity|].
  replace (2 * S h) with (S (S (2 * h))) by lia.
  cbn [seq map pairs]. rewrite IH. rewrite <- seq_shift, map_map.
  f_equal; [f_equal; f_equal; lia|].
  apply map_ext. intros i. f_equal; f_equal; lia.
Qed.

Lemma enumerate_map_seq {A : Type} (g : nat -> A) (h : nat) :
  Ltu.enumerate (map g (seq 0 h)) = map (fun i => (i, g i)) (seq 0 h).
Proof.
  unfold Ltu.enumerate. rewrite length_map, length_seq.
  generalize 0. induction h as [|h IH]; intros s; [reflexivity|].
  simpl. f_equal. apply IH.
Qed.

Lemma map_option_map {A B : Type} (f : A -> option B) (g : A -> B) (l : list A) :
  (forall a, In a l -> f a = Some (g a)) -> map_option f l = Some (map g l).
Proof.
  induction l as [|a l IH]; intros Hf; [reflexivity|].
  simpl. rewrite (Hf a) by (left; reflexivity).
  rewrite IH by (intros b Hb; apply Hf; right; exact Hb). reflexivity.
Qed.

Lemma length_map2 {A B C : Type} (f : A -> B -> C) l l' :
  length (map2 f l l') = Nat.min (length l) (length l').
Proof.
  revert l'. induction l as [|a l IH]; intros [|b l']; simpl; auto.
Qed.

Lemma nth_map2 {A B C : Type} (f : A -> B -> C) l l' j da db dc :
  j < length l -> j < length l' -> nth j (map2 f l l') dc = f (nth j l da) (nth j l' db).
Proof.
  revert l' j. induction l as [|a l IH]; intros [|b l'] j Hj Hj'; simpl in *; try lia.
  destruct j; [reflexivity|]. apply IH; lia.
Qed.

Lemma nth_map_seq {A : Type} (f : nat -> A) (len j : nat) (d : A) :
  j < len -> nth j (map f (seq 0 len)) d = f j.
Proof.
  intros Hj. rewrite (nth_indep _ d (f 0)) by (rewrite length_map, length_seq; lia).
  rewrite map_nth, seq_nth by lia. reflexivity.
Qed.

(** Bit reversal *)

Lemma pow2_pos (n : nat) : 0 < 2 ^ n.
Proof. apply Nat.neq_0_lt_0, Nat.pow_nonzero. lia. Qed.

Lemma reverse_bits_lt (n : nat) : forall i, reverse_bits n i < 2 ^ n.
Proof.
  induction n as [|n IH]; intros i; [simpl; lia|].
  change (reverse_bits (S n) i) with ((i mod 2) * 2 ^ n + reverse_bits n (i / 2)).
  rewrite Nat.pow_succ_r'.
  specialize (IH (i / 2)). pose proof (Nat.mod_upper_bound i 2 ltac:(lia)).
  destruct (i mod 2) as [|[|]]; lia.
Qed.

Lemma reverse_bits_even (n i : nat) : reverse_bits (S n) (2 * i) = reverse_bits n i.
Proof.
  change (reverse_bits (S n) (2 * i)) with (((2 * i) mod 2) * 2 ^ n + reverse_bits n (2 * i / 2)).
  replace (2 * i) with (i * 2) by lia.
  rewrite Nat.Div0.mod_mul, Nat.div_mul by lia. lia.
Qed.

Lemma reverse_bits_odd (n i : nat) :
  reverse_bits (S n) (2 * i + 1) = 2 ^ n + reverse_bits n i.
Proof.
  change (reverse_bits (S n) (2 * i + 1))
    with (((2 * i + 1) mod 2) * 2 ^ n + reverse_bits n ((2 * i + 1) / 2)).
  replace (2 * i + 1) with (1 + i * 2) by lia.
  rewrite Nat.Div0.mod_add, Nat.div_add by lia. simpl. lia.
Qed.

Lemma reverse_bits_low (n : nat) :
  forall i, i < 2 ^ S n -> reverse_bits (S n) i = 2 * reverse_bits n (i mod 2 ^ n) + i / 2 ^ n.
Proof.
  induction n as [|n IH]; intros i Hi.
  - change (reverse_bits 1 i) with ((i mod 2) * 2 ^ 0 + reverse_bits 0 (i / 2)).
    cbn [reverse_bits]. change (2 ^ 1) with 2 in Hi. change (2 ^ 0) with 1.
    rewrite Nat.mod_small by lia. rewrite Nat.div_1_r. lia.
  - change (reverse_bits (S (S n)) i) with ((i mod 2) * 2 ^ S n + reverse_bits (S n) (i / 2)).
    rewrite IH.
    2:{ apply Nat.Div0.div_lt_upper_bound. rewrite Nat.pow_succ_r' in Hi. lia. }
    change (reverse_bits (S n) (i mod 2 ^ S n)) with
      ((i mod 2 ^ S n mod 2) * 2 ^ n + reverse_bits n (i mod 2 ^ S n / 2)).
    rewrite Nat.pow_succ_r'.
    rewrite (Nat.Div0.mod_mul_r i 2 (2 ^ n)).
    replace (i mod 2 + 2 * ((i / 2) mod 2 ^ n)) with (i mod 2 + ((i / 2) mod 2 ^ n) * 2) by lia.
    rewrite Nat.Div0.mod_add, Nat.div_add by lia.
    rewrite Nat.Div0.mod_mod. rewrite (Nat.div_small (i mod 2)) by (apply Nat.mod_upper_bound; lia).
    rewrite Nat.Div0.div_div, Nat.add_0_l. nia.
Qed.

Lemma reverse_bits_involutive (n : nat) :
  forall i, i < 2 ^ n -> reverse_bits n (reverse_bits n i) = i.
Proof.
  induction n as [|n IH]; intros i Hi; [simpl in *; lia|].
  rewrite (reverse_bits_low n) by apply reverse_bits_lt.
  assert (Hr : reverse_bits (S n) i = reverse_bits n (i / 2) + (i mod 2) * 2 ^ n)
    by (change (reverse_bits (S n) i) with ((i mod 2) * 2 ^ n + reverse_bits n (i / 2)); lia).
  pose proof (reverse_bits_lt n (i / 2)) as Hlt.
  pose proof (Nat.mod_upper_bound i 2 ltac:(lia)) as Hm.
  pose proof (pow2_pos n) as Hpos.
  rewrite Hr, Nat.Div0.mod_add, Nat.div_add by lia.
  rewrite (Nat.mod_small (reverse_bits n (i / 2))), (Nat.div_small (reverse_bits n (i / 2))) by lia.
  rewrite IH.
  2:{ apply Nat.Div0.div_lt_upper_bound. rewrite Nat.pow_succ_r' in Hi. lia. }
  pose proof (Nat.div_mod_eq i 2). lia.
Qed.

Lemma length_reverse_index_bits {A : Type} (d : A) (v : list A) :
  length (reverse_index_bits d v) = length v.
Proof. unfold reverse_index_bits. rewrite length_map, length_seq. reflexivity. Qed.

Lemma reverse_index_bits_pow2 {A : Type} (d : A) (v : list A) (n : nat) :
  length v = 2 ^ n ->
  reverse_index_bits d v = map (fun i => nth (reverse_bits n i) v d) (seq 0 (2 ^ n)).
Proof.
  intros Hv. unfold reverse_index_bits. rewrite Hv, Nat.log2_pow2 by lia. reflexivity.
Qed.

Lemma nth_reverse_index_bits {A : Type} (d : A) (v : list A) (n j : nat) :
  length v = 2 ^ n -> j < 2 ^ n ->
  nth j (reverse_index_bits d v) d = nth (reverse_bits n j) v d.
Proof.
  intros Hv Hj. rewrite (reverse_index_bits_pow2 d v n Hv), nth_map_seq by lia. reflexivity.
Qed.

Lemma nth_map_lt {A B : Type} (f : A -> B) (l : list A) (j : nat) (da : A) (db : B) :
  j < length l -> nth j (map f l) db = f (nth j l da).
Proof.
  intros Hj. rewrite (nth_indep _ db (f da)) by (rewrite length_map; lia).
  apply map_nth.
Qed.

Lemma log2_strict_pow2 (n : nat) : log2_strict (2 ^ n) = Some n.
Proof.
  unfold log2_strict. rewrite Nat.log2_pow2 by lia. rewrite Nat.eqb_refl. reflexivity.
Qed.

Section Field.
Context {F : Type} `{PrimeField F}.
Hypothesis Fth : ring_theory fzero fone fadd fmul fsub fneg (@eq F).
Add Ring Fring : Fth.

Lemma steps_length (start : F) (n : nat) : length (steps start n) = n.
Proof. revert start. induction n as [|n IH]; intros start; simpl; auto. Qed.

Lemma lin_nil (alpha : F) : lin_comb alpha [] [] [].
Proof. split; [reflexivity|]. split; [reflexivity|]. intros [|j]; simpl; ring. Qed.

Lemma lin_app (alpha : F) x1 y1 z1 x2 y2 z2 :
  lin_comb alpha x1 y1 z1 -> lin_comb alpha x2 y2 z2 ->
  lin_comb alpha (x1 ++ x2) (y1 ++ y2) (z1 ++ z2).
Proof.
  intros [Hy1 [Hz1 H1]] [Hy2 [Hz2 H2]].
  split; [rewrite !length_app; lia|]. split; [rewrite !length_app; lia|].
  intros j. destruct (Nat.lt_ge_cases j (length x1)).
  - rewrite !app_nth1 by lia. apply H1.
  - rewrite !app_nth2 by lia. rewrite Hy1, Hz1. apply H2.
Qed.

Lemma lin_firstn (alpha : F) n x y z :
  lin_comb alpha x y z -> lin_comb alpha (firstn n x) (firstn n y) (firstn n z).
Proof.
  intros [Hy [Hz Hj]]. split; [rewrite !length_firstn; lia|].
  split; [rewrite !length_firstn; lia|].
  intros j. rewrite !nth_firstn. destruct (j <? n); [apply Hj|ring].
Qed.

Lemma lin_skipn (alpha : F) n x y z :
  lin_comb alpha x y z -> lin_comb alpha (skipn n x) (skipn n y) (skipn n z).
Proof.
  intros [Hy [Hz Hj]]. split; [rewrite !length_skipn; lia|].
  split; [rewrite !length_skipn; lia|].
  intros j. rewrite !nth_skipn. apply Hj.
Qed.

Lemma butterfly_length (level : list F) (h : nat) (c : list F) :
  length c = h * 2 -> length level = h -> length (butterfly level h c) = h * 2.
Proof.
  intros Hc Hl. unfold butterfly.
  rewrite length_app, !length_map2, length_firstn, length_skipn. lia.
Qed.

Lemma nth_butterfly_lo (level : list F) (h : nat) (c : list F) (j : nat) :
  length c = h * 2 -> length level = h -> j < h ->
  nth j (butterfly level h c) fzero =
  fadd (nth j c fzero) (fmul (nth (h + j) c fzero) (nth j level fzero)).
Proof.
  intros Hc Hl Hj. unfold butterfly.
  rewrite app_nth1 by (rewrite !length_map2, length_firstn, length_skipn; lia).
  rewrite (nth_map2 _ _ _ _ fzero fzero) by (rewrite ?length_map2, ?length_firstn, ?length_skipn; lia).
  rewrite (nth_map2 _ _ _ _ fzero fzero) by (rewrite ?length_skipn; lia).
  rewrite nth_firstn, nth_skipn.
  assert (Hlt : (j <? h) = true) by (apply Nat.ltb_lt; lia). rewrite Hlt. reflexivity.
Qed.

Lemma nth_butterfly_hi (level : list F) (h : nat) (c : list F) (j : nat) :
  length c = h * 2 -> length level = h -> j < h ->
  nth (h + j) (butterfly level h c) fzero =
  fsub (nth j c fzero) (fmul (nth (h + j) c fzero) (nth j level fzero)).
Proof.
  intros Hc Hl Hj. unfold butterfly.
  rewrite app_nth2 by (rewrite !length_map2, length_firstn, length_skipn; lia).
  rewrite !length_map2, length_firstn, length_skipn.
  replace (h + j - Nat.min (Nat.min h (length c)) (Nat.min (length c - h) (length level))) with j
    by lia.
  rewrite (nth_map2 _ _ _ _ fzero fzero) by (rewrite ?length_map2, ?length_firstn, ?length_skipn; lia).
  rewrite (nth_map2 _ _ _ _ fzero fzero) by (rewrite ?length_skipn; lia).
  rewrite nth_firstn, nth_skipn.
  assert (Hlt : (j <? h) = true) by (apply Nat.ltb_lt; lia). rewrite Hlt. reflexivity.
Qed.

Lemma lin_butterfly (alpha : F) (level : list F) (h : nat) x y z :
  lin_comb alpha x y z -> length x = h * 2 -> length level = h ->
  lin_comb alpha (butterfly level h x) (butterfly level h y) (butterfly level h z).
Proof.
  intros [Hy [Hz Hj]] Hx Hl. unfold lin_comb.
  rewrite !butterfly_length by lia.
  split; [reflexivity|]. split; [reflexivity|].
  intros j. destruct (Nat.lt_ge_cases j h) as [Hjh|Hjh].
  - rewrite !nth_butterfly_lo by lia. rewrite (Hj j), (Hj (h + j)). ring.
  - destruct (Nat.lt_ge_cases j (h * 2)) as [Hj2|Hj2].
    + replace j with (h + (j - h)) by lia.
      rewrite !nth_butterfly_hi by lia. rewrite (Hj (j - h)), (Hj (h + (j - h))). ring.
    + rewrite !nth_overflow by (rewrite butterfly_length; lia). ring.
Qed.

Lemma level_step_app (level : list F) (h q : nat) x y :
  0 < h -> length x = q * (h * 2) ->
  level_step level h (x ++ y) = level_step level h x ++ level_step level h y.
Proof.
  intros Hh Hx. unfold level_step.
  rewrite (chunks_app (h * 2) q) by lia. rewrite map_app, concat_app. reflexivity.
Qed.

Lemma level_step_single (level : list F) (h : nat) x :
  0 < h -> length x = h * 2 -> level_step level h x = butterfly level h x.
Proof.
  intros Hh Hx. unfold level_step. rewrite chunks_single by lia. simpl. apply app_nil_r.
Qed.

Lemma level_step_nil (level : list F) (h : nat) : level_step level h [] = [].
Proof. reflexivity. Qed.

Lemma level_step_length (level : list F) (h : nat) (Hh : 0 < h) (Hl : length level = h) :
  forall q x, length x = q * (h * 2) -> length (level_step level h x) = length x.
Proof.
  induction q as [|q IH]; intros x Hx.
  - destruct x; [reflexivity|simpl in Hx; lia].
  - rewrite <- (firstn_skipn (h * 2) x).
    rewrite (level_step_app level h 1) by (rewrite ?length_firstn; lia).
    rewrite level_step_single by (rewrite ?length_firstn; lia).
    rewrite !length_app, butterfly_length by (rewrite ?length_firstn; lia).
    rewrite IH by (rewrite ?length_skipn; lia). rewrite length_firstn. lia.
Qed.

Lemma lin_level_step (alpha : F) (level : list F) (h : nat) (Hh : 0 < h) (Hl : length level = h) :
  forall q x y z, length x = q * (h * 2) -> lin_comb alpha x y z ->
  lin_comb alpha (level_step level h x) (level_step level h y) (level_step level h z).
Proof.
  induction q as [|q IH]; intros x y z Hx Hlin.
  - destruct Hlin as [Hy [Hz _]].
    destruct x; [|simpl in Hx; lia]. destruct y; [|simpl in Hy; lia].
    destruct z; [|simpl in Hz; lia]. apply lin_nil.
  - pose proof Hlin as [Hy [Hz _]].
    rewrite <- (firstn_skipn (h * 2) x), <- (firstn_skipn (h * 2) y), <- (firstn_skipn (h * 2) z).
    assert (Hx1 : length (firstn (h * 2) x) = h * 2) by (rewrite length_firstn; lia).
    assert (Hy1 : length (firstn (h * 2) y) = h * 2) by (rewrite length_firstn; lia).
    assert (Hz1 : length (firstn (h * 2) z) = h * 2) by (rewrite length_firstn; lia).
    rewrite (level_step_app level h 1 (firstn (h * 2) x)) by lia.
    rewrite (level_step_app level h 1 (firstn (h * 2) y)) by lia.
    rewrite (level_step_app level h 1 (firstn (h * 2) z)) by lia.
    rewrite (level_step_single level h (firstn (h * 2) x)) by lia.
    rewrite (level_step_single level h (firstn (h * 2) y)) by lia.
    rewrite (level_step_single level h (firstn (h * 2) z)) by lia.
    apply lin_app.
    + apply lin_butterfly; [apply lin_firstn; exact Hlin|rewrite length_firstn; lia|exact Hl].
    + apply (IH _ _ _); [rewrite length_skipn; lia|apply lin_skipn; exact Hlin].
Qed.

Section Levels.
Variables (log_rate : nat) (table : list (list F)).

Lemma fold_level_some (s n : nat) :
  (forall i, s <= i < s + n -> length (nth (i + log_rate) table []) = 2 ^ (i + log_rate)) ->
  forall x, fold_left (fold_level log_rate table) (seq s n) (Some (x, 2 ^ (s + log_rate))) =
            Some (levels log_rate table s n x, 2 ^ (s + n + log_rate)).
Proof.
  revert s. induction n as [|n IH]; intros s Hlv x.
  - simpl. rewrite Nat.add_0_r. reflexivity.
  - cbn [seq fold_left].
    assert (Hstep : fold_level log_rate table (Some (x, 2 ^ (s + log_rate))) s =
      Some (level_step (nth (s + log_rate) table []) (2 ^ (s + log_rate)) x,
            2 ^ (S s + log_rate))).
    { unfold fold_level. cbv beta iota zeta.
      rewrite Nat.div_mul by lia. rewrite Hlv by lia. rewrite Nat.eqb_refl.
      replace (S s + log_rate) with (S (s + log_rate)) by lia.
      rewrite Nat.pow_succ_r'. unfold level_step. f_equal. f_equal. apply Nat.mul_comm. }
    rewrite Hstep, IH by (intros i Hi; apply Hlv; lia).
    replace (S s + n + log_rate) with (s + S n + log_rate) by lia. reflexivity.
Qed.

Lemma levels_last (s n : nat) (x : list F) :
  levels log_rate table s (S n) x =
  level_step (nth (s + n + log_rate) table []) (2 ^ (s + n + log_rate))
    (levels log_rate table s n x).
Proof. unfold levels. rewrite seq_S, fold_left_app. reflexivity. Qed.

Lemma levels_length_app (s n : nat) :
  (forall i, s <= i < s + n -> length (nth (i + log_rate) table []) = 2 ^ (i + log_rate)) ->
  forall q x y, length x = q * 2 ^ (s + n + log_rate) ->
  length (levels log_rate table s n x) = length x /\
  levels log_rate table s n (x ++ y) = levels log_rate table s n x ++ levels log_rate table s n y.
Proof.
  revert s. induction n as [|n IH]; intros s Hlv q x y Hx; [split; reflexivity|].
  pose proof (pow2_pos (s + log_rate)) as Hp.
  assert (Hx' : length x = (q * 2 ^ n) * (2 ^ (s + log_rate) * 2)).
  { rewrite Hx. replace (s + S n + log_rate) with (S (n + (s + log_rate))) by lia.
    rewrite Nat.pow_succ_r', Nat.pow_add_r. lia. }
  change (levels log_rate table s (S n) ?v) with
    (levels log_rate table (S s) n
       (level_step (nth (s + log_rate) table []) (2 ^ (s + log_rate)) v)).
  rewrite (level_step_app _ _ (q * 2 ^ n) x y) by lia.
  assert (Hlen : length (level_step (nth (s + log_rate) table []) (2 ^ (s + log_rate)) x) =
                 length x).
  { apply (level_step_length _ _ Hp (Hlv s ltac:(lia)) (q * 2 ^ n)). exact Hx'. }
  destruct (IH (S s) ltac:(intros i Hi; apply Hlv; lia) q
              (level_step (nth (s + log_rate) table []) (2 ^ (s + log_rate)) x)
              (level_step (nth (s + log_rate) table []) (2 ^ (s + log_rate)) y)) as [H1 H2].
  { rewrite Hlen, Hx. f_equal. f_equal. lia. }
  split; [rewrite H1; exact Hlen|exact H2].
Qed.

Lemma lin_levels (alpha : F) (s n : nat) :
  (forall i, s <= i < s + n -> length (nth (i + log_rate) table []) = 2 ^ (i + log_rate)) ->
  forall q x y z, length x = q * 2 ^ (s + n + log_rate) -> lin_comb alpha x y z ->
  lin_comb alpha (levels log_rate table s n x) (levels log_rate table s n y)
    (levels log_rate table s n z).
Proof.
  revert s. induction n as [|n IH]; intros s Hlv q x y z Hx Hlin; [exact Hlin|].
  pose proof (pow2_pos (s + log_rate)) as Hp.
  assert (Hx' : length x = (q * 2 ^ n) * (2 ^ (s + log_rate) * 2)).
  { rewrite Hx. replace (s + S n + log_rate) with (S (n + (s + log_rate))) by lia.
    rewrite Nat.pow_succ_r', Nat.pow_add_r. lia. }
  change (levels log_rate table s (S n) ?v) with
    (levels log_rate table (S s) n
       (level_step (nth (s + log_rate) table []) (2 ^ (s + log_rate)) v)).
  apply (IH (S s) ltac:(intros i Hi; apply Hlv; lia) q).
  - rewrite (level_step_length _ _ Hp (Hlv s ltac:(lia)) (q * 2 ^ n)) by exact Hx'.
    rewrite Hx. f_equal. f_equal. lia.
  - apply (lin_level_step alpha _ _ Hp (Hlv s ltac:(lia)) (q * 2 ^ n)); assumption.
Qed.

End Levels.

Lemma horner_lin (alpha x : F) :
  forall c c' c'', lin_comb alpha c c' c'' ->
  horner c'' x = fadd (horner c x) (fmul alpha (horner c' x)).
Proof.
  induction c as [|a c IH]; intros c' c'' [Hy [Hz Hj]].
  - destruct c'; [|discriminate]. destruct c''; [|discriminate]. simpl. ring.
  - destruct c' as [|a' c']; [discriminate|]. destruct c'' as [|a'' c'']; [discriminate|].
    simpl. rewrite (IH c' c'').
    + pose proof (Hj 0) as H0. simpl in H0. rewrite H0. ring.
    + split; [simpl in Hy; lia|]. split; [simpl in Hz; lia|].
      intros j. exact (Hj (S j)).
Qed.

Lemma lin_enc_chunk (alpha : F) (domain : list F) c c' c'' :
  lin_comb alpha c c' c'' ->
  lin_comb alpha (map (fun x => horner c x) domain) (map (fun x => horner c' x) domain)
    (map (fun x => horner c'' x) domain).
Proof.
  intros Hlin. split; [rewrite !length_map; reflexivity|].
  split; [rewrite !length_map; reflexivity|].
  intros j. destruct (Nat.lt_ge_cases j (length domain)).
  - rewrite !(nth_map_lt _ _ _ fzero) by assumption. apply horner_lin. exact Hlin.
  - rewrite !nth_overflow by (rewrite length_map; lia). ring.
Qed.

Section Basecode.
Variables (rate ms : nat) (Hms : 0 < ms).

Lemma chunks_exact_app (q : nat) (u v : list F) :
  length u = q * ms -> chunks_exact ms (u ++ v) = chunks_exact ms u ++ chunks_exact ms v.
Proof.
  intros Hu. unfold chunks_exact.
  rewrite length_app, Hu, Nat.div_add_l by lia.
  rewrite (chunks_app ms q) by assumption.
  rewrite Nat.div_mul by lia.
  rewrite firstn_app, (chunks_length ms q u) by assumption.
  rewrite firstn_all2 by (rewrite (chunks_length ms q u) by assumption; lia).
  rewrite (firstn_all2 (n := q)) by (rewrite (chunks_length ms q u) by assumption; lia).
  f_equal. f_equal. lia.
Qed.

Lemma basecode_app (q : nat) (u v : list F) :
  length u = q * ms ->
  concat (encode_rs_basecode (u ++ v) rate ms) =
  concat (encode_rs_basecode u rate ms) ++ concat (encode_rs_basecode v rate ms).
Proof.
  intros Hu. unfold encode_rs_basecode.
  rewrite (chunks_exact_app q) by assumption. rewrite map_app, concat_app. reflexivity.
Qed.

Lemma basecode_single (u : list F) :
  length u = ms ->
  encode_rs_basecode u rate ms = [map (fun x => horner u x) (steps fone (ms * rate))].
Proof.
  intros Hu. unfold encode_rs_basecode.
  rewrite (chunks_exact_multiple ms 1) by lia. rewrite chunks_single by lia. reflexivity.
Qed.

Lemma basecode_cons (u : list F) :
  ms <= length u ->
  encode_rs_basecode u rate ms =
  map (fun x => horner (firstn ms u) x) (steps fone (ms * rate)) ::
  encode_rs_basecode (skipn ms u) rate ms.
Proof.
  intros Hu. rewrite <- (firstn_skipn ms u) at 1. unfold encode_rs_basecode.
  rewrite (chunks_exact_app 1) by (rewrite length_firstn; lia).
  rewrite (chunks_exact_multiple ms 1) by (rewrite ?length_firstn; lia).
  rewrite chunks_single by (rewrite ?length_firstn; lia). reflexivity.
Qed.

Lemma basecode_nil : encode_rs_basecode [] rate ms = [].
Proof. unfold encode_rs_basecode, chunks_exact. rewrite chunks_nil, firstn_nil. reflexivity. Qed.

Lemma basecode_length :
  forall q (u : list F), length u = q * ms ->
  length (concat (encode_rs_basecode u rate ms)) = q * (ms * rate).
Proof.
  induction q as [|q IH]; intros u Hu.
  - destruct u; [rewrite basecode_nil; reflexivity|simpl in Hu; lia].
  - rewrite <- (firstn_skipn ms u).
    rewrite (basecode_app 1) by (rewrite length_firstn; lia).
    rewrite basecode_single by (rewrite length_firstn; lia).
    rewrite length_app, IH by (rewrite length_skipn; lia).
    simpl. rewrite app_nil_r, length_map, steps_length. lia.
Qed.

Lemma lin_basecode (alpha : F) :
  forall q x y z, length x = q * ms -> lin_comb alpha x y z ->
  lin_comb alpha (concat (encode_rs_basecode x rate ms)) (concat (encode_rs_basecode y rate ms))
    (concat (encode_rs_basecode z rate ms)).
Proof.
  induction q as [|q IH]; intros x y z Hx Hlin.
  - destruct Hlin as [Hy [Hz _]].
    destruct x; [|simpl in Hx; lia]. destruct y; [|simpl in Hy; lia].
    destruct z; [|simpl in Hz; lia]. rewrite basecode_nil. apply lin_nil.
  - pose proof Hlin as [Hy [Hz _]].
    assert (Hx1 : length (firstn ms x) = 1 * ms) by (rewrite length_firstn; lia).
    assert (Hy1 : length (firstn ms y) = 1 * ms) by (rewrite length_firstn; lia).
    assert (Hz1 : length (firstn ms z) = 1 * ms) by (rewrite length_firstn; lia).
    rewrite <- (firstn_skipn ms x), <- (firstn_skipn ms y), <- (firstn_skipn ms z).
    rewrite (basecode_app 1 (firstn ms x)), (basecode_app 1 (firstn ms y)),
      (basecode_app 1 (firstn ms z)) by assumption.
    rewrite (basecode_single (firstn ms x)), (basecode_single (firstn ms y)),
      (basecode_single (firstn ms z)) by lia.
    simpl concat. rewrite !app_nil_r.
    apply lin_app.
    + apply lin_enc_chunk, lin_firstn. exact Hlin.
    + apply (IH _ _ _); [rewrite length_skipn; lia|apply lin_skipn; exact Hlin].
Qed.

End Basecode.

Lemma commit_codeword_some (log_rate basecode j : nat) (table : list (list F)) (m : list F) :
  (forall i, basecode <= i < j -> length (nth (i + log_rate) table []) = 2 ^ (i + log_rate)) ->
  basecode <= j -> length m = 2 ^ j ->
  commit_codeword log_rate basecode table m =
  Some (levels log_rate table basecode (j - basecode)
          (concat (encode_rs_basecode m (2 ^ log_rate) (2 ^ basecode)))).
Proof.
  intros Hlv Hbj Hm. unfold commit_codeword, evaluate_over_foldable_domain_generic_basecode.
  rewrite Hm, !log2_strict_pow2.
  pose proof (pow2_pos basecode) as Hb.
  assert (Hle : 2 ^ basecode <= length m)
    by (rewrite Hm; apply Nat.pow_le_mono_r; lia).
  rewrite (basecode_cons (2 ^ log_rate) (2 ^ basecode) Hb m Hle).
  cbv beta iota. rewrite length_map, steps_length.
  replace (2 ^ basecode * 2 ^ log_rate) with (2 ^ (basecode + log_rate))
    by apply Nat.pow_add_r.
  rewrite fold_level_some by exact (fun i Hi => Hlv i ltac:(lia)).
  reflexivity.
Qed.

Lemma interpolate_fold (x w a b alpha : F) :
  fmul (fsub (fsub fzero x) x) w = fone ->
  interpolate2_weights ((x, fadd a (fmul b x)), (fneg x, fsub a (fmul b x))) w alpha =
  fadd a (fmul alpha b).
Proof.
  intros Hw. unfold interpolate2_weights.
  transitivity (fadd (fadd a (fmul b x))
                  (fmul (fmul (fsub alpha x) b) (fmul (fsub (fsub fzero x) x) w))); [ring|].
  rewrite Hw. ring.
Qed.

Lemma lin_fold_message (alpha : F) (K : nat) (m : list F) :
  length m = 2 ^ S K ->
  lin_comb alpha (firstn (2 ^ K) m) (skipn (2 ^ K) m)
    (reverse_index_bits fzero (fold_bitreversed_message true (reverse_index_bits fzero m) alpha)).
Proof.
  intros Hm.
  pose proof (pow2_pos K) as HK.
  assert (Hmb : reverse_index_bits fzero m =
                map (fun t => nth (reverse_bits (S K) t) m fzero) (seq 0 (2 * 2 ^ K))).
  { rewrite (reverse_index_bits_pow2 fzero m (S K) Hm). rewrite Nat.pow_succ_r'. reflexivity. }
  set (FM := map (fun i => fadd (nth (reverse_bits K i) m fzero)
                             (fmul (nth (2 ^ K + reverse_bits K i) m fzero) alpha))
               (seq 0 (2 ^ K))).
  assert (Hfm : fold_bitreversed_message true (reverse_index_bits fzero m) alpha = FM).
  { unfold fold_bitreversed_message. rewrite Hmb, pairs_map_seq, map_map.
    apply map_ext. intros i. cbn beta iota.
    rewrite Nat.add_0_l, reverse_bits_even, reverse_bits_odd. reflexivity. }
  assert (HFM : length FM = 2 ^ K) by (unfold FM; rewrite length_map, length_seq; reflexivity).
  rewrite Hfm. rewrite Nat.pow_succ_r' in Hm.
  split; [rewrite length_firstn, length_skipn; lia|].
  split; [rewrite length_reverse_index_bits, length_firstn; lia|].
  intros j. destruct (Nat.lt_ge_cases j (2 ^ K)) as [Hj|Hj].
  - rewrite (nth_reverse_index_bits fzero FM K j HFM Hj).
    unfold FM. rewrite nth_map_seq by apply reverse_bits_lt.
    rewrite reverse_bits_involutive by exact Hj.
    rewrite nth_firstn, nth_skipn.
    assert (Hlt : (j <? 2 ^ K) = true) by (apply Nat.ltb_lt; exact Hj). rewrite Hlt. ring.
  - rewrite !nth_overflow
      by (rewrite ?length_reverse_index_bits, ?length_firstn, ?length_skipn; lia).
    ring.
Qed.

End Field.

Section Tables.
Context {F : Type} `{PrimeField F}.

Lemma unflatten_level (lg_n : nat) (flat : list F) (l j : nat) :
  1 <= l -> l < lg_n -> length flat = 2 ^ lg_n ->
  length (nth l (snd (unflatten_tables lg_n flat)) []) = 2 ^ l /\
  (j < 2 ^ l -> nth j (nth l (snd (unflatten_tables lg_n flat)) []) fzero =
                nth (2 ^ l + j) flat fzero).
Proof.
  intros Hl1 Hl2 Hf. unfold unflatten_tables. cbn [snd].
  rewrite (nth_map_lt _ _ _ 0) by (rewrite length_seq; lia).
  rewrite seq_nth, Nat.add_0_l by lia. unfold table_slice.
  assert (Hl0 : Nat.eqb l 0 = false) by (apply Nat.eqb_neq; lia). rewrite Hl0.
  assert (Hpow : 2 ^ l + 2 ^ l <= 2 ^ lg_n).
  { replace (2 ^ l + 2 ^ l) with (2 ^ S l) by (rewrite Nat.pow_succ_r'; lia).
    apply Nat.pow_le_mono_r; lia. }
  split.
  - rewrite length_firstn, length_skipn. lia.
  - intros Hj. rewrite nth_firstn, nth_skipn.
    assert (Hlt : (j <? 2 ^ l) = true) by (apply Nat.ltb_lt; exact Hj). rewrite Hlt. reflexivity.
Qed.

Lemma unflatten_weights (lg_n : nat) (flat : list F) (l : nat) :
  1 <= l -> l < lg_n -> length flat = 2 ^ lg_n ->
  exists wl, nth_error (fst (unflatten_tables lg_n flat)) l = Some wl /\
  forall i, i < 2 ^ l ->
    nth_error wl i =
    Some (nth (2 ^ l + reverse_bits l i) flat fzero,
          finv (fsub (fsub fzero (nth (2 ^ l + reverse_bits l i) flat fzero))
                  (nth (2 ^ l + reverse_bits l i) flat fzero))).
Proof.
  intros Hl1 Hl2 Hf. unfold unflatten_tables. cbn [fst].
  set (ws := List.combine flat (map (fun el => finv (fsub (fsub fzero el) el)) flat)).
  eexists. split.
  - rewrite nth_error_map, (nth_error_nth' _ 0) by (rewrite length_seq; lia).
    rewrite seq_nth, Nat.add_0_l by lia. reflexivity.
  - intros i' Hi'. cbn beta.
    assert (Hpow : 2 ^ l + 2 ^ l <= 2 ^ lg_n).
    { replace (2 ^ l + 2 ^ l) with (2 ^ S l) by (rewrite Nat.pow_succ_r'; lia).
      apply Nat.pow_le_mono_r; lia. }
    assert (Hws : length ws = 2 ^ lg_n)
      by (unfold ws; rewrite length_combine, length_map; lia).
    unfold table_slice.
    assert (Hl0 : Nat.eqb l 0 = false) by (apply Nat.eqb_neq; lia). rewrite Hl0.
    assert (Hsl : length (firstn (2 ^ l) (skipn (2 ^ l) ws)) = 2 ^ l)
      by (rewrite length_firstn, length_skipn; lia).
    rewrite (nth_error_nth' _ (fzero, fzero)) by (rewrite length_reverse_index_bits; lia).
    rewrite (nth_reverse_index_bits _ _ l) by assumption.
    pose proof (reverse_bits_lt l i') as Hr.
    rewrite nth_firstn, nth_skipn.
    assert (Hlt : (reverse_bits l i' <? 2 ^ l) = true) by (apply Nat.ltb_lt; exact Hr).
    rewrite Hlt. unfold ws. rewrite combine_nth by (rewrite length_map; reflexivity).
    rewrite (nth_map_lt _ _ _ fzero) by lia. reflexivity.
Qed.

End Tables.
(** The five-element field satisfies the ring laws. *)
Lemma gf5_ring :
  ring_theory (@fzero _ GF5.gf5_field) fone fadd fmul fsub fneg (@eq GF5.gf5).
Proof.
  constructor; intros;
    repeat match goal with x : GF5.gf5 |- _ => destruct x end; reflexivity.
Qed.

End FoldFacts.

Module FoldClaims.
Import Foldable FoldFacts.
Local Open Scope nat_scope.

Section Commutation.
Context {F : Type} `{PrimeField F}.

(** C2 (codeword fold commutativity). Encode a message of [2^k]
    coefficients ([k > basecode]) with the tables built from the field
    elements [flat_table], each of which has [-2x] invertible; bit-reverse
    the codeword and fold it at [alpha] with the weights of
    [table_w_weights]. The result is the bit reversal of the encoding of the
    message folded at [alpha]: bit-reverse the message, fold the pairs
    [y0 + alpha * y1], and undo the bit reversal. *)
Theorem codeword_fold_commutes
    (Fth : ring_theory fzero fone fadd fmul fsub fneg (@eq F))
    (lg_n log_rate basecode k : nat) (flat_table msg : list F) (alpha : F) :
  1 <= basecode + log_rate -> basecode < k -> k + log_rate <= lg_n ->
  length flat_table = 2 ^ lg_n ->
  Forall (fun x => fmul (fsub (fsub fzero x) x) (finv (fsub (fsub fzero x) x)) = fone) flat_table ->
  length msg = 2 ^ k ->
  exists cw cw',
    commit_codeword log_rate basecode (snd (unflatten_tables lg_n flat_table)) msg = Some cw /\
    commit_codeword log_rate basecode (snd (unflatten_tables lg_n flat_table))
      (reverse_index_bits fzero
         (fold_bitreversed_message true (reverse_index_bits fzero msg) alpha)) = Some cw' /\
    basefold_one_round_by_interpolation_weights (fst (unflatten_tables lg_n flat_table))
      (k + log_rate - 1) (reverse_index_bits fzero cw) alpha =
    Some (reverse_index_bits fzero cw').
Proof.
  intros Hbr Hbk Hkl Hflat Hw Hm.
  destruct k as [|K]; [lia|].
  set (table := snd (unflatten_tables lg_n flat_table)).
  set (h := 2 ^ (K + log_rate)).
  assert (Hh : 0 < h) by apply pow2_pos.
  assert (Hlv : forall i, basecode <= i < S K ->
                length (nth (i + log_rate) table []) = 2 ^ (i + log_rate)).
  { intros i Hi. apply (unflatten_level lg_n flat_table (i + log_rate) 0); lia. }
  set (mL := firstn (2 ^ K) msg). set (mR := skipn (2 ^ K) msg).
  set (m' := reverse_index_bits fzero
               (fold_bitreversed_message true (reverse_index_bits fzero msg) alpha)).
  pose proof (lin_fold_message Fth alpha K msg Hm) as Hlin. fold mL mR m' in Hlin.
  pose proof (pow2_pos K) as HK. pose proof (pow2_pos basecode) as Hb.
  assert (HmK : length msg = 2 * 2 ^ K) by (rewrite Hm; apply Nat.pow_succ_r').
  assert (HmL : length mL = 2 ^ (K - basecode) * 2 ^ basecode).
  { unfold mL. rewrite length_firstn, <- Nat.pow_add_r.
    replace (K - basecode + basecode) with K by lia. lia. }
  assert (Hm'K : length m' = 2 ^ K).
  { destruct Hlin as [_ [Hz _]]. rewrite Hz. unfold mL. rewrite length_firstn. lia. }
  (* the two codewords *)
  set (XL := concat (encode_rs_basecode mL (2 ^ log_rate) (2 ^ basecode))).
  set (XR := concat (encode_rs_basecode mR (2 ^ log_rate) (2 ^ basecode))).
  set (X' := concat (encode_rs_basecode m' (2 ^ log_rate) (2 ^ basecode))).
  assert (HXL : length XL = 1 * 2 ^ (basecode + (K - basecode) + log_rate)).
  { unfold XL. rewrite (basecode_length _ _ Hb (2 ^ (K - basecode))) by exact HmL.
    rewrite <- !Nat.pow_add_r. rewrite Nat.mul_1_l. f_equal. lia. }
  set (EL := levels log_rate table basecode (K - basecode) XL).
  set (ER := levels log_rate table basecode (K - basecode) XR).
  set (E' := levels log_rate table basecode (K - basecode) X').
  assert (HlvK : forall i, basecode <= i < basecode + (K - basecode) ->
                 length (nth (i + log_rate) table []) = 2 ^ (i + log_rate))
    by (intros i Hi; apply Hlv; lia).
  destruct (levels_length_app log_rate table basecode (K - basecode) HlvK 1 XL XR HXL)
    as [HEL Happ].
  assert (HEL' : length EL = h).
  { unfold EL. rewrite HEL, HXL. unfold h. rewrite Nat.mul_1_l. f_equal. lia. }
  assert (HlinX : lin_comb alpha XL XR X').
  { apply (lin_basecode Fth (2 ^ log_rate) (2 ^ basecode) Hb alpha (2 ^ (K - basecode)));
      assumption. }
  assert (HlinE : lin_comb alpha EL ER E').
  { apply (lin_levels Fth log_rate table alpha basecode (K - basecode) HlvK 1); assumption. }
  pose proof HlinE as [HER [HE' HlinEj]].
  set (level := nth (K + log_rate) table []).
  assert (Hlevel : length level = h).
  { unfold level, h. apply (unflatten_level lg_n flat_table (K + log_rate) 0); lia. }
  exists (butterfly level h (EL ++ ER)), E'.
  split; [|split].
  - rewrite (commit_codeword_some log_rate basecode (S K) table msg Hlv) by lia.
    f_equal.
    replace (S K - basecode) with (S (K - basecode)) by lia.
    rewrite levels_last.
    rewrite <- (firstn_skipn (2 ^ K) msg). fold mL mR.
    rewrite (basecode_app (2 ^ log_rate) (2 ^ basecode) Hb (2 ^ (K - basecode))) by exact HmL.
    fold XL XR. rewrite Happ. fold EL ER.
    replace (basecode + (K - basecode) + log_rate) with (K + log_rate) by lia.
    fold level h. apply level_step_single; [exact Hh|].
    rewrite length_app. lia.
  - rewrite (commit_codeword_some log_rate basecode K table m') by (first [lia | intros i Hi; apply Hlv; lia]).
    reflexivity.
  - (* folding the bit-reversed codeword *)
    replace (S K + log_rate - 1) with (K + log_rate) by lia.
    destruct (unflatten_weights lg_n flat_table (K + log_rate) ltac:(lia) ltac:(lia) Hflat)
      as [wl [Hwl Hwli]].
    unfold basefold_one_round_by_interpolation_weights. rewrite Hwl.
    assert (Hcw : length (butterfly level h (EL ++ ER)) = 2 ^ S (K + log_rate)).
    { rewrite butterfly_length by (rewrite ?length_app; lia). rewrite Nat.pow_succ_r'. unfold h. lia. }
    rewrite (reverse_index_bits_pow2 fzero _ (S (K + log_rate)) Hcw).
    rewrite (reverse_index_bits_pow2 fzero E' (K + log_rate)) by (unfold h in HEL'; lia).
    rewrite Nat.pow_succ_r'. fold h.
    rewrite pairs_map_seq, enumerate_map_seq.
    rewrite (map_option_map _ (fun p => nth (reverse_bits (K + log_rate) (fst p)) E' fzero)).
    { rewrite map_map. reflexivity. }
    intros p Hin. apply in_map_iff in Hin as [i' [<- Hin]]. apply in_seq in Hin.
    assert (Hi : i' < h) by lia.
    rewrite Nat.add_0_l, reverse_bits_even, reverse_bits_odd.
    cbv beta iota. cbn [fst].
    pose proof (reverse_bits_lt (K + log_rate) i') as HJ. fold h in HJ.
    set (J := reverse_bits (K + log_rate) i') in *.
    rewrite (Hwli i') by exact Hi. fold h J.
    set (x := nth (h + J) flat_table fzero).
    assert (Hlx : nth J level fzero = x).
    { unfold level, x, h. apply (unflatten_level lg_n flat_table (K + log_rate) J); lia. }
    rewrite (nth_butterfly_lo level h (EL ++ ER) J) by (rewrite ?length_app; lia).
    rewrite (nth_butterfly_hi level h (EL ++ ER) J) by (rewrite ?length_app; lia).
    rewrite app_nth1 by lia. rewrite app_nth2 by lia.
    replace (h + J - length EL) with J by lia.
    rewrite Hlx.
    rewrite (interpolate_fold Fth).
    + f_equal. symmetry. apply HlinEj.
    + rewrite List.Forall_forall in Hw. apply Hw. unfold x. apply nth_In.
      assert (2 ^ S (K + log_rate) <= 2 ^ lg_n) by (apply Nat.pow_le_mono_r; lia).
      rewrite Nat.pow_succ_r' in H0. unfold h in *. lia.
Qed.

End Commutation.

(** Witness for C2: a message of four elements of the five-element field,
    rate [2^1], base messages of [2^1] coefficients. *)
Lemma codeword_fold_commutes_witness :
  (Forall (fun x => fmul (fsub (fsub fzero x) x) (finv (fsub (fsub fzero x) x)) = fone)
     GF5.example_flat_table /\ length GF5.example_msg = 2 ^ 2) /\
  exists cw cw',
    commit_codeword 1 1 (snd (unflatten_tables 3 GF5.example_flat_table)) GF5.example_msg
      = Some cw /\
    commit_codeword 1 1 (snd (unflatten_tables 3 GF5.example_flat_table))
      (reverse_index_bits fzero
         (fold_bitreversed_message true (reverse_index_bits fzero GF5.example_msg) GF5.G2))
      = Some cw' /\
    basefold_one_round_by_interpolation_weights (fst (unflatten_tables 3 GF5.example_flat_table))
      (2 + 1 - 1) (reverse_index_bits fzero cw) GF5.G2 =
    Some (reverse_index_bits fzero cw').
Proof.
  assert (Hw : Forall (fun x => fmul (fsub (fsub fzero x) x) (finv (fsub (fsub fzero x) x)) = fone)
                 GF5.example_flat_table) by (repeat constructor).
  split; [split; [exact Hw|reflexivity]|].
  apply (codeword_fold_commutes gf5_ring 3 1 1 2 GF5.example_flat_table GF5.example_msg GF5.G2);
    [lia|lia|lia|reflexivity|exact Hw|reflexivity].
Defined.

End FoldClaims.

Module LtFacts.
Import Goldilocks Ltu LtuFacts Lt.

(** [assign] succeeds on byte operands of equal length with enough
    [indexes] columns, and returns the unsigned less-than. *)
Lemma assign_result inst cfg lhs rhs :
  length lhs = length rhs -> lhs <> [] ->
  Forall is_byte lhs -> Forall is_byte rhs ->
  (length lhs <= length (indexes cfg))%nat ->
  exists inst', assign inst cfg lhs rhs = Some (inst', limbs_value lhs <? limbs_value rhs) /\
    inst' (Ltu.is_ltu cfg) = Some (i64_to_ext (b2i (limbs_value lhs <? limbs_value rhs))).
Proof.
  intros Hlen Hne Hl Hr Hix.
  assert (Hgen : forall idx flag, scan lhs rhs = (idx, flag) -> (idx < length lhs)%nat ->
    (flag = true -> is_byte (nth idx lhs 0) /\ is_byte (nth idx rhs 0) /\ nth idx lhs 0 <> nth idx rhs 0) ->
    exists inst', assign inst cfg lhs rhs = Some (inst', nth idx lhs 0 <? nth idx rhs 0) /\
      inst' (Ltu.is_ltu cfg) = Some (i64_to_ext (b2i (nth idx lhs 0 <? nth idx rhs 0)))).
  { intros idx flag Hs Hi Hf. unfold assign. rewrite Hs.
    rewrite (@nth_error_nth' _ (indexes cfg) idx 0%nat ltac:(lia)).
    rewrite (nth_error_nth' lhs 0 Hi), (@nth_error_nth' _ rhs idx 0 ltac:(lia)).
    assert (Hinv : exists inv,
      (if flag then e_invert (e_sub (i64_to_ext (nth idx lhs 0)) (i64_to_ext (nth idx rhs 0)))
       else Some e_one) = Some inv).
    { destruct flag.
      - destruct (Hf eq_refl) as (Hb1 & Hb2 & Hd).
        destruct (byte_diff_invertible _ _ Hb1 Hb2 Hd) as [inv [H _]]. eauto.
      - eauto. }
    destruct Hinv as [inv Hinv]. cbv beta iota zeta. rewrite Hinv.
    eexists; split; [reflexivity|]. rewrite set_val_read, Nat.eqb_refl. reflexivity. }
  destruct (top_diff_or_eq lhs rhs Hlen) as [[idx Htd]|<-].
  - pose proof Htd as (Hi & Hd & _).
    assert (Hbl : is_byte (nth idx lhs 0)) by (apply (proj1 (List.Forall_nth _ _) Hl); exact Hi).
    assert (Hbr : is_byte (nth idx rhs 0)) by (apply (proj1 (List.Forall_nth _ _) Hr); lia).
    destruct (Hgen idx true (scan_top _ _ _ Hlen Htd) Hi (fun _ => conj Hbl (conj Hbr Hd)))
      as (inst' & Ha & Hv).
    assert (Hc : (limbs_value lhs <? limbs_value rhs) = (nth idx lhs 0 <? nth idx rhs 0)).
    { unfold Z.ltb. rewrite (limbs_compare lhs rhs idx Hlen Hl Hr Htd). reflexivity. }
    rewrite Hc. eauto.
  - assert (Hi : (0 < length lhs)%nat) by (destruct lhs; [contradiction|simpl; lia]).
    destruct (Hgen 0%nat false (scan_same lhs) Hi (fun H => ltac:(discriminate H)))
      as (inst' & Ha & Hv).
    rewrite !Z.ltb_irrefl in *. eauto.
Qed.

Lemma limbs_value_snoc (l : list Z) (t : Z) :
  limbs_value (l ++ [t]) = limbs_value l + 256 ^ Z.of_nat (length l) * t.
Proof.
  induction l as [|a l IH]; cbn [limbs_value length app].
  - lia.
  - rewrite IH, Nat2Z.inj_succ, Z.pow_succ_r by lia. ring.
Qed.

Lemma limbs_value_bounds (l : list Z) :
  Forall is_byte l -> 0 <= limbs_value l < 256 ^ Z.of_nat (length l).
Proof.
  induction 1 as [|a l Ha _ IH]; cbn [limbs_value length].
  - lia.
  - unfold is_byte in Ha. rewrite Nat2Z.inj_succ, Z.pow_succ_r by lia. lia.
Qed.

Lemma byte_split (t : Z) :
  is_byte t ->
  Z.land (Z.shiftr t 7) 1 = t / 128 /\ Z.land t 127 = t mod 128 /\
  (t / 128 = 0 \/ t / 128 = 1) /\ 0 <= t mod 128 < 128 /\ t = 128 * (t / 128) + t mod 128.
Proof.
  unfold is_byte. intros Ht.
  assert (Hq : 0 <= t / 128 < 2) by (split; [apply Z.div_pos | apply Z.div_lt_upper_bound]; lia).
  rewrite Z.shiftr_div_pow2 by lia.
  change 1 with (Z.ones 1). change 127 with (Z.ones 7).
  rewrite !Z.land_ones by lia. change (2 ^ 7) with 128. change (2 ^ 1) with 2.
  rewrite (Z.mod_small (t / 128) 2) by exact Hq.
  split; [reflexivity|]. split; [reflexivity|].
  split; [|split; [apply Z.mod_pos_bound; lia|apply Z.div_mod; lia]].
  change (Z.ones 1) with 1; lia.
Qed.

Lemma msb_assign_eq inst config init t :
  is_byte t ->
  msb_assign inst config (init ++ [t]) =
  Some (set_val (set_val inst (msb config) (i64_to_ext (t / 128)))
          (high_limb_no_msb config) (i64_to_ext (t mod 128)), (t / 128, t mod 128)).
Proof.
  intros Ht. destruct (byte_split t Ht) as (H1 & H2 & _).
  unfold msb_assign. rewrite length_app. simpl length.
  replace (length init + 1)%nat with (S (length init)) by lia. cbn [Nat.eqb].
  replace (S (length init) - 1)%nat with (length init) by lia.
  rewrite nth_middle, H1, H2. reflexivity.
Qed.

Lemma vec_set_last (init : list Z) (t x : Z) :
  vec_set (init ++ [t]) (length (init ++ [t]) - 1) x = Some (init ++ [x]).
Proof.
  unfold vec_set. rewrite length_app. simpl length.
  replace (length init + 1 - 1)%nat with (length init) by lia.
  replace (Nat.ltb (length init) (length init + 1)) with true
    by (symmetry; apply Nat.ltb_lt; lia).
  rewrite <- (Nat.add_0_r (length init)) . rewrite insert_app_r. reflexivity.
Qed.

Lemma signed_value_split (init : list Z) (t : Z) :
  Forall is_byte init -> is_byte t ->
  signed_value (init ++ [t]) =
  limbs_value init + 256 ^ Z.of_nat (length init) * (t mod 128)
  - 128 * 256 ^ Z.of_nat (length init) * (t / 128).
Proof.
  intros Hi Ht. destruct (byte_split t Ht) as (_ & _ & Hm & Hr & He).
  pose proof (limbs_value_bounds init Hi) as Hb.
  set (K := 256 ^ Z.of_nat (length init)) in *.
  assert (HK : 2 ^ (8 * Z.of_nat (length (init ++ [t])) - 1) = 128 * K /\
               2 ^ (8 * Z.of_nat (length (init ++ [t]))) = 256 * K).
  { unfold K. rewrite length_app. simpl length. rewrite Nat2Z.inj_add.
    replace (8 * (Z.of_nat (length init) + Z.of_nat 1) - 1)
      with (7 + 8 * Z.of_nat (length init)) by lia.
    replace (8 * (Z.of_nat (length init) + Z.of_nat 1))
      with (8 + 8 * Z.of_nat (length init)) by lia.
    rewrite !Z.pow_add_r, Z.pow_mul_r by lia. split; reflexivity. }
  unfold signed_value. rewrite limbs_value_snoc. fold K. destruct HK as [-> ->].
  destruct (Z.ltb_spec (limbs_value init + K * t) (128 * K)); nia.
Qed.

End LtFacts.

Module LtExtras.
Import Goldilocks Ltu LtuFacts Lt LtFacts.

(** X1: [MsbInput::assign] on byte limbs: for a non-empty operand it returns
    the top bit [msb] of the last limb and that limb without it, with
    [last = 128 * msb + high], and writes both to their columns; on an
    empty operand it panics. *)
Theorem msb_assign_split (inst : Row) (config : MsbConfig) (limbs : list Z) :
  Forall is_byte limbs ->
  (limbs = [] -> msb_assign inst config limbs = None) /\
  (forall init t, limbs = init ++ [t] ->
     exists inst' m h, msb_assign inst config limbs = Some (inst', (m, h)) /\
       (m = 0 \/ m = 1) /\ 0 <= h < 128 /\ t = 128 * m + h /\
       inst' (high_limb_no_msb config) = Some (i64_to_ext h) /\
       (msb config <> high_limb_no_msb config -> inst' (msb config) = Some (i64_to_ext m))).
Proof.
  intros Hb. split; [intros ->; reflexivity|].
  intros init t ->. apply Forall_app in Hb as [_ Ht]. apply Forall_inv in Ht.
  destruct (byte_split t Ht) as (_ & _ & Hm & Hr & He).
  rewrite msb_assign_eq by exact Ht.
  eexists _, _, _. split; [reflexivity|]. split; [exact Hm|]. split; [exact Hr|].
  split; [exact He|]. split.
  - rewrite set_val_read, Nat.eqb_refl. reflexivity.
  - intros Hne. rewrite !set_val_read, Nat.eqb_refl.
    destruct (Nat.eqb_spec (msb config) (high_limb_no_msb config)); [contradiction|reflexivity].
Qed.

(** X2: [LtInput::assign] on two non-empty byte-limb operands of equal length
    (with at least as many [is_ltu.indexes] columns as limbs) never fails
    its [assert!] and returns the signed (two's complement) less-than of
    the two operands, which it also writes to the [is_lt] column. *)
Theorem lt_assign_signed (inst : Row) (config : LtConfig) (lhs rhs : list Z) :
  length lhs = length rhs -> lhs <> [] ->
  Forall is_byte lhs -> Forall is_byte rhs ->
  (length lhs <= length (indexes (is_ltu config)))%nat ->
  exists inst', lt_assign inst config lhs rhs = Some (inst', signed_value lhs <? signed_value rhs) /\
    inst' (is_lt config) = Some (i64_to_ext (b2i (signed_value lhs <? signed_value rhs))).
Proof.
  intros Hlen Hne Hl Hr Hix.
  destruct (exists_last Hne) as (li & lt & ->).
  assert (Hrne : rhs <> []) by (intros ->; rewrite length_app in Hlen; simpl in Hlen; lia).
  destruct (exists_last Hrne) as (ri & rt & ->).
  rewrite !length_app in Hlen. simpl in Hlen.
  apply Forall_app in Hl as [Hli Hlt]. apply Forall_inv in Hlt.
  apply Forall_app in Hr as [Hri Hrt]. apply Forall_inv in Hrt.
  destruct (byte_split lt Hlt) as (_ & _ & Hlm & Hlb & Hle).
  destruct (byte_split rt Hrt) as (_ & _ & Hrm & Hrr & Hre).
  rewrite (signed_value_split li lt Hli Hlt), (signed_value_split ri rt Hri Hrt).
  assert (Hlr : length li = length ri) by lia. rewrite <- Hlr.
  unfold lt_assign.
  rewrite msb_assign_eq by exact Hlt. rewrite msb_assign_eq by exact Hrt.
  rewrite vec_set_last.
  replace (length (li ++ [lt])) with (length (ri ++ [rt])) by (rewrite !length_app; simpl; lia).
  rewrite vec_set_last.
  assert (Hbl : Forall is_byte (li ++ [lt mod 128])).
  { apply Forall_app; split; [exact Hli|]. constructor; [unfold is_byte; lia|constructor]. }
  assert (Hbr : Forall is_byte (ri ++ [rt mod 128])).
  { apply Forall_app; split; [exact Hri|]. constructor; [unfold is_byte; lia|constructor]. }
  destruct (assign_result
              (set_val (set_val (set_val (set_val inst (msb (lhs_msb config)) (i64_to_ext (lt / 128)))
                   (high_limb_no_msb (lhs_msb config)) (i64_to_ext (lt mod 128)))
                   (msb (rhs_msb config)) (i64_to_ext (rt / 128)))
                   (high_limb_no_msb (rhs_msb config)) (i64_to_ext (rt mod 128)))
              (is_ltu config) (li ++ [lt mod 128]) (ri ++ [rt mod 128]))
    as (inst1 & Ha & _).
  - rewrite !length_app. simpl. lia.
  - intros H. apply app_eq_nil in H as [_ H]. discriminate.
  - exact Hbl.
  - exact Hbr.
  - rewrite length_app in Hix |- *. simpl in Hix |- *. lia.
  - rewrite Ha. rewrite !limbs_value_snoc. rewrite <- Hlr.
    pose proof (limbs_value_bounds li Hli) as Bl. pose proof (limbs_value_bounds ri Hri) as Br.
    rewrite <- Hlr in Br.
    set (K := 256 ^ Z.of_nat (length li)) in *.
    assert (HK : 0 < K) by (unfold K; apply Z.pow_pos_nonneg; lia).
    set (a := lt / 128) in *. set (b := rt / 128) in *.
    set (u := limbs_value li + K * (lt mod 128)).
    set (w := limbs_value ri + K * (rt mod 128)).
    assert (Hu : 0 <= u < 128 * K) by (unfold u; nia).
    assert (Hw : 0 <= w < 128 * K) by (unfold w; nia).
    replace (limbs_value li + K * (lt mod 128) - 128 * K * a) with (u - 128 * K * a) by (unfold u; ring).
    replace (limbs_value ri + K * (rt mod 128) - 128 * K * b) with (w - 128 * K * b) by (unfold w; ring).
    assert (Hres : forall c : bool,
      c = (u <? w) ->
      let v := a * (1 - b) + b2i (a =? b) * b2i c in
      ((v =? 0) || (v =? 1))%bool = true /\ (0 <? v) = (u - 128 * K * a <? w - 128 * K * b)).
    { intros c -> v. unfold v, b2i.
      destruct Hlm as [-> | ->], Hrm as [-> | ->]; simpl;
        destruct (Z.ltb_spec u w); simpl;
        (split; [reflexivity|]); symmetry; first [apply Z.ltb_lt | apply Z.ltb_ge]; nia. }
    destruct (Hres _ eq_refl) as [Hok Hv]. cbv zeta in Hok, Hv. rewrite Hok.
    eexists; split; [rewrite Hv; reflexivity|].
    rewrite set_val_read, Nat.eqb_refl. f_equal. f_equal.
    rewrite <- Hv. unfold b2i.
    destruct Hlm as [-> | ->], Hrm as [-> | ->]; simpl; destruct (u <? w); reflexivity.
Qed.

Lemma lt_assign_signed_witness :
  (length example_lt_lhs = length example_lt_rhs /\ example_lt_lhs <> [] /\
   Forall is_byte example_lt_lhs /\ Forall is_byte example_lt_rhs /\
   (length example_lt_lhs <= length (indexes (is_ltu example_lt_cfg)))%nat) /\
  exists inst', lt_assign example_row example_lt_cfg example_lt_lhs example_lt_rhs =
    Some (inst', signed_value example_lt_lhs <? signed_value example_lt_rhs) /\
    inst' (is_lt example_lt_cfg) =
    Some (i64_to_ext (b2i (signed_value example_lt_lhs <? signed_value example_lt_rhs))).
Proof.
  assert (H : length example_lt_lhs = length example_lt_rhs /\ example_lt_lhs <> [] /\
   Forall is_byte example_lt_lhs /\ Forall is_byte example_lt_rhs /\
   (length example_lt_lhs <= length (indexes (is_ltu example_lt_cfg)))%nat).
  { split; [reflexivity|]. split; [discriminate|].
    split; [unfold example_lt_lhs; repeat constructor; unfold is_byte; lia|].
    split; [unfold example_lt_rhs; repeat constructor; unfold is_byte; lia|].
    simpl; lia. }
  split; [exact H|].
  destruct H as (H1 & H2 & H3 & H4 & H5).
  exact (lt_assign_signed example_row example_lt_cfg example_lt_lhs example_lt_rhs H1 H2 H3 H4 H5).
Defined.

Lemma msb_assign_split_witness :
  Forall is_byte example_lt_lhs /\
  exists inst' m h, msb_assign example_row (mkMsbConfig 12 13) example_lt_lhs = Some (inst', (m, h)) /\
    (m = 0 \/ m = 1) /\ 0 <= h < 128 /\ 255 = 128 * m + h /\
    inst' 13%nat = Some (i64_to_ext h) /\ inst' 12%nat = Some (i64_to_ext m).
Proof.
  assert (H : Forall is_byte example_lt_lhs)
    by (unfold example_lt_lhs; repeat constructor; unfold is_byte; lia).
  split; [exact H|].
  destruct (proj2 (msb_assign_split example_row (mkMsbConfig 12 13) example_lt_lhs H)
              [254; 255; 255] 255 eq_refl)
    as (inst' & m & h & Ha & Hm & Hh & He & H13 & H12).
  exists inst', m, h. split; [exact Ha|]. split; [exact Hm|]. split; [exact Hh|].
  split; [exact He|]. split; [exact H13|]. apply H12. discriminate.
Defined.

End LtExtras.

Module BasefoldFacts.
Import Foldable BasefoldMisc FoldFacts.
Local Open Scope nat_scope.

Lemma log2_strict_some (k n : nat) : log2_strict k = Some n -> 2 ^ n = k.
Proof.
  unfold log2_strict. destruct (Nat.eqb_spec (2 ^ Nat.log2 k) k) as [He|]; [|discriminate].
  intros Hs. injection Hs as <-. exact He.
Qed.

Lemma firstn_snoc {A : Type} (l : list A) (q : nat) (d : A) :
  q < length l -> firstn (S q) l = firstn q l ++ [nth q l d].
Proof.
  revert q; induction l as [|a l IH]; intros q Hq; simpl in Hq; [lia|].
  destruct q as [|q]; [reflexivity|].
  change (firstn (S (S q)) (a :: l)) with (a :: firstn (S q) l).
  rewrite IH by lia. reflexivity.
Qed.

Lemma lor_1 (n : nat) : Nat.lor n 1 = 2 * (n / 2) + 1.
Proof.
  apply Nat.bits_inj. intros [|k].
  - rewrite Nat.lor_spec, Nat.testbit_odd_0. rewrite orb_true_r. reflexivity.
  - rewrite Nat.lor_spec, Nat.testbit_odd_succ by lia.
    rewrite <- !Nat.div2_bits. change (1 / 2) with 0. rewrite Nat.bits_0, orb_false_r.
    reflexivity.
Qed.

Section Generic.
Context {F : Type} `{PrimeField F}.

Lemma fold_push (c : F) (l : list nat) (acc : list F) :
  fold_left (fun rep_code (_ : nat) => rep_code ++ [c]) l acc = acc ++ repeat c (length l).
Proof.
  revert acc; induction l as [|x l IH]; intros acc; simpl; [rewrite app_nil_r; reflexivity|].
  rewrite IH, <- app_assoc. reflexivity.
Qed.

Lemma length_concat_repeat (l : list F) (R : nat) :
  length (concat (map (fun c => repeat c R) l)) = length l * R.
Proof.
  induction l as [|c l IH]; simpl; [reflexivity|].
  rewrite length_app, repeat_length, IH. reflexivity.
Qed.

Lemma repeat_cons_app {A : Type} (c : A) (t : nat) (l : list A) :
  repeat c t ++ c :: l = repeat c (S t) ++ l.
Proof. induction t as [|t IH]; simpl; [reflexivity|]. f_equal. exact IH. Qed.

Lemma rep_inner (start : nat) (c : F) (pre : list F) (M t : nat) :
  length pre = start -> t <= M ->
  fold_left (fun acc j => <[start + j := c]> acc) (seq 0 t) (pre ++ repeat fzero M) =
  pre ++ repeat c t ++ repeat fzero (M - t).
Proof.
  intros Hp. induction t as [|t IH]; intros Ht.
  - simpl. rewrite Nat.sub_0_r. reflexivity.
  - rewrite seq_S, fold_left_app, IH by lia. cbn [fold_left].
    replace (start + (0 + t)) with (length pre + (length (repeat c t) + 0))
      by (rewrite repeat_length; lia).
    rewrite insert_app_r, insert_app_r.
    replace (M - t) with (S (M - S t)) by lia. cbn [repeat].
    rewrite list_insert_cons_0 || idtac.
    change (<[0:=c]> (fzero :: repeat fzero (M - S t))) with (c :: repeat fzero (M - S t)).
    f_equal. apply repeat_cons_app.
Qed.

Lemma rep_outer (coeffs : list F) (R q : nat) :
  q <= length coeffs ->
  fold_left (fun acc i =>
      fold_left (fun acc j => <[i * R + j := nth i coeffs fzero]> acc) (seq 0 R) acc)
    (seq 0 q) (repeat fzero (length coeffs * R)) =
  concat (map (fun c => repeat c R) (firstn q coeffs)) ++ repeat fzero ((length coeffs - q) * R).
Proof.
  induction q as [|q IH]; intros Hq.
  - simpl. rewrite Nat.sub_0_r. reflexivity.
  - rewrite seq_S, fold_left_app, IH by lia. cbn [fold_left]. rewrite Nat.add_0_l.
    rewrite (rep_inner (q * R) (nth q coeffs fzero)).
    + rewrite (firstn_snoc coeffs q fzero) by lia.
      rewrite map_app, concat_app, <- app_assoc. simpl. rewrite app_nil_r.
      f_equal. f_equal. f_equal. nia.
    + rewrite length_concat_repeat, length_firstn. lia.
    + nia.
Qed.

End Generic.

Section Field.
Context {F : Type} `{PrimeField F}.
Hypothesis Fth : ring_theory fzero fone fadd fmul fsub fneg (@eq F).
Add Ring Fring2 : Fth.

Lemma fsum_app (l1 l2 : list F) : Sumcheck.fsum (l1 ++ l2) = fadd (Sumcheck.fsum l1) (Sumcheck.fsum l2).
Proof.
  induction l1 as [|a l1 IH]; unfold Sumcheck.fsum in *; simpl; [ring|]. rewrite IH. ring.
Qed.

Lemma fold_add_seq (f : nat -> F) (m : nat) (a0 : F) :
  fold_left (fun a j => fadd a (f j)) (seq 0 m) a0 = fadd a0 (Sumcheck.fsum (map f (seq 0 m))).
Proof.
  induction m as [|m IH].
  - unfold Sumcheck.fsum. simpl. ring.
  - rewrite seq_S, fold_left_app, IH, map_app, fsum_app. unfold Sumcheck.fsum. simpl. ring.
Qed.

End Field.

Section Bases.
Context {F : Type} `{PrimeField F} `{EqDecision F}.

Lemma weighted_entry_some (scalars : list F) (bases : list (@BasefoldCommitmentWithData F))
    (b0 : BasefoldCommitmentWithData) (get : BasefoldCommitmentWithData -> nat -> option F)
    (val : nat -> F) (i : nat) :
  length bases <= length scalars ->
  (forall j, j < length bases -> get (nth j bases b0) i = Some (val j)) ->
  weighted_entry scalars bases get i =
  Some (fold_left (fun a j => fadd a (fmul (nth j scalars fzero) (val j)))
          (seq 0 (length bases)) fzero).
Proof.
  intros Hs Hg. unfold weighted_entry.
  assert (Hgen : forall m acc, m <= length bases ->
    fold_left (fun acc j =>
      match acc, nth_error scalars j, nth_error bases j with
      | Some c, Some s, Some b =>
          match get b i with Some v => Some (fadd c (fmul s v)) | None => None end
      | _, _, _ => None
      end) (seq 0 m) (Some acc) =
    Some (fold_left (fun a j => fadd a (fmul (nth j scalars fzero) (val j))) (seq 0 m) acc)).
  { induction m as [|m IH]; intros acc Hm; [reflexivity|].
    rewrite !seq_S, !fold_left_app, IH by lia. cbn [fold_left].
    rewrite (nth_error_nth' scalars fzero) by lia.
    rewrite (nth_error_nth' bases b0) by lia.
    rewrite Hg by lia. reflexivity. }
  apply Hgen. lia.
Qed.

End Bases.

Section Bytes.
Import Goldilocks RawBytes.
Local Open Scope Z_scope.

Lemma fold_raw (bytes : list Z) (acc : Z) :
  Forall Ltu.is_byte bytes -> 0 <= acc -> acc + 255 * Z.of_nat (length bytes) < p ->
  fold_left (fun res b => f_add res (b mod p)) bytes acc = acc + fold_right Z.add 0 bytes.
Proof.
  unfold p. intros Hb. revert acc. induction Hb as [|b l Hb _ IH]; intros acc Ha Hlt; simpl.
  - lia.
  - unfold Ltu.is_byte in Hb. simpl length in Hlt. rewrite Nat2Z.inj_succ in Hlt.
    unfold f_add, p.
    rewrite (Z.mod_small b) by lia. rewrite Z.mod_small by lia.
    rewrite IH by lia. lia.
Qed.

Lemma raw_bytes_sum (bytes : list Z) :
  Forall Ltu.is_byte bytes -> 255 * Z.of_nat (length bytes) < p ->
  from_raw_bytes bytes = fold_right Z.add 0 bytes.
Proof.
  intros Hb Hl. unfold from_raw_bytes. rewrite fold_raw by (auto; lia). lia.
Qed.

Lemma sum_bytes_bound (bytes : list Z) :
  Forall Ltu.is_byte bytes -> 0 <= fold_right Z.add 0 bytes <= 255 * Z.of_nat (length bytes).
Proof.
  induction 1 as [|b l Hb _ IH]; simpl; [lia|]. unfold Ltu.is_byte in Hb. lia.
Qed.

Lemma firstn_chunks {A : Type} (n : nat) (Hn : (0 < n)%nat) :
  forall q (l : list A), (q * n <= length l)%nat ->
  length (firstn q (chunks n l)) = q /\
  forall c, In c (firstn q (chunks n l)) -> length c = n /\ incl c l.
Proof.
  induction q as [|q IH]; intros l Hl; [split; [reflexivity|intros c []]|].
  assert (Hne : l <> []) by (intros ->; simpl in Hl; lia).
  rewrite (chunks_cons n l Hn Hne). cbn [firstn length].
  destruct (IH (skipn n l)) as [IH1 IH2]; [rewrite length_skipn; lia|].
  split; [rewrite IH1; reflexivity|].
  intros c [<-|Hc].
  - split; [rewrite length_firstn; lia|]. intros x Hx. rewrite <- (firstn_skipn n l). apply in_or_app. left. exact Hx.
  - destruct (IH2 c Hc) as [Hc1 Hc2]. split; [exact Hc1|].
    intros x Hx. apply Hc2 in Hx. rewrite <- (firstn_skipn n l). apply in_or_app. right. exact Hx.
Qed.

End Bytes.

(** Every nonzero element of the five-element field has [finv] as inverse. *)
Lemma gf5_inv : forall y : GF5.gf5, y <> fzero -> fmul y (finv y) = fone.
Proof. intros [] Hy; [contradiction Hy; reflexivity|reflexivity..]. Qed.

End BasefoldFacts.

Module BasefoldExtras.
Import Foldable BasefoldMisc FoldFacts BasefoldFacts Examples.
Local Open Scope nat_scope.

Section Extras.
Context {F : Type} `{PrimeField F} `{EqDecision F}.
Hypothesis Fth : ring_theory fzero fone fadd fmul fsub fneg (@eq F).
Add Ring Fring3 : Fth.

(** X3: [fold_bitreversed_message] folds left and right halves when the
    message is not bit-reversed ([m[i] + alpha * m[n/2 + i]]) and
    adjacent pairs when it is; on a message of length [2^(K+1)] the two
    agree up to the bit-reversal permutation. *)
Theorem fold_message_conventions (alpha : F) (K : nat) (m : list F) :
  length m = 2 ^ S K ->
  fold_bitreversed_message false m alpha =
  reverse_index_bits fzero (fold_bitreversed_message true (reverse_index_bits fzero m) alpha).
Proof.
  intros Hm. destruct (lin_fold_message Fth alpha K m Hm) as (L1 & L2 & L3).
  set (Z := reverse_index_bits fzero (fold_bitreversed_message true (reverse_index_bits fzero m) alpha))
    in *.
  pose proof (pow2_pos K) as HK.
  assert (Hh : length m / 2 = 2 ^ K) by (rewrite Hm, Nat.pow_succ_r', Nat.mul_comm, Nat.div_mul; lia).
  assert (Hf : length (firstn (2 ^ K) m) = 2 ^ K)
    by (rewrite length_firstn, Hm, Nat.pow_succ_r'; lia).
  unfold fold_bitreversed_message at 1. cbn iota.
  apply nth_ext with (d := fzero) (d' := fzero).
  - rewrite length_map, length_seq, L2, Hf. exact Hh.
  - intros j Hj. rewrite length_map, length_seq in Hj.
    rewrite nth_map_seq by exact Hj. rewrite L3, nth_firstn, nth_skipn, Hh.
    assert (Hlt : (j <? 2 ^ K) = true) by (apply Nat.ltb_lt; lia). rewrite Hlt. ring.
Qed.

(** X4: [interpolate2] panics ([assert_ne!]) when the two abscissae are equal,
    and otherwise is the line through the two points: it returns [a1] at
    [a0] and [b1] at [b0]. *)
Theorem interpolate2_line
    (Hinv : forall y : F, y <> fzero -> fmul y (finv y) = fone) (a0 a1 b0 b1 : F) :
  (a0 = b0 -> forall x, interpolate2 ((a0, a1), (b0, b1)) x = None) /\
  (a0 <> b0 ->
     interpolate2 ((a0, a1), (b0, b1)) a0 = Some a1 /\
     interpolate2 ((a0, a1), (b0, b1)) b0 = Some b1).
Proof.
  split.
  - intros <- x. unfold interpolate2. destruct (decide (a0 = a0)); [reflexivity|contradiction].
  - intros Hne. unfold interpolate2. destruct (decide (a0 = b0)) as [|_]; [contradiction|].
    assert (Hd : fsub b0 a0 <> fzero).
    { intros Hz. apply Hne. transitivity (fadd (fsub b0 a0) a0); [|ring].
      rewrite Hz. ring. }
    split; f_equal; [ring|].
    transitivity (fadd a1 (fmul (fsub b1 a1) (fmul (fsub b0 a0) (finv (fsub b0 a0))))); [ring|].
    rewrite (Hinv _ Hd). ring.
Qed.

(** X5: [interpolate2_weights] with a weight [w] such that [w * (b0 - a0) = 1]
    computes what [interpolate2] computes, without its inversion. *)
Theorem interpolate2_weights_agree
    (H10 : fone <> fzero) (Hinv : forall y : F, y <> fzero -> fmul y (finv y) = fone)
    (a0 a1 b0 b1 w x : F) :
  fmul w (fsub b0 a0) = fone ->
  interpolate2 ((a0, a1), (b0, b1)) x = Some (interpolate2_weights ((a0, a1), (b0, b1)) w x).
Proof.
  intros Hw.
  assert (Hd : fsub b0 a0 <> fzero).
  { intros Hz. rewrite Hz in Hw. apply H10. rewrite <- Hw. ring. }
  assert (Hne : a0 <> b0).
  { intros <-. apply Hd. ring. }
  assert (Hi : finv (fsub b0 a0) = w).
  { transitivity (fmul (fmul w (fsub b0 a0)) (finv (fsub b0 a0))); [rewrite Hw; ring|].
    transitivity (fmul w (fmul (fsub b0 a0) (finv (fsub b0 a0)))); [ring|].
    rewrite (Hinv _ Hd). ring. }
  unfold interpolate2, interpolate2_weights. destruct (decide (a0 = b0)); [contradiction|].
  rewrite Hi. reflexivity.
Qed.

End Extras.

Section Encoding.
Context {F : Type} `{PrimeField F}.

(** X6: [evaluate_over_foldable_domain] is
    [evaluate_over_foldable_domain_generic_basecode] with base messages of
    one coefficient and the repetition code of rate [2^log_rate]
    ([encode_repetition_basecode]): on every input, both return the same
    codeword, or both panic. *)
Theorem evaluate_over_foldable_domain_repetition (log_rate : nat) (coeffs : list F)
    (table : list (list F)) :
  evaluate_over_foldable_domain log_rate coeffs table =
  evaluate_over_foldable_domain_generic_basecode 1 (length coeffs) log_rate
    (encode_repetition_basecode coeffs (2 ^ log_rate)) table.
Proof.
  assert (Henc : encode_repetition_basecode coeffs (2 ^ log_rate) =
                 map (fun c => repeat c (2 ^ log_rate)) coeffs).
  { unfold encode_repetition_basecode. apply map_ext. intros c.
    rewrite fold_push, length_seq. reflexivity. }
  unfold evaluate_over_foldable_domain, evaluate_over_foldable_domain_generic_basecode.
  rewrite Henc. change (log2_strict 1) with (Some 0).
  destruct (log2_strict (length coeffs)) as [logk|] eqn:Hl; [|reflexivity].
  pose proof (log2_strict_some _ _ Hl) as Hk.
  replace (2 ^ (logk + log_rate)) with (length coeffs * 2 ^ log_rate)
    by (rewrite Nat.pow_add_r, Hk; reflexivity).
  rewrite (rep_outer coeffs (2 ^ log_rate) (length coeffs)) by lia.
  rewrite firstn_all, Nat.sub_diag, Nat.mul_0_l. cbn [repeat]. rewrite app_nil_r.
  rewrite Nat.sub_0_r.
  destruct coeffs as [|c0 cs]; [simpl in Hk; pose proof (pow2_pos logk); lia|].
  cbn [map]. rewrite repeat_length. reflexivity.
Qed.

End Encoding.

Section Commitments.
Context {F : Type} `{PrimeField F} `{EqDecision F}.
Hypothesis Fth : ring_theory fzero fone fadd fmul fsub fneg (@eq F).

(** X7: [sum_with_scalar] on non-empty [bases] whose codewords have the
    length of the first one and whose [bh_evals] all have [2^n] entries,
    with a scalar per base: its codeword is the combination
    [sum_j scalars[j] * bases[j].codeword[i]] at every position [i], its
    [num_vars] is [n], and its [bh_evals] is empty ([poly_size] [0]). *)
Theorem sum_with_scalar_combines (n : nat) (scalars : list F)
    (b0 : BasefoldCommitmentWithData) (rest : list BasefoldCommitmentWithData) :
  (forall b, In b (b0 :: rest) ->
     length (bh_evals b) = 2 ^ n /\ codeword_size b = codeword_size b0) ->
  length (b0 :: rest) <= length scalars ->
  exists c, sum_with_scalar scalars (b0 :: rest) = Some c /\
    num_vars c = n /\ poly_size c = 0 /\ codeword_size c = codeword_size b0 /\
    forall i, i < codeword_size b0 ->
      get_codeword_entry c i =
      Some (Sumcheck.fsum (map (fun j => fmul (nth j scalars fzero)
                                          (nth i (codeword_tree (nth j (b0 :: rest) b0)) fzero))
                            (seq 0 (length (b0 :: rest))))).
Proof.
  intros Hb Hs.
  unfold sum_with_scalar. cbv beta iota zeta. set (bases := b0 :: rest) in *.
  assert (Hnth : forall j, j < length bases -> In (nth j bases b0) bases) by (intros; apply nth_In; lia).
  destruct (Hb b0 (or_introl eq_refl)) as [Hk _]. rewrite Hk, log2_strict_pow2.
  set (val := fun i j => nth i (codeword_tree (nth j bases b0)) fzero).
  rewrite (map_option_map _ (fun i => fold_left (fun a j => fadd a (fmul (nth j scalars fzero) (val i j)))
                                        (seq 0 (length bases)) fzero)).
  2:{ intros i Hi. apply in_seq in Hi. apply (weighted_entry_some _ _ b0); [exact Hs|].
      intros j Hj. destruct (Hb _ (Hnth j Hj)) as [_ Hc]. unfold get_codeword_entry, val.
      apply nth_error_nth'. unfold codeword_size in Hc, Hi. lia. }
  rewrite (map_option_map _ (fun i => fold_left (fun a j => fadd a (fmul (nth j scalars fzero)
                                          (nth i (bh_evals (nth j bases b0)) fzero)))
                                        (seq 0 (length bases)) fzero)).
  2:{ intros i Hi. apply in_seq in Hi. apply (weighted_entry_some _ _ b0); [exact Hs|].
      intros j Hj. destruct (Hb _ (Hnth j Hj)) as [Hl _]. apply nth_error_nth'. lia. }
  eexists. split; [reflexivity|]. split; [reflexivity|]. split; [reflexivity|].
  split; [unfold codeword_size; simpl; rewrite length_map, length_seq; reflexivity|].
  intros i Hi. unfold get_codeword_entry. cbn [codeword_tree].
  rewrite nth_error_map, (nth_error_nth' _ 0) by (rewrite length_seq; exact Hi).
  rewrite seq_nth by exact Hi. cbn [option_map]. rewrite Nat.add_0_l. f_equal.
    rewrite (fold_add_seq Fth (fun j => fmul (nth j scalars fzero) (val i j))). unfold val. apply (Radd_0_l Fth).
Qed.

End Commitments.

Section Queries.
Context {F : Type} `{PrimeField F} `{EqDecision F}.

Lemma query_pair_some (cw : list F) (idx : nat) :
  2 * (idx / 2) + 1 < length cw ->
  query_pair cw idx =
  Some (mkCodewordSingleQueryResult (nth (2 * (idx / 2)) cw fzero) (nth (2 * (idx / 2) + 1) cw fzero)
          (2 * (idx / 2))).
Proof.
  intros Hl. unfold query_pair. rewrite lor_1.
  replace (2 * (idx / 2) + 1 - 1) with (2 * (idx / 2)) by lia.
  rewrite (nth_error_nth' cw fzero) by lia. rewrite (nth_error_nth' cw fzero) by lia.
  reflexivity.
Qed.

Lemma oracle_queries_some (os : list (list F)) :
  forall idx, (forall k, k < length os -> 2 * (idx / 2 ^ (k + 1)) + 1 < length (nth k os [])) ->
  exists qs, oracle_queries os idx = Some qs /\ length qs = length os /\
    forall k, k < length os ->
      nth_error qs k =
      Some (mkCodewordSingleQueryResult (nth (2 * (idx / 2 ^ (k + 1))) (nth k os []) fzero)
              (nth (2 * (idx / 2 ^ (k + 1)) + 1) (nth k os []) fzero) (2 * (idx / 2 ^ (k + 1)))).
Proof.
  induction os as [|o os IH]; intros idx Hl; [exists []; split; [reflexivity|split; [reflexivity|]]; simpl; lia|].
  assert (Hsh : Nat.shiftr idx 1 = idx / 2) by (rewrite Nat.shiftr_div_pow2; reflexivity).
  destruct (IH (Nat.shiftr idx 1)) as (qs & Hq & Hlen & Hn).
  { intros k Hk. rewrite Hsh, Nat.Div0.div_div.
    replace (2 * 2 ^ (k + 1)) with (2 ^ (S k + 1)) by (rewrite <- Nat.pow_succ_r'; f_equal).
    apply (Hl (S k)). simpl. lia. }
  pose proof (Hl 0 ltac:(simpl; lia)) as H0. cbn [nth] in H0. change (2 ^ (0 + 1)) with 2 in H0.
  cbn [oracle_queries]. rewrite query_pair_some by exact H0. rewrite Hq.
  eexists. split; [reflexivity|]. split; [simpl; rewrite Hlen; reflexivity|].
  intros [|k] Hk; [reflexivity|]. cbn [nth_error nth]. rewrite Hn by (simpl in Hk; lia).
  rewrite Hsh, Nat.Div0.div_div.
  replace (2 * 2 ^ (k + 1)) with (2 ^ (S k + 1)) by (rewrite <- Nat.pow_succ_r'; f_equal).
  reflexivity.
Qed.

(** X8: [basefold_get_query] at [x_index], when every pair it reads is in
    bounds: the commitment query is the pair [(2 * (x / 2), 2 * (x / 2) + 1)]
    of the codeword, the pair holding [x]; and oracle [k] is queried at the
    pair [(2 * (x / 2^(k+2)), 2 * (x / 2^(k+2)) + 1)], the pair holding the
    position [x / 2^(k+1)] that [x] folds to. *)
Theorem basefold_get_query_pairs (cw : list F) (oracles : list (list F)) (x : nat) :
  2 * (x / 2) + 1 < length cw ->
  (forall k, k < length oracles -> 2 * (x / 2 ^ (k + 2)) + 1 < length (nth k oracles [])) ->
  exists r, basefold_get_query cw oracles x = Some r /\
    commitment_query r =
      mkCodewordSingleQueryResult (nth (2 * (x / 2)) cw fzero) (nth (2 * (x / 2) + 1) cw fzero)
        (2 * (x / 2)) /\
    length (oracle_query r) = length oracles /\
    forall k, k < length oracles ->
      nth_error (oracle_query r) k =
      Some (mkCodewordSingleQueryResult (nth (2 * (x / 2 ^ (k + 2))) (nth k oracles []) fzero)
              (nth (2 * (x / 2 ^ (k + 2)) + 1) (nth k oracles []) fzero) (2 * (x / 2 ^ (k + 2)))).
Proof.
  intros Hc Ho.
  assert (Hsh : Nat.shiftr x 1 = x / 2) by (rewrite Nat.shiftr_div_pow2; reflexivity).
  assert (Hdiv : forall k, x / 2 / 2 ^ (k + 1) = x / 2 ^ (k + 2)).
  { intros k. rewrite Nat.Div0.div_div. f_equal.
    replace (k + 2) with (S (k + 1)) by lia. rewrite Nat.pow_succ_r'. reflexivity. }
  destruct (oracle_queries_some oracles (Nat.shiftr x 1)) as (qs & Hq & Hlen & Hn).
  { intros k Hk. rewrite Hsh, Hdiv. apply Ho. exact Hk. }
  unfold basefold_get_query. rewrite query_pair_some by exact Hc. rewrite Hq.
  eexists. split; [reflexivity|]. split; [reflexivity|]. split; [exact Hlen|].
  intros k Hk. cbn [oracle_query]. rewrite Hn by exact Hk. rewrite Hsh, Hdiv. reflexivity.
Qed.

End Queries.

Section RawBytesExtras.
Import Goldilocks RawBytes.
Local Open Scope Z_scope.

(** X9: [from_raw_bytes] adds the bytes as field elements: as long as
    [255 * length < p], it returns the plain integer sum of the bytes (not
    the little-endian number they spell). *)
Theorem from_raw_bytes_sum (bytes : list Z) :
  Forall Ltu.is_byte bytes -> 255 * Z.of_nat (length bytes) < p ->
  from_raw_bytes bytes = fold_right Z.add 0 bytes.
Proof.
  exact (raw_bytes_sum bytes).
Qed.

(** X10: The [flat_table] of [get_table_aes] has one entry per full chunk of
    [bytes_per_element] bytes ([dest.len() / bytes_per_element]), and each
    entry, the sum of its chunk's bytes, lies in [0 ..= 255 * bytes_per_element]. *)
Theorem flat_table_entries (bytes_per_element : nat) (dest : list Z) :
  (0 < bytes_per_element)%nat -> Forall Ltu.is_byte dest ->
  255 * Z.of_nat bytes_per_element < p ->
  length (flat_table_of bytes_per_element dest) = (length dest / bytes_per_element)%nat /\
  forall x, In x (flat_table_of bytes_per_element dest) ->
    0 <= x <= 255 * Z.of_nat bytes_per_element.
Proof.
  intros Hn Hb Hp. unfold flat_table_of, Foldable.chunks_exact.
  destruct (firstn_chunks bytes_per_element Hn (length dest / bytes_per_element) dest) as [Hl Hc].
  { rewrite Nat.mul_comm. apply Nat.Div0.mul_div_le. }
  split; [rewrite length_map; exact Hl|].
  intros x Hx. apply in_map_iff in Hx. destruct Hx as (c & <- & Hin).
  destruct (Hc c Hin) as [Hlen Hincl].
  assert (Hcb : Forall Ltu.is_byte c).
  { apply List.Forall_forall. intros y Hy. rewrite List.Forall_forall in Hb. apply Hb, Hincl, Hy. }
  rewrite raw_bytes_sum by (auto; rewrite Hlen; lia).
  pose proof (sum_bytes_bound c Hcb). rewrite Hlen in H. lia.
Qed.

End RawBytesExtras.

(** Witnesses, over the five-element field and small byte strings. *)
Lemma fold_message_conventions_witness :
  length GF5.example_msg = 2 ^ S 1 /\
  fold_bitreversed_message false GF5.example_msg GF5.G2 =
  reverse_index_bits fzero (fold_bitreversed_message true (reverse_index_bits fzero GF5.example_msg) GF5.G2).
Proof.
  split; [reflexivity|].
  apply (fold_message_conventions FoldFacts.gf5_ring GF5.G2 1 GF5.example_msg). reflexivity.
Defined.

Lemma interpolate2_line_witness :
  (forall y : GF5.gf5, y <> fzero -> fmul y (finv y) = fone) /\ GF5.G1 <> GF5.G3 /\
  interpolate2 ((GF5.G1, GF5.G2), (GF5.G3, GF5.G4)) GF5.G1 = Some GF5.G2 /\
  interpolate2 ((GF5.G1, GF5.G2), (GF5.G3, GF5.G4)) GF5.G3 = Some GF5.G4.
Proof.
  split; [exact gf5_inv|]. split; [discriminate|].
  apply (interpolate2_line FoldFacts.gf5_ring gf5_inv GF5.G1 GF5.G2 GF5.G3 GF5.G4). discriminate.
Defined.

Lemma interpolate2_weights_agree_witness :
  (fone <> fzero /\ fmul GF5.G3 (fsub GF5.G3 GF5.G1) = fone) /\
  interpolate2 ((GF5.G1, GF5.G2), (GF5.G3, GF5.G4)) GF5.G4 =
  Some (interpolate2_weights ((GF5.G1, GF5.G2), (GF5.G3, GF5.G4)) GF5.G3 GF5.G4).
Proof.
  split; [split; [discriminate|reflexivity]|].
  apply (interpolate2_weights_agree FoldFacts.gf5_ring ltac:(discriminate) gf5_inv). reflexivity.
Defined.


Lemma sum_with_scalar_combines_witness :
  (forall b, In b [example_base0; example_base1] ->
     length (bh_evals b) = 2 ^ 1 /\ codeword_size b = codeword_size example_base0) /\
  exists c, sum_with_scalar [GF5.G2; GF5.G3] [example_base0; example_base1] = Some c /\
    num_vars c = 1 /\ poly_size c = 0 /\ codeword_size c = codeword_size example_base0 /\
    forall i, i < codeword_size example_base0 ->
      get_codeword_entry c i =
      Some (Sumcheck.fsum (map (fun j => fmul (nth j [GF5.G2; GF5.G3] fzero)
                     (nth i (codeword_tree (nth j [example_base0; example_base1] example_base0)) fzero))
                            (seq 0 2))).
Proof.
  assert (Hb : forall b, In b [example_base0; example_base1] ->
     length (bh_evals b) = 2 ^ 1 /\ codeword_size b = codeword_size example_base0)
    by (intros b [<-|[<-|[]]]; split; reflexivity).
  split; [exact Hb|].
  apply (sum_with_scalar_combines FoldFacts.gf5_ring 1 [GF5.G2; GF5.G3] example_base0 [example_base1]);
    [exact Hb|simpl; lia].
Defined.


Lemma basefold_get_query_pairs_witness :
  (2 * (5 / 2) + 1 < length example_codeword /\
   forall k, k < length example_oracles ->
     2 * (5 / 2 ^ (k + 2)) + 1 < length (nth k example_oracles [])) /\
  exists r, basefold_get_query example_codeword example_oracles 5 = Some r /\
    commitment_query r =
      mkCodewordSingleQueryResult (nth (2 * (5 / 2)) example_codeword fzero)
        (nth (2 * (5 / 2) + 1) example_codeword fzero) (2 * (5 / 2)) /\
    length (oracle_query r) = length example_oracles /\
    forall k, k < length example_oracles ->
      nth_error (oracle_query r) k =
      Some (mkCodewordSingleQueryResult (nth (2 * (5 / 2 ^ (k + 2))) (nth k example_oracles []) fzero)
              (nth (2 * (5 / 2 ^ (k + 2)) + 1) (nth k example_oracles []) fzero) (2 * (5 / 2 ^ (k + 2)))).
Proof.
  assert (Hc : 2 * (5 / 2) + 1 < length example_codeword) by (cbn; lia).
  assert (Ho : forall k, k < length example_oracles ->
     2 * (5 / 2 ^ (k + 2)) + 1 < length (nth k example_oracles []))
    by (intros [|[|k]] Hk; cbn in *; lia).
  split; [split; [exact Hc|exact Ho]|].
  exact (basefold_get_query_pairs example_codeword example_oracles 5 Hc Ho).
Defined.

Lemma from_raw_bytes_sum_witness :
  (Forall Ltu.is_byte [1; 2; 255]%Z /\ (255 * Z.of_nat (length [1; 2; 255]%Z) < Goldilocks.p)%Z) /\
  RawBytes.from_raw_bytes [1; 2; 255]%Z = fold_right Z.add 0%Z [1; 2; 255]%Z.
Proof.
  assert (Hb : Forall Ltu.is_byte [1; 2; 255]%Z) by (repeat constructor; unfold Ltu.is_byte; lia).
  assert (Hl : (255 * Z.of_nat (length [1; 2; 255]%Z) < Goldilocks.p)%Z) by (vm_compute; reflexivity).
  split; [split; [exact Hb|exact Hl]|].
  exact (from_raw_bytes_sum _ Hb Hl).
Defined.

Lemma flat_table_entries_witness :
  ((0 < 2)%nat /\ Forall Ltu.is_byte [1; 2; 3; 4; 255]%Z /\ (255 * Z.of_nat 2 < Goldilocks.p)%Z) /\
  length (RawBytes.flat_table_of 2 [1; 2; 3; 4; 255]%Z) = (length [1; 2; 3; 4; 255]%Z / 2)%nat /\
  forall x, In x (RawBytes.flat_table_of 2 [1; 2; 3; 4; 255]%Z) -> (0 <= x <= 255 * Z.of_nat 2)%Z.
Proof.
  assert (Hb : Forall Ltu.is_byte [1; 2; 3; 4; 255]%Z) by (repeat constructor; unfold Ltu.is_byte; lia).
  assert (Hl : (255 * Z.of_nat 2 < Goldilocks.p)%Z) by (vm_compute; reflexivity).
  split; [split; [lia|split; [exact Hb|exact Hl]]|].
  exact (flat_table_entries 2 _ ltac:(lia) Hb Hl).
Defined.

End BasefoldExtras.

Module SumcheckFacts.
Import Foldable Sumcheck FoldFacts.
Local Open Scope nat_scope.

Local Notation flat ps := (concat (map (fun p => [fst p; snd p]) ps)).

Section Lists.
Context {A : Type}.

Lemma flat_pairs (l : list A) : Nat.even (length l) = true -> flat (pairs l) = l.
Proof.
  intros He. remember (length l) as n eqn:Hn. revert l Hn He.
  induction n as [n IH] using lt_wf_ind. intros l Hn He.
  destruct l as [|a [|b l]]; [reflexivity|simpl in Hn; subst; discriminate|].
  cbn [pairs map concat fst snd app]. f_equal. f_equal.
  apply (IH (length l)); [simpl in Hn; lia|reflexivity|].
  simpl in Hn. subst n. rewrite Nat.even_succ_succ in He. exact He.
Qed.

Lemma length_flat (ps : list (A * A)) : length (flat ps) = 2 * length ps.
Proof. induction ps as [|p ps IH]; simpl; [reflexivity|]. rewrite IH. lia. Qed.

Lemma pairs_flat (ps : list (A * A)) : pairs (flat ps) = ps.
Proof. induction ps as [|[a b] ps IH]; [reflexivity|]. simpl. rewrite IH. reflexivity. Qed.

Lemma chunks2_flat (ps : list (A * A)) :
  chunks 2 (flat ps) = map (fun p => [fst p; snd p]) ps.
Proof.
  induction ps as [|p ps IH]; [reflexivity|].
  cbn [map concat app]. rewrite chunks_cons by (lia || discriminate). cbn [firstn skipn]. rewrite firstn_O, skipn_O, IH. reflexivity.
Qed.

Lemma nth_flat_even (ps : list (A * A)) (k : nat) (d : A) :
  k < length ps -> nth_error (flat ps) (2 * k) = Some (fst (nth k ps (d, d))).
Proof.
  revert k. induction ps as [|p ps IH]; intros k Hk; simpl in Hk; [lia|].
  destruct k as [|k]; [reflexivity|].
  replace (2 * S k) with (S (S (2 * k))) by lia. cbn. apply IH. lia.
Qed.

Lemma nth_flat_odd (ps : list (A * A)) (k : nat) (d : A) :
  k < length ps -> nth_error (flat ps) (2 * k + 1) = Some (snd (nth k ps (d, d))).
Proof.
  revert k. induction ps as [|p ps IH]; intros k Hk; simpl in Hk; [lia|].
  destruct k as [|k]; [reflexivity|].
  replace (2 * S k + 1) with (S (S (2 * k + 1))) by lia. cbn. apply IH. lia.
Qed.

End Lists.

Section Field.
Context {F : Type} `{PrimeField F}.
Hypothesis Fth : ring_theory fzero fone fadd fmul fsub fneg (@eq F).
Add Ring FringS : Fth.

Lemma fsum_app' (l1 l2 : list F) : fsum (l1 ++ l2) = fadd (fsum l1) (fsum l2).
Proof. unfold fsum. induction l1 as [|a l IH]; simpl; [ring|]. rewrite IH. ring. Qed.

Lemma fsum_map_add {A : Type} (f g : A -> F) (l : list A) :
  fsum (map (fun x => fadd (f x) (g x)) l) = fadd (fsum (map f l)) (fsum (map g l)).
Proof. unfold fsum. induction l as [|a l IH]; simpl; [ring|]. rewrite IH. ring. Qed.

Lemma fsum_map_scale {A : Type} (c : F) (f : A -> F) (l : list A) :
  fmul c (fsum (map f l)) = fsum (map (fun x => fmul c (f x)) l).
Proof. unfold fsum. induction l as [|a l IH]; simpl; [ring|]. rewrite <- IH. ring. Qed.

Lemma fsum_map_ext {A : Type} (f g : A -> F) (l : list A) :
  (forall x, In x l -> f x = g x) -> fsum (map f l) = fsum (map g l).
Proof. intros Hfg. f_equal. apply map_ext_in. exact Hfg. Qed.

Lemma fsum_seq_double (g : nat -> F) (h : nat) :
  fsum (map g (seq 0 (2 * h))) = fsum (map (fun k => fadd (g (2 * k)) (g (2 * k + 1))) (seq 0 h)).
Proof.
  induction h as [|h IH]; [reflexivity|].
  replace (2 * S h) with (2 * h + 2) by lia.
  rewrite seq_app, map_app, fsum_app', IH, (seq_S h 0), map_app, fsum_app'. f_equal.
  rewrite !Nat.add_0_l. replace 2 with (S (S 0)) at 2 by reflexivity. cbn [seq map].
  unfold fsum. cbn [fold_right]. replace (S (2 * h)) with (2 * h + 1) by lia. ring.
Qed.

Lemma map2_seq {A B C : Type} (f : A -> B -> C) (l : list A) (l' : list B) (da : A) (db : B) :
  length l = length l' ->
  map2 f l l' = map (fun k => f (nth k l da) (nth k l' db)) (seq 0 (length l)).
Proof.
  revert l'. induction l as [|a l IH]; intros [|b l'] Hl; simpl in Hl; try lia; [reflexivity|].
  cbn [map2 length seq map]. rewrite <- seq_shift, map_map. cbn [nth]. f_equal. apply IH. lia.
Qed.

Lemma dot_flat (bps eps : list (F * F)) :
  length bps = length eps ->
  dot (flat bps) (flat eps) =
  fsum (map (fun k => fadd (fmul (fst (nth k bps (fzero, fzero))) (fst (nth k eps (fzero, fzero))))
                           (fmul (snd (nth k bps (fzero, fzero))) (snd (nth k eps (fzero, fzero)))))
            (seq 0 (length bps))).
Proof.
  unfold dot. revert eps. induction bps as [|[a b] bps IH]; intros [|[c d] eps] Hl; simpl in Hl; try lia;
    [reflexivity|].
  cbn [map concat app map2 fst snd length seq map]. rewrite <- seq_shift, map_map.
  unfold fsum in *. cbn [fold_right nth fst snd]. rewrite IH by lia. ring.
Qed.

(** The two-element chunks, in coefficient form. *)
Lemma interp_flat (ps : list (F * F)) :
  one_level_interp_hc (flat ps) = Some (flat (map (fun p => (fst p, fsub (snd p) (fst p))) ps)).
Proof.
  unfold one_level_interp_hc. rewrite length_flat.
  destruct (Nat.eqb_spec (2 * length ps) 1) as [E|_]; [lia|].
  rewrite chunks2_flat.
  assert (Hm : forall qs : list (F * F),
    map_option (fun chunk => match chunk with [c0; c1] => Some [c0; fsub c1 c0] | _ => None end)
      (map (fun p => [fst p; snd p]) qs) = Some (map (fun p => [fst p; fsub (snd p) (fst p)]) qs)).
  { induction qs as [|q qs IH]; [reflexivity|]. cbn [map map_option]. rewrite IH. reflexivity. }
  rewrite Hm. cbn [option_map]. rewrite map_map. reflexivity.
Qed.

Lemma retain_odd_flat (ps : list (F * F)) : retain_odd (flat ps) = map snd ps.
Proof.
  induction ps as [|p ps IH] using rev_ind; [reflexivity|].
  rewrite map_app, concat_app. cbn [map concat]. rewrite app_nil_r.
  unfold retain_odd in *.
  change [fst p; snd p] with ([fst p] ++ [snd p]). rewrite app_assoc, !LtuFacts.enumerate_snoc.
  assert (Ho1 : Nat.odd (2 * length ps) = false)
    by (apply Bool.not_true_iff_false; rewrite Nat.odd_spec; intros [m Hm]; lia).
  assert (Ho2 : Nat.odd (2 * length ps + 1) = true) by (apply Nat.odd_spec; exists (length ps); lia).
  rewrite length_app, length_flat. cbn [length].
  rewrite !filter_app, !map_app, IH.
  set (a1 := 2 * length ps + 1) in *. set (a0 := 2 * length ps) in *.
  rewrite filter_cons_False by (cbn [fst]; rewrite Ho1; auto).
  rewrite filter_cons_True by (cbn [fst]; rewrite Ho2; exact I).
  rewrite !filter_nil. cbn [map]. rewrite app_nil_r. reflexivity.
Qed.

Lemma chunk_map_flat (h : F -> F -> F) (ps : list (F * F)) :
  map_option (fun chunk => match chunk with [c0; c1] => Some [c0; h c0 c1] | _ => None end)
    (chunks 2 (flat ps)) = Some (map (fun p => [fst p; h (fst p) (snd p)]) ps).
Proof.
  rewrite chunks2_flat. induction ps as [|p ps IH]; [reflexivity|].
  cbn [map map_option]. rewrite IH. reflexivity.
Qed.

Lemma eval_flat (ps : list (F * F)) (r : F) :
  one_level_eval_hc (flat ps) r = Some (map (fun p => fadd (fst p) (fmul r (snd p))) ps).
Proof.
  unfold one_level_eval_hc.
  rewrite (chunk_map_flat (fun c0 c1 => fadd c0 (fmul r c1))). cbn [option_map].
  replace (map (fun p => [fst p; fadd (fst p) (fmul r (snd p))]) ps)
    with (map (fun p => [fst p; snd p]) (map (fun p => (fst p, fadd (fst p) (fmul r (snd p)))) ps))
    by (rewrite map_map; reflexivity).
  rewrite retain_odd_flat, map_map. reflexivity.
Qed.

Lemma length_pairs_even {A : Type} (l : list A) (h : nat) :
  length l = 2 * h -> length (pairs l) = h.
Proof.
  intros Hl. assert (He : Nat.even (length l) = true) by (rewrite Hl; apply Nat.even_mul).
  pose proof (f_equal (@length A) (flat_pairs l He)) as E. rewrite length_flat in E. lia.
Qed.

Lemma parallel_pi_long (l e : list F) :
  length l <> 1 ->
  parallel_pi l e =
  let idx := seq 0 (length l) in
  match map_option (fun i => if Nat.even i then mul_at l e i i else Some fzero) idx,
        map_option (fun i =>
          if Nat.even i then
            match mul_at l e (i + 1) i, mul_at l e i (i + 1) with
            | Some a, Some b => Some (fadd a b)
            | _, _ => None
            end
          else Some fzero) idx,
        map_option (fun i => if Nat.even i then mul_at l e (i + 1) (i + 1) else Some fzero) idx with
  | Some f, Some s, Some t => Some [fsum f; fsum s; fsum t]
  | _, _, _ => None
  end.
Proof. intros Hl. destruct l as [|a [|b l]]; [reflexivity|simpl in Hl; lia|reflexivity]. Qed.

Lemma mul_at_some (l e : list F) (i j : nat) :
  i < length l -> j < length e -> mul_at l e i j = Some (fmul (nth i l fzero) (nth j e fzero)).
Proof.
  intros Hi Hj. unfold mul_at.
  rewrite (nth_error_nth' l fzero Hi), (nth_error_nth' e fzero Hj). reflexivity.
Qed.

Lemma even_succ_lt (i h : nat) : Nat.even i = true -> i < 2 * h -> i + 1 < 2 * h.
Proof. intros He Hi. apply Nat.even_spec in He. destruct He as [m ->]. lia. Qed.

Lemma nth_flat_fst (ps : list (F * F)) (k : nat) :
  k < length ps -> nth (2 * k) (flat ps) fzero = fst (nth k ps (fzero, fzero)).
Proof. intros Hk. apply nth_error_nth. apply nth_flat_even. exact Hk. Qed.

Lemma nth_flat_snd (ps : list (F * F)) (k : nat) :
  k < length ps -> nth (2 * k + 1) (flat ps) fzero = snd (nth k ps (fzero, fzero)).
Proof. intros Hk. apply nth_error_nth. apply nth_flat_odd. exact Hk. Qed.

Lemma even_2k (k : nat) : Nat.even (2 * k) = true.
Proof. apply Nat.even_mul. Qed.

Lemma even_2k1 (k : nat) : Nat.even (2 * k + 1) = false.
Proof. apply Bool.not_true_iff_false. rewrite Nat.even_spec. intros [m Hm]. lia. Qed.

Lemma fsum_even_terms (g : nat -> F) (h : nat) :
  fsum (map (fun i => if Nat.even i then g i else fzero) (seq 0 (2 * h))) =
  fsum (map (fun k => g (2 * k)) (seq 0 h)).
Proof.
  rewrite fsum_seq_double. apply fsum_map_ext. intros k _.
  rewrite even_2k, even_2k1. ring.
Qed.

(** [parallel_pi] on two lists of pairs of the same positive length. *)
Lemma pi_flat (bps eps : list (F * F)) :
  length eps = length bps -> 0 < length bps ->
  parallel_pi (flat bps) (flat eps) =
  Some [fsum (map (fun k => fmul (fst (nth k bps (fzero, fzero))) (fst (nth k eps (fzero, fzero))))
                  (seq 0 (length bps)));
        fsum (map (fun k => fadd (fmul (snd (nth k bps (fzero, fzero))) (fst (nth k eps (fzero, fzero))))
                                 (fmul (fst (nth k bps (fzero, fzero))) (snd (nth k eps (fzero, fzero)))))
                  (seq 0 (length bps)));
        fsum (map (fun k => fmul (snd (nth k bps (fzero, fzero))) (snd (nth k eps (fzero, fzero))))
                  (seq 0 (length bps)))].
Proof.
  intros Hl Hh. set (h := length bps) in *.
  assert (HL : length (flat bps) = 2 * h) by apply length_flat.
  assert (HE : length (flat eps) = 2 * h) by (rewrite length_flat; lia).
  rewrite parallel_pi_long by lia. cbv zeta. rewrite HL.
  rewrite (map_option_map _ (fun i => if Nat.even i then fmul (nth i (flat bps) fzero) (nth i (flat eps) fzero)
                                       else fzero)).
  2:{ intros i Hi. apply in_seq in Hi. destruct (Nat.even i); [|reflexivity].
      apply mul_at_some; lia. }
  rewrite (map_option_map _ (fun i => if Nat.even i then
             fadd (fmul (nth (i + 1) (flat bps) fzero) (nth i (flat eps) fzero))
                  (fmul (nth i (flat bps) fzero) (nth (i + 1) (flat eps) fzero)) else fzero)).
  2:{ intros i Hi. apply in_seq in Hi. destruct (Nat.even i) eqn:Ei; [|reflexivity].
      pose proof (even_succ_lt i h Ei ltac:(lia)).
      rewrite !mul_at_some by lia. reflexivity. }
  rewrite (map_option_map _ (fun i => if Nat.even i then
             fmul (nth (i + 1) (flat bps) fzero) (nth (i + 1) (flat eps) fzero) else fzero)).
  2:{ intros i Hi. apply in_seq in Hi. destruct (Nat.even i) eqn:Ei; [|reflexivity].
      pose proof (even_succ_lt i h Ei ltac:(lia)).
      rewrite !mul_at_some by lia. reflexivity. }
  rewrite !fsum_even_terms. f_equal. f_equal; [|f_equal; [|f_equal]];
    apply fsum_map_ext; intros k Hk; apply in_seq in Hk;
    rewrite ?nth_flat_fst, ?nth_flat_snd by lia; reflexivity.
Qed.

Lemma fix_first_flat (r : F) (ps : list (F * F)) :
  fix_first r (flat ps) = map (fun p => fadd (fst p) (fmul r (fsub (snd p) (fst p)))) ps.
Proof. unfold fix_first. rewrite pairs_flat. reflexivity. Qed.

Lemma first_round_flat (P Q : list (F * F)) :
  length P = length Q -> 0 < length Q ->
  exists ieq ibh m0, sum_check_first_round (flat P) (flat Q) = Some (ieq, ibh, m0) /\
    (forall r, one_level_eval_hc ieq r = Some (fix_first r (flat P))) /\
    (forall r, one_level_eval_hc ibh r = Some (fix_first r (flat Q))) /\
    degree_2_zero_plus_one m0 = Some (dot (flat Q) (flat P)) /\
    (forall r, degree_2_eval m0 r = Some (dot (fix_first r (flat Q)) (fix_first r (flat P)))).
Proof.
  intros Hl Hh. unfold sum_check_first_round. rewrite !interp_flat.
  set (iota := fun p : F * F => (fst p, fsub (snd p) (fst p))).
  rewrite pi_flat by (rewrite !length_map; lia).
  eexists _, _, _. split; [reflexivity|].
  split; [intros r; rewrite eval_flat, fix_first_flat, map_map; reflexivity|].
  split; [intros r; rewrite eval_flat, fix_first_flat, map_map; reflexivity|].
  rewrite length_map.
  split.
  - cbn [degree_2_zero_plus_one]. f_equal. rewrite dot_flat by lia.
    rewrite <- !fsum_map_add. apply fsum_map_ext. intros k Hk. apply in_seq in Hk.
    rewrite !(nth_map_lt iota _ k (fzero, fzero)) by lia. unfold iota. cbn [fst snd]. ring.
  - intros r. cbn [degree_2_eval]. f_equal. rewrite !fsum_map_scale, <- !fsum_map_add.
    rewrite !fix_first_flat. unfold dot.
    rewrite (map2_seq _ _ _ fzero fzero) by (rewrite !length_map; lia). rewrite length_map.
    apply fsum_map_ext. intros k Hk. apply in_seq in Hk.
    rewrite !(nth_map_lt iota _ k (fzero, fzero)) by lia.
    rewrite !(nth_map_lt _ _ k (fzero, fzero)) by lia. unfold iota. cbn [fst snd]. ring.
Qed.

Lemma first_round_spec (eq bh : list F) (h : nat) :
  length eq = 2 * h -> length bh = 2 * h -> 0 < h ->
  exists ieq ibh m0, sum_check_first_round eq bh = Some (ieq, ibh, m0) /\
    (forall r, one_level_eval_hc ieq r = Some (fix_first r eq)) /\
    (forall r, one_level_eval_hc ibh r = Some (fix_first r bh)) /\
    degree_2_zero_plus_one m0 = Some (dot bh eq) /\
    (forall r, degree_2_eval m0 r = Some (dot (fix_first r bh) (fix_first r eq))).
Proof.
  intros He Hb Hh.
  rewrite <- (flat_pairs eq) by (rewrite He; apply Nat.even_mul).
  rewrite <- (flat_pairs bh) by (rewrite Hb; apply Nat.even_mul).
  apply first_round_flat; rewrite (length_pairs_even _ h) by assumption;
    [rewrite (length_pairs_even _ h) by assumption; reflexivity|exact Hh].
Qed.

Lemma length_fix_first (r : F) (l : list F) (h : nat) :
  length l = 2 * h -> length (fix_first r l) = h.
Proof. intros Hl. unfold fix_first. rewrite length_map. apply length_pairs_even, Hl. Qed.

Lemma rounds_spec (rs : list F) :
  forall m (eq bh ieq ibh m0 : list F),
  rs <> [] -> length eq = 2 ^ m -> length bh = 2 ^ m -> length rs <= m ->
  (forall r, one_level_eval_hc ieq r = Some (fix_first r eq)) ->
  (forall r, one_level_eval_hc ibh r = Some (fix_first r bh)) ->
  (forall r, degree_2_eval m0 r = Some (dot (fix_first r bh) (fix_first r eq))) ->
  exists ms eq' bh', sumcheck_rounds ieq ibh rs = Some (ms, eq', bh') /\
    length ms + 1 = length rs /\
    eq' = fold_left (fun l r => fix_first r l) rs eq /\
    bh' = fold_left (fun l r => fix_first r l) rs bh /\
    (forall i, i + 1 < length rs ->
       degree_2_eval (nth i (m0 :: ms) []) (nth i rs fzero) =
       degree_2_zero_plus_one (nth (i + 1) (m0 :: ms) [])) /\
    degree_2_eval (nth (length rs - 1) (m0 :: ms) []) (nth (length rs - 1) rs fzero) =
    Some (dot bh' eq').
Proof.
  induction rs as [|r rs IH]; intros m eq bh ieq ibh m0 Hne He Hb Hm Hieq Hibh Hm0; [congruence|].
  destruct rs as [|r' rs'].
  - cbn [sumcheck_rounds]. unfold sum_check_last_round. rewrite Hibh, Hieq.
    eexists [], _, _. split; [reflexivity|]. split; [reflexivity|].
    split; [reflexivity|]. split; [reflexivity|].
    split; [intros i Hi; simpl in Hi; lia|]. apply Hm0.
  - destruct m as [|[|m]]; [simpl in Hm; lia|simpl in Hm; lia|].
    assert (Hfe : length (fix_first r eq) = 2 * 2 ^ m)
      by (apply length_fix_first; rewrite He, !Nat.pow_succ_r'; lia).
    assert (Hfb : length (fix_first r bh) = 2 * 2 ^ m)
      by (apply length_fix_first; rewrite Hb, !Nat.pow_succ_r'; lia).
    destruct (first_round_spec (fix_first r eq) (fix_first r bh) (2 ^ m) Hfe Hfb (pow2_pos m))
      as (ieq2 & ibh2 & m1 & Hfr & Hieq2 & Hibh2 & Hz1 & Hm1).
    assert (He2 : length (fix_first r eq) = 2 ^ S m) by (rewrite Hfe, Nat.pow_succ_r'; reflexivity).
    assert (Hb2 : length (fix_first r bh) = 2 ^ S m) by (rewrite Hfb, Nat.pow_succ_r'; reflexivity).
    assert (Hm2 : length (r' :: rs') <= S m) by (simpl in Hm |- *; lia).
    destruct (IH (S m) (fix_first r eq) (fix_first r bh) ieq2 ibh2 m1 ltac:(discriminate)
                He2 Hb2 Hm2 Hieq2 Hibh2 Hm1)
      as (ms & eq' & bh' & Hr & Hlen & Heq' & Hbh' & Hchain & Hfin).
    change (sumcheck_rounds ieq ibh (r :: r' :: rs')) with
      (match sum_check_challenge_round ieq ibh r with
       | Some (eq, bh_values, m) =>
           match sumcheck_rounds eq bh_values (r' :: rs') with
           | Some (ms, eq, bh_values) => Some (m :: ms, eq, bh_values)
           | None => None
           end
       | None => None
       end).
    unfold sum_check_challenge_round. rewrite Hibh, Hieq, Hfr, Hr.
    exists (m1 :: ms), eq', bh'. split; [reflexivity|].
    split; [simpl in *; lia|]. split; [exact Heq'|]. split; [exact Hbh'|]. split.
    + intros [|i] Hi.
      * change (0 + 1) with 1. cbn [nth]. rewrite Hm0, Hz1. reflexivity.
      * replace (S i + 1) with (S (i + 1)) by lia. cbn [nth]. apply Hchain. simpl in *. lia.
    + replace (length (r :: r' :: rs') - 1) with (S (length (r' :: rs') - 1)) by (simpl; lia).
      cbn [nth]. exact Hfin.
Qed.

End Field.
End SumcheckFacts.

Module SumcheckExtras.
Import Foldable Sumcheck FoldFacts SumcheckFacts.
Local Open Scope nat_scope.

Section Prover.
Context {F : Type} `{PrimeField F}.
Hypothesis Fth : ring_theory fzero fone fadd fmul fsub fneg (@eq F).

(** X11: The sum-check messages of [commit_phase] ([sum_check_first_round], then
    [sum_check_challenge_round] for every challenge but the last, and
    [sum_check_last_round]) on [eq] and [bh_values] of length [2^n], with
    [1 <= #challenges <= n]: there is one message per challenge; the first
    satisfies [p(0) + p(1) = sum_i bh[i] * eq[i]]; each message evaluated at
    its challenge equals [p(0) + p(1)] of the next one; the last one
    evaluated at the last challenge equals the inner product of the final
    [bh_values] and [eq]; and these final vectors are [bh] and [eq] with
    their first variables fixed to the challenges in turn. *)
Theorem sumcheck_prover_consistent (n : nat) (eq bh rs : list F) :
  length eq = 2 ^ n -> length bh = 2 ^ n -> 1 <= length rs <= n ->
  exists msgs eq' bh', sumcheck_prover eq bh rs = Some (msgs, eq', bh') /\
    length msgs = length rs /\
    eq' = fold_left (fun l r => fix_first r l) rs eq /\
    bh' = fold_left (fun l r => fix_first r l) rs bh /\
    degree_2_zero_plus_one (nth 0 msgs []) = Some (dot bh eq) /\
    (forall i, i + 1 < length rs ->
       degree_2_eval (nth i msgs []) (nth i rs fzero) = degree_2_zero_plus_one (nth (i + 1) msgs [])) /\
    degree_2_eval (nth (length rs - 1) msgs []) (nth (length rs - 1) rs fzero) = Some (dot bh' eq').
Proof.
  intros He Hb Hr. destruct n as [|n]; [lia|].
  assert (He' : length eq = 2 * 2 ^ n) by (rewrite He, Nat.pow_succ_r'; reflexivity).
  assert (Hb' : length bh = 2 * 2 ^ n) by (rewrite Hb, Nat.pow_succ_r'; reflexivity).
  destruct (first_round_spec Fth eq bh (2 ^ n) He' Hb' (pow2_pos n))
    as (ieq & ibh & m0 & Hfr & Hieq & Hibh & Hz0 & Hm0).
  assert (Hne : rs <> []) by (intros ->; simpl in Hr; lia).
  destruct (rounds_spec Fth rs (S n) eq bh ieq ibh m0 Hne He Hb ltac:(lia) Hieq Hibh Hm0)
    as (ms & eq' & bh' & Hrs & Hlen & Heq' & Hbh' & Hchain & Hfin).
  unfold sumcheck_prover. rewrite Hfr, Hrs.
  exists (m0 :: ms), eq', bh'. split; [reflexivity|].
  split; [simpl; lia|]. split; [exact Heq'|]. split; [exact Hbh'|].
  split; [exact Hz0|]. split; [exact Hchain|exact Hfin].
Qed.

End Prover.

(** Witness: two rounds over vectors of four elements of the five-element
    field. *)
Lemma sumcheck_prover_consistent_witness :
  (length [GF5.G1; GF5.G2; GF5.G3; GF5.G4] = 2 ^ 2 /\ length [GF5.G2; GF5.G0; GF5.G1; GF5.G3] = 2 ^ 2 /\
   1 <= length [GF5.G2; GF5.G3] <= 2) /\
  exists msgs eq' bh',
    sumcheck_prover [GF5.G1; GF5.G2; GF5.G3; GF5.G4] [GF5.G2; GF5.G0; GF5.G1; GF5.G3] [GF5.G2; GF5.G3]
      = Some (msgs, eq', bh') /\
    length msgs = 2 /\
    eq' = fold_left (fun l r => fix_first r l) [GF5.G2; GF5.G3] [GF5.G1; GF5.G2; GF5.G3; GF5.G4] /\
    bh' = fold_left (fun l r => fix_first r l) [GF5.G2; GF5.G3] [GF5.G2; GF5.G0; GF5.G1; GF5.G3] /\
    degree_2_zero_plus_one (nth 0 msgs []) =
      Some (dot [GF5.G2; GF5.G0; GF5.G1; GF5.G3] [GF5.G1; GF5.G2; GF5.G3; GF5.G4]) /\
    (forall i, i + 1 < 2 ->
       degree_2_eval (nth i msgs []) (nth i [GF5.G2; GF5.G3] fzero) =
       degree_2_zero_plus_one (nth (i + 1) msgs [])) /\
    degree_2_eval (nth 1 msgs []) (nth 1 [GF5.G2; GF5.G3] fzero) = Some (dot bh' eq').
Proof.
  split; [split; [reflexivity|split; [reflexivity|simpl; lia]]|].
  exact (sumcheck_prover_consistent gf5_ring 2 [GF5.G1; GF5.G2; GF5.G3; GF5.G4] [GF5.G2; GF5.G0; GF5.G1; GF5.G3]
    [GF5.G2; GF5.G3] eq_refl eq_refl ltac:(simpl; lia)).
Defined.

End SumcheckExtras.

Module HypercubeFacts.
Import Foldable Sumcheck FoldFacts SumcheckFacts.
Local Open Scope nat_scope.

Lemma land_split (i a b p q : nat) :
  a < 2 ^ i -> b < 2 ^ i ->
  Nat.land (a + 2 ^ i * p) (b + 2 ^ i * q) = Nat.land a b + 2 ^ i * Nat.land p q.
Proof.
  intros Ha Hb.
  assert (Hab : Nat.land a b < 2 ^ i) by (pose proof (Nat.land_le_l a b); lia).
  assert (Hs : forall x r, x < 2 ^ i -> forall j,
            Nat.testbit (x + 2 ^ i * r) j = if j <? i then Nat.testbit x j else Nat.testbit r (j - i)).
  { intros x r Hx j. destruct (Nat.ltb_spec j i) as [Hj|Hj].
    - rewrite <- (Nat.mod_pow2_bits_low _ i j Hj).
      rewrite Nat.mul_comm, Nat.Div0.mod_add, Nat.mod_small by exact Hx. reflexivity.
    - replace j with ((j - i) + i) at 1 by lia. rewrite <- Nat.div_pow2_bits.
      rewrite Nat.mul_comm, Nat.div_add by (apply Nat.pow_nonzero; lia).
      rewrite Nat.div_small by exact Hx. reflexivity. }
  apply Nat.bits_inj. intros j.
  rewrite Nat.land_spec, !Hs by assumption.
  destruct (j <? i); symmetry; apply Nat.land_spec.
Qed.

Lemma nth_firstn_skipn {A : Type} (n b j : nat) (l : list A) (d : A) :
  j < n -> nth j (firstn n (skipn b l)) d = nth (b + j) l d.
Proof.
  intros Hj. rewrite nth_firstn. destruct (Nat.ltb_spec j n); [|lia]. apply nth_skipn.
Qed.

Lemma chunks_all_length {A : Type} (n q : nat) (c : list A) :
  0 < n -> length c = q * n -> forall x, In x (chunks n c) -> length x = n.
Proof.
  intros Hn. revert c. induction q as [|q IH]; intros c Hc x Hx.
  - destruct c; [destruct Hx|simpl in Hc; lia].
  - rewrite chunks_cons in Hx by (lia || (intros ->; simpl in Hc; lia)).
    destruct Hx as [<-|Hx]; [rewrite length_firstn; lia|].
    apply (IH (skipn n c)); [rewrite length_skipn; lia|exact Hx].
Qed.

Section Field.
Context {F : Type} `{PrimeField F}.
Hypothesis Fth : ring_theory fzero fone fadd fmul fsub fneg (@eq F).
Add Ring FringH : Fth.

Lemma nth_concat_chunks (n : nat) (g : list F -> list F) (Hn : 0 < n)
    (Hg : forall x, length x = n -> length (g x) = n) :
  forall q (c : list F) y, length c = q * n -> y < q * n ->
  nth y (concat (map g (chunks n c))) fzero =
  nth (y mod n) (g (firstn n (skipn (n * (y / n)) c))) fzero.
Proof.
  induction q as [|q IH]; intros c y Hc Hy; [lia|].
  rewrite chunks_cons by (lia || (intros ->; simpl in Hc; lia)).
  cbn [map concat].
  assert (Hl : length (g (firstn n c)) = n) by (apply Hg; rewrite length_firstn; lia).
  destruct (Nat.ltb_spec y n) as [Hyn|Hyn].
  - rewrite app_nth1 by lia. rewrite Nat.mod_small, Nat.div_small by exact Hyn.
    rewrite Nat.mul_0_r. reflexivity.
  - rewrite app_nth2 by lia. rewrite Hl.
    rewrite IH by (rewrite ?length_skipn; lia).
    rewrite skipn_skipn.
    assert (E1 : y mod n = (y - n) mod n).
    { replace y with ((y - n) + 1 * n) at 1 by lia. apply Nat.Div0.mod_add. }
    assert (E2 : y / n = (y - n) / n + 1).
    { replace y with ((y - n) + 1 * n) at 1 by lia. apply Nat.div_add. lia. }
    rewrite E1, E2. replace (n * ((y - n) / n) + n) with (n * ((y - n) / n + 1)) by lia. reflexivity.
Qed.

Lemma length_concat_chunks (n : nat) (g : list F -> list F) (Hn : 0 < n)
    (Hg : forall x, length x = n -> length (g x) = n) :
  forall q (c : list F), length c = q * n -> length (concat (map g (chunks n c))) = q * n.
Proof.
  induction q as [|q IH]; intros c Hc.
  - destruct c; [reflexivity|simpl in Hc; lia].
  - rewrite chunks_cons by (lia || (intros ->; simpl in Hc; lia)).
    cbn [map concat]. rewrite length_app, Hg by (rewrite length_firstn; lia).
    rewrite IH by (rewrite length_skipn; lia). lia.
Qed.

Lemma hc_chunk_some (h : nat) (x : list F) :
  length x = h * 2 ->
  hc_chunk h x = Some (firstn h x ++ map2 fsub (skipn h x) (firstn h x)).
Proof. intros Hx. unfold hc_chunk. rewrite Hx, Nat.eqb_refl. reflexivity. Qed.

Lemma nth_hc_chunk (h : nat) (x : list F) (j : nat) :
  length x = h * 2 -> j < h * 2 ->
  nth j (firstn h x ++ map2 fsub (skipn h x) (firstn h x)) fzero =
  if j <? h then nth j x fzero else fsub (nth j x fzero) (nth (j - h) x fzero).
Proof.
  intros Hx Hj. destruct (Nat.ltb_spec j h) as [Hjh|Hjh].
  - rewrite app_nth1 by (rewrite length_firstn; lia). rewrite nth_firstn.
    destruct (Nat.ltb_spec j h); [reflexivity|lia].
  - rewrite app_nth2 by (rewrite length_firstn; lia). rewrite length_firstn.
    replace (Nat.min h (length x)) with h by lia.
    rewrite (nth_map2 _ _ _ _ fzero fzero) by (rewrite ?length_skipn, ?length_firstn; lia).
    rewrite nth_skipn, nth_firstn. destruct (Nat.ltb_spec (j - h) h); [|lia].
    replace (h + (j - h)) with j by lia. reflexivity.
Qed.

(** One level of [interpolate_over_boolean_hypercube], position by
    position. *)
Lemma hc_level_spec (i q : nat) (c : list F) :
  1 <= i -> length c = q * 2 ^ i ->
  exists c', hc_level (Some c) i = Some c' /\ length c' = length c /\
    forall y, y < length c ->
      nth y c' fzero =
      if y mod 2 ^ i <? 2 ^ (i - 1) then nth y c fzero
      else fsub (nth y c fzero) (nth (y - 2 ^ (i - 1)) c fzero).
Proof.
  intros Hi Hc.
  assert (Hpi : 2 ^ i = 2 ^ (i - 1) * 2)
    by (replace i with (S (i - 1)) at 1 by lia; rewrite Nat.pow_succ_r'; lia).
  assert (Hh : 2 ^ i / 2 = 2 ^ (i - 1)) by (rewrite Hpi, Nat.div_mul; lia).
  pose proof (pow2_pos i) as Hp. pose proof (pow2_pos (i - 1)) as Hp1.
  set (g := fun x : list F => firstn (2 ^ (i - 1)) x ++ map2 fsub (skipn (2 ^ (i - 1)) x) (firstn (2 ^ (i - 1)) x)).
  unfold hc_level. rewrite Hh.
  rewrite (map_option_map _ g).
  2:{ intros x Hx. apply hc_chunk_some. rewrite <- Hpi. exact (chunks_all_length _ q c Hp Hc x Hx). }
  cbn [option_map]. eexists. split; [reflexivity|].
  assert (Hg : forall x, length x = 2 ^ i -> length (g x) = 2 ^ i).
  { intros x Hx. unfold g. rewrite length_app, length_map2, length_skipn, length_firstn. lia. }
  split; [rewrite Hc; apply (length_concat_chunks _ g Hp Hg q c Hc)|].
  intros y Hy. rewrite (nth_concat_chunks _ g Hp Hg q c y Hc) by lia.
  assert (Hq : y / 2 ^ i < q) by (apply Nat.Div0.div_lt_upper_bound; lia).
  assert (Hd : y = 2 ^ i * (y / 2 ^ i) + y mod 2 ^ i) by apply Nat.div_mod_eq.
  assert (Hm : y mod 2 ^ i < 2 ^ i) by (apply Nat.mod_upper_bound; lia).
  assert (Hlen : length (firstn (2 ^ i) (skipn (2 ^ i * (y / 2 ^ i)) c)) = 2 ^ (i - 1) * 2).
  { rewrite length_firstn, length_skipn. assert (2 ^ i * (y / 2 ^ i) + 2 ^ i <= q * 2 ^ i) by nia. lia. }
  unfold g. rewrite nth_hc_chunk by (exact Hlen || lia).
  rewrite !nth_firstn_skipn by lia.
  destruct (Nat.ltb_spec (y mod 2 ^ i) (2 ^ (i - 1))) as [Hlt|Hge].
  - rewrite <- Hd. reflexivity.
  - rewrite <- Hd. f_equal. f_equal. lia.
Qed.

Lemma seq_offset (a n : nat) : seq a n = map (Nat.add a) (seq 0 n).
Proof.
  revert a. induction n as [|n IH]; intros a; [reflexivity|].
  cbn [seq map]. rewrite Nat.add_0_r. f_equal. rewrite IH, (IH 1), map_map. apply map_ext. intros; lia.
Qed.

(** The first loop of [interpolate_over_boolean_hypercube], position by
    position. *)
Lemma hc_first_pass_spec (h : nat) (e : list F) :
  length e = h * 2 ->
  exists c, hc_first_pass e = Some c /\ length c = length e /\
    forall y, y < length e ->
      nth y c fzero = if y mod 2 <? 1 then nth y e fzero else fsub (nth y e fzero) (nth (y - 1) e fzero).
Proof.
  intros He.
  set (g := fun x : list F => [nth 0 x fzero; fsub (nth 1 x fzero) (nth 0 x fzero)]).
  assert (Hg : forall x, length x = 2 -> length (g x) = 2) by reflexivity.
  unfold hc_first_pass. rewrite (map_option_map _ g).
  2:{ intros x Hx. pose proof (chunks_all_length 2 h e Nat.lt_0_2 He x Hx) as Hl.
      destruct x as [|a [|b [|]]]; simpl in Hl; try lia. reflexivity. }
  cbn [option_map]. eexists. split; [reflexivity|].
  split; [rewrite He; apply (length_concat_chunks _ g Nat.lt_0_2 Hg h e He)|].
  intros y Hy. rewrite (nth_concat_chunks _ g Nat.lt_0_2 Hg h e y He) by lia.
  assert (Hd : y = 2 * (y / 2) + y mod 2) by apply Nat.div_mod_eq.
  assert (Hm : y mod 2 < 2) by (apply Nat.mod_upper_bound; lia).
  unfold g. destruct (y mod 2) as [|[|]] eqn:Ey; [| |lia]; cbn [Nat.ltb Nat.leb nth].
  - rewrite nth_firstn_skipn by lia. f_equal. lia.
  - rewrite !nth_firstn_skipn by lia. f_equal; f_equal; lia.
Qed.

Lemma inv_first (h : nat) (e c : list F) :
  length e = h * 2 -> length c = length e ->
  (forall y, y < length e ->
     nth y c fzero = if y mod 2 <? 1 then nth y e fzero else fsub (nth y e fzero) (nth (y - 1) e fzero)) ->
  forall y, y < length e ->
    nth y e fzero =
    fsum (map (fun s => if Nat.land s (y mod 2 ^ 1) =? s then nth (2 ^ 1 * (y / 2 ^ 1) + s) c fzero
                        else fzero) (seq 0 (2 ^ 1))).
Proof.
  intros He Hc Hpt y Hy. change (2 ^ 1) with 2.
  assert (Hd : y = 2 * (y / 2) + y mod 2) by apply Nat.div_mod_eq.
  assert (Hm : y mod 2 < 2) by (apply Nat.mod_upper_bound; lia).
  cbn [seq map]. unfold fsum. cbn [fold_right].
  destruct (y mod 2) as [|[|]] eqn:Ey; [| |lia].
  - change (Nat.land 0 0 =? 0) with true. change (Nat.land 1 0 =? 1) with false. cbv beta iota.
    rewrite Hpt by lia. replace (2 * (y / 2) + 0) with y by lia. rewrite Ey. cbn [Nat.ltb Nat.leb]. ring.
  - change (Nat.land 0 1 =? 0) with true. change (Nat.land 1 1 =? 1) with true. cbv beta iota.
    rewrite !Hpt by lia. rewrite Nat.add_0_r.
    replace ((2 * (y / 2)) mod 2) with 0 by (rewrite Nat.mul_comm, Nat.Div0.mod_mul; reflexivity).
    replace ((2 * (y / 2) + 1) mod 2) with 1 by (rewrite <- Hd; exact (eq_sym Ey)).
    cbn [Nat.ltb Nat.leb]. rewrite <- Hd. replace (y - 1) with (2 * (y / 2)) by lia. ring.
Qed.

Lemma block_mod (m k s : nat) : s < m * 2 -> (m * 2 * k + s) mod (m * 2) = s.
Proof.
  intros Hs. rewrite Nat.add_comm, (Nat.mul_comm (m * 2) k), Nat.Div0.mod_add. apply Nat.mod_small, Hs.
Qed.

Lemma fsum_zeros {A : Type} (l : list A) : fsum (map (fun _ => fzero) l) = fzero.
Proof. unfold fsum. induction l as [|a l IH]; simpl; [reflexivity|]. rewrite IH. ring. Qed.

Lemma land_low (i s r b : nat) :
  s < 2 ^ i -> r < 2 ^ i -> Nat.land s (r + 2 ^ i * b) = Nat.land s r.
Proof.
  intros Hs Hr. pose proof (land_split i s r 0 b Hs Hr) as E.
  rewrite Nat.mul_0_r, Nat.add_0_r, Nat.land_0_l, Nat.mul_0_r, Nat.add_0_r in E. exact E.
Qed.

Lemma land_high (i s r b : nat) :
  s < 2 ^ i -> r < 2 ^ i -> Nat.land (2 ^ i + s) (r + 2 ^ i * b) = Nat.land s r + 2 ^ i * Nat.land 1 b.
Proof.
  intros Hs Hr. rewrite <- (land_split i s r 1 b Hs Hr). f_equal. lia.
Qed.

(** One level keeps the invariant: [e[y]] is the sum of the
    coefficients of the subsets of [y] within its block of [2^i]. *)
Lemma inv_step (i q : nat) (e c c' : list F) :
  length e = q * 2 ^ (i + 1) -> length c = length e ->
  (forall y, y < length e ->
     nth y e fzero =
     fsum (map (fun s => if Nat.land s (y mod 2 ^ i) =? s then nth (2 ^ i * (y / 2 ^ i) + s) c fzero
                         else fzero) (seq 0 (2 ^ i)))) ->
  (forall z, z < length c ->
     nth z c' fzero =
     if z mod 2 ^ (i + 1) <? 2 ^ i then nth z c fzero else fsub (nth z c fzero) (nth (z - 2 ^ i) c fzero)) ->
  forall y, y < length e ->
    nth y e fzero =
    fsum (map (fun s => if Nat.land s (y mod 2 ^ (i + 1)) =? s
                        then nth (2 ^ (i + 1) * (y / 2 ^ (i + 1)) + s) c' fzero else fzero)
              (seq 0 (2 ^ (i + 1)))).
Proof.
  intros Hl Hc Hinv Hpt y Hy.
  pose proof (pow2_pos i) as Hp.
  assert (Hm2 : 2 ^ (i + 1) = 2 ^ i * 2) by (rewrite Nat.pow_add_r; reflexivity).
  rewrite Hm2 in Hl, Hpt |- *.
  assert (Hmod : y mod (2 ^ i * 2) = y mod 2 ^ i + 2 ^ i * ((y / 2 ^ i) mod 2))
    by apply Nat.Div0.mod_mul_r.
  assert (Hdiv : y / (2 ^ i * 2) = y / 2 ^ i / 2) by (symmetry; apply Nat.Div0.div_div).
  rewrite Hmod, Hdiv, (Hinv y Hy).
  set (t := y / 2 ^ i). set (r0 := y mod 2 ^ i).
  assert (Ht : t = 2 * (t / 2) + t mod 2) by apply Nat.div_mod_eq.
  assert (Hb : t mod 2 = 0 \/ t mod 2 = 1) by (pose proof (Nat.mod_upper_bound t 2); lia).
  assert (Hr0 : r0 < 2 ^ i) by (apply Nat.mod_upper_bound; lia).
  assert (Htq : t / 2 < q).
  { apply Nat.Div0.div_lt_upper_bound. apply Nat.Div0.div_lt_upper_bound. nia. }
  set (base := 2 ^ i * 2 * (t / 2)).
  assert (Hbase : base + 2 ^ i * 2 <= length e) by (unfold base; nia).
  replace (seq 0 (2 ^ i * 2)) with (seq 0 (2 ^ i) ++ seq (2 ^ i) (2 ^ i))
    by (rewrite <- seq_app; f_equal; lia).
  rewrite map_app, (fsum_app' Fth), (seq_offset (2 ^ i) (2 ^ i)), map_map. cbv beta.
  (* the lower half of the block *)
  rewrite (fsum_map_ext
    (fun s => if Nat.land s (r0 + 2 ^ i * (t mod 2)) =? s then nth (base + s) c' fzero else fzero)
    (fun s => if Nat.land s r0 =? s then nth (base + s) c fzero else fzero)).
  2:{ intros s Hs. apply in_seq in Hs. rewrite land_low by lia.
      destruct (Nat.land s r0 =? s); [|reflexivity].
      rewrite Hpt by lia.
      unfold base. rewrite block_mod by lia.
      destruct (Nat.ltb_spec s (2 ^ i)); [reflexivity|lia]. }
  destruct Hb as [Eb|Eb]; rewrite Eb.
  - (* [y] in the lower half: the upper half contributes nothing *)
    rewrite (fsum_map_ext
      (fun x => if Nat.land (2 ^ i + x) (r0 + 2 ^ i * 0) =? 2 ^ i + x then nth (base + (2 ^ i + x)) c' fzero
                else fzero)
      (fun _ => fzero)).
    2:{ intros s0 Hs0. apply in_seq in Hs0. rewrite land_high by lia.
        destruct (Nat.eqb_spec (Nat.land s0 r0 + 2 ^ i * Nat.land 1 0) (2 ^ i + s0)) as [E|_];
          [|reflexivity].
        change (Nat.land 1 0) with 0 in E. pose proof (Nat.land_le_l s0 r0). lia. }
    rewrite fsum_zeros.
    replace (2 ^ i * t) with base
      by (unfold base; clearbody t; set (u := t / 2) in *; rewrite Eb in Ht; rewrite Ht; nia).
    rewrite (Radd_comm Fth), (Radd_0_l Fth). reflexivity.
  - (* [y] in the upper half *)
    rewrite (fsum_map_ext
      (fun x => if Nat.land (2 ^ i + x) (r0 + 2 ^ i * 1) =? 2 ^ i + x then nth (base + (2 ^ i + x)) c' fzero
                else fzero)
      (fun s0 => if Nat.land s0 r0 =? s0
                 then fsub (nth (base + 2 ^ i + s0) c fzero) (nth (base + s0) c fzero)
                 else fzero)).
    2:{ intros s0 Hs0. apply in_seq in Hs0. rewrite land_high by lia.
        change (Nat.land 1 1) with 1. rewrite Nat.mul_1_r.
        destruct (Nat.eqb_spec (Nat.land s0 r0 + 2 ^ i) (2 ^ i + s0)) as [E|E];
          destruct (Nat.eqb_spec (Nat.land s0 r0) s0) as [E'|E']; try lia; [|reflexivity].
        rewrite Hpt by lia.
        unfold base. rewrite block_mod by lia.
        destruct (Nat.ltb_spec (2 ^ i + s0) (2 ^ i)); [lia|].
        f_equal; f_equal; lia. }
    rewrite <- (fsum_map_add Fth). replace (2 ^ i * t) with (base + 2 ^ i)
      by (unfold base; clearbody t; set (u := t / 2) in *; rewrite Eb in Ht; rewrite Ht; nia).
    apply fsum_map_ext. intros s _. destruct (Nat.land s r0 =? s); [|ring].
    ring.
Qed.

(** The levels [2..k+1] keep the invariant, from the first pass on. *)
Lemma hc_levels_inv (n : nat) (e : list F) :
  length e = 2 ^ n ->
  forall k c1, k + 1 <= n -> length c1 = length e ->
  (forall y, y < length e ->
     nth y e fzero =
     fsum (map (fun s => if Nat.land s (y mod 2 ^ 1) =? s then nth (2 ^ 1 * (y / 2 ^ 1) + s) c1 fzero
                         else fzero) (seq 0 (2 ^ 1)))) ->
  exists c, fold_left hc_level (seq 2 k) (Some c1) = Some c /\ length c = length e /\
    forall y, y < length e ->
      nth y e fzero =
      fsum (map (fun s => if Nat.land s (y mod 2 ^ (k + 1)) =? s
                          then nth (2 ^ (k + 1) * (y / 2 ^ (k + 1)) + s) c fzero else fzero)
                (seq 0 (2 ^ (k + 1)))).
Proof.
  intros He. induction k as [|k IH]; intros c1 Hk Hc1 H1.
  - exists c1. split; [reflexivity|]. split; assumption.
  - destruct (IH c1 ltac:(lia) Hc1 H1) as (c & Hf & Hc & Hinv).
    rewrite seq_S, fold_left_app, Hf. cbn [fold_left].
    assert (Hq : length c = 2 ^ (n - (2 + k)) * 2 ^ (2 + k))
      by (rewrite <- Nat.pow_add_r; replace (n - (2 + k) + (2 + k)) with n by lia; lia).
    destruct (hc_level_spec (2 + k) _ c ltac:(lia) Hq) as (c' & Hl & Hc' & Hpt).
    exists c'. split; [exact Hl|]. split; [lia|].
    replace (S k + 1) with (k + 1 + 1) by lia.
    apply (inv_step (k + 1) (2 ^ (n - (2 + k))) e c c'); [| | exact Hinv|].
    + rewrite He, <- Nat.pow_add_r. f_equal. lia.
    + exact Hc.
    + intros z Hz. rewrite Hpt by exact Hz.
      replace (2 + k - 1) with (k + 1) by lia. replace (2 + k) with (k + 1 + 1) by lia. reflexivity.
Qed.

End Field.
End HypercubeFacts.

Module HypercubeExtras.
Import Foldable Sumcheck FoldFacts HypercubeFacts.
Local Open Scope nat_scope.

Section Field.
Context {F : Type} `{PrimeField F}.

(** X12: [interpolate_over_boolean_hypercube] on [2^n] evaluations
    ([n >= 1]) returns [2^n] coefficients of the multilinear polynomial
    whose value at every point [x] of the hypercube is the sum of the
    coefficients of the subsets of the bits of [x]. *)
Theorem interpolate_over_boolean_hypercube_inverts
    (Fth : ring_theory fzero fone fadd fmul fsub fneg (@eq F)) (n : nat) (evals : list F) :
  1 <= n -> length evals = 2 ^ n ->
  exists coeffs, interpolate_over_boolean_hypercube evals = Some coeffs /\
    length coeffs = 2 ^ n /\
    forall x, x < 2 ^ n -> nth x evals fzero = subset_sum n coeffs x.
Proof.
  intros Hn He. unfold interpolate_over_boolean_hypercube. rewrite He, log2_strict_pow2.
  assert (Hh : length evals = 2 ^ (n - 1) * 2)
    by (rewrite He; replace n with (S (n - 1)) at 1 by lia; rewrite Nat.pow_succ_r'; lia).
  destruct (hc_first_pass_spec (2 ^ (n - 1)) evals Hh) as (c1 & Hf & Hc1 & Hpt).
  rewrite Hf.
  destruct (hc_levels_inv Fth n evals He (n - 1) c1 ltac:(lia) Hc1
              (inv_first Fth (2 ^ (n - 1)) evals c1 Hh Hc1 Hpt)) as (c & Hl & Hc & Hinv).
  exists c. split; [exact Hl|]. split; [lia|].
  intros x Hx. rewrite Hinv by lia. replace (n - 1 + 1) with n by lia.
  rewrite Nat.mod_small, Nat.div_small by exact Hx. rewrite Nat.mul_0_r. reflexivity.
Qed.

End Field.

Lemma interpolate_over_boolean_hypercube_inverts_witness :
  1 <= 2 /\ length [GF5.G1; GF5.G3; GF5.G4; GF5.G0] = 2 ^ 2 /\
  exists coeffs, interpolate_over_boolean_hypercube [GF5.G1; GF5.G3; GF5.G4; GF5.G0] = Some coeffs /\
    length coeffs = 2 ^ 2 /\
    forall x, x < 2 ^ 2 -> nth x [GF5.G1; GF5.G3; GF5.G4; GF5.G0] fzero = subset_sum 2 coeffs x.
Proof.
  split; [lia|]. split; [reflexivity|].
  apply (interpolate_over_boolean_hypercube_inverts gf5_ring 2 [GF5.G1; GF5.G3; GF5.G4; GF5.G0]);
    [lia|reflexivity].
Defined.

End HypercubeExtras.

Module MockAssertFacts.
Import Expr Mock MockAssert.

Section Assert.
Context {F E : Type} `{EF : ExtensionField F E}.
Variable error_contains : @MockProverError F E -> string -> bool.





End Assert.
End MockAssertFacts.

Module MockAssertExtras.
Import Expr Mock MockFacts MockAssert MockAssertFacts.

Section Assert.
Context {F E : Type} `{EF : ExtensionField F E}.
Variable error_contains : @MockProverError F E -> string -> bool.

(** X13: [assert_satisfied] on a run of [run_maybe_challenge] returns
    exactly when the run finds no violation, and panics with the
    unexpected-error panic as soon as there is one; it never reports an
    expected error as missing. *)
Theorem assert_satisfied_run
    (wit_infer : Expression F E -> list F) (wit_infer_ext : Expression F E -> list E)
    (neg : Expression F E -> Expression F E) (table_contains : list Z -> bool)
    (zero_exprs lk_exprs : list (Expression F E * string)) (lkm_from_cs : Lkm) (lkm : option Lkm) :
  (assert_satisfied error_contains
     (run_maybe_challenge wit_infer wit_infer_ext neg table_contains zero_exprs lk_exprs lkm_from_cs lkm)
   = Passes <->
   forall err, ~ violation wit_infer wit_infer_ext neg table_contains zero_exprs lk_exprs lkm_from_cs lkm err) /\
  (assert_satisfied error_contains
     (run_maybe_challenge wit_infer wit_infer_ext neg table_contains zero_exprs lk_exprs lkm_from_cs lkm)
   = PanicUnexpected <->
   exists err, violation wit_infer wit_infer_ext neg table_contains zero_exprs lk_exprs lkm_from_cs lkm err).
Proof.
  pose proof (collect_errors_in wit_infer wit_infer_ext neg table_contains
                zero_exprs lk_exprs lkm_from_cs lkm) as Hin.
  unfold assert_satisfied, run_maybe_challenge.
  destruct (collect_errors wit_infer wit_infer_ext neg table_contains zero_exprs lk_exprs
              lkm_from_cs lkm) as [|e0 es] eqn:Hc.
  - split.
    + split; [|reflexivity]. intros _ err Hv. apply Hin in Hv. destruct Hv.
    + split; [discriminate|]. intros (err & Hv). apply Hin in Hv. destruct Hv.
  - unfold assert_with_expected_errors. cbn [existsb group_key find].
    split.
    + split; [discriminate|]. intros H. exfalso. apply (H e0). apply Hin. left. reflexivity.
    + split; [intros _; exists e0; apply Hin; left; reflexivity|reflexivity].
Qed.


End Assert.


End MockAssertExtras.
